(** * jserial: a decoder for the Java Object Serialization Stream Protocol

    A shallow embedding of [deserialize.go] (the buffer based parser: a byte
    slice [buf], a cursor [pos] and the handle table [handles]) and the
    properties of its byte reader, tag dispatcher, handle table, class-data
    reader and post-processors, and of the minimal representation
    (ParseSerializedObjectMinimal).  The later revision of the file, which
    reads from an [io.Reader], has the same tag dispatcher, type parsers,
    class-data reader, post-processors and minimal representation; it
    differs in the byte reader, which refuses reads longer than
    [maxDataBlockSize].

    Conventions of the embedding.
    - Go's [int] is taken to be 64 bits wide; positions and lengths are [Z].
      Fixed-width integers are [Z] with the wrap-around written out
      ([signed], [wrapS], [int32_sub]).
    - A Go string is a sequence of bytes: [string].  A byte slice is
      [list byte].
    - [map[string]interface{}] is [gmap string Value]; [map[string]bool] is
      [gmap string bool]; the set [map[*clazz]bool] is [gset nat].  Maps are
      held by value.  The parser writes to a map that something else already
      refers to in one place, parseArray, where the record is registered
      before its length is stored: there the handle table entry is updated.
      (A stream can make recursiveClassData write into a map of an earlier
      object only by declaring a field named "extends" that holds a
      reference to it; that sharing is not modelled.)
    - [*clazz] is a pointer: class descriptors live in a store ([classes])
      and a pointer is an index into it, because a descriptor is registered
      as a handle before its flags, fields, annotations and super are
      filled in, and the stream may refer to it meanwhile.
    - A Go function returning [(x, err)] is a computation in the monad [M]:
      it yields [Ok x] or [Err e] together with the parser state it leaves
      behind.
    - Recursion on the input is bounded by a fuel argument; [OutOfFuel] is
      the only result that does not exist in the Go program. *)

From Stdlib Require Import ZArith List String Strings.Byte Ascii Lia Bool.
From stdpp Require Import base gmap strings list option.

Set Warnings "-register-all".

Local Open Scope Z_scope.

(** ** Errors *)

(** The shapes a post-processor rejects. *)
Inductive shape :=
| NoElements                      (* "invalid data: at least one element required" *)
| NotByteSlice                    (* "unexpected data at position 0" *)
| TooShort (want got : Z)         (* "incorrect data at position 0: wanted at least %d bytes, got %d" *)
| WrongCount (want got : Z).      (* "incorrect number of elements: want %d got %d" *)

(** The names of the fifteen wire tags, in the order of [typeNames]. *)
Inductive TypeName :=
| Null | Reference | ClassDesc | Object | String | Array | Class | BlockData
| EndBlockData | Reset | BlockDataLong | Exception | LongString
| ProxyClassDesc | Enum.

Global Instance TypeName_eq_dec : EqDecision TypeName.
Proof. solve_decision. Defined.

(** What [errors.New] / [errors.Errorf] is called with. *)
Inductive kind :=
| BadMagic                           (* "magic value STREAM_MAGIC not found" *)
| BadVersion (ver : Z)               (* "protocol version not recognized: wanted 5 got %d" *)
| UnknownTag (tc : Z)                (* "unknown type %#x" *)
| TagNotAllowedHere (n : TypeName)   (* "%s not allowed here" *)
| Unsupported (n : TypeName)         (* "parsing %s is currently not supported" *)
| UnknownFieldType (typeName : Z)    (* "unknown field type '%s'" *)
| UnknownClassFlags (flags : Z)      (* "unable to deserialize class with flags %#x" *)
| Version1ExternalUnsupported        (* "unable to parse version 1 external content" *)
| UnexpectedEnd                      (* "premature end of input" *)
| StringTooLong                      (* "unable to read string larger than 2^32 bytes" *)
| UnexpectedShape (why : shape)
| UnexpectedFieldClassName           (* "unexpected field class name type" *)
| UnexpectedClassDescType            (* "unexpected type returned while reading class description" *)
| NilClassDefinition                 (* "invalid class definition: nil" *)
| UnexpectedExtends                  (* "unexpected extends value" *)
| Panic                              (* a Go run-time panic (index out of range, nil dereference) *)
| OutOfFuel.                         (* the embedding ran out of fuel *)

(** An error value of [github.com/pkg/errors]: a cause, wrapped in context
    messages. *)
Inductive error :=
| New (k : kind)
| Wrapped (msg : string) (e : error).

(** [errors.Wrap(err, msg)] and [errors.Wrapf]: "If err is nil, Wrap returns
    nil." *)
Definition Wrap (err : option error) (msg : string) : option error :=
  match err with
  | Some e => Some (Wrapped msg e)
  | None => None
  end.

(** [errors.Cause]. *)
Fixpoint Cause (e : error) : kind :=
  match e with
  | New k => k
  | Wrapped _ e' => Cause e'
  end.

(** ** Values *)

(** [interface{}] as the parser produces it.  [VClazz None] is a nil
    [*clazz] boxed in an interface (which is not the nil interface [VNil]).
    Floats are kept as their IEEE-754 bit patterns.  A nil slice and an empty
    slice are both [VSlice []]. *)
Inductive Value :=
| VNil
| VInt8 (x : Z)
| VInt16 (x : Z)
| VInt32 (x : Z)
| VInt64 (x : Z)
| VFloat32 (bits : Z)
| VFloat64 (bits : Z)
| VBool (b : bool)
| VString (s : string)
| VBytes (b : list byte)
| VSlice (l : list Value)
| VMap (m : gmap string Value)
| VBoolMap (m : gmap string bool)
| VTime (nanos : Z)
| VClazz (p : option nat)
| VEndBlock.

(** field contains info about a single class member.  [typeName] is the
    type byte: the source keeps [string(typeDec)], a one-rune string. *)
Record field := mkField {
  f_className : string;
  f_typeName : Z;
  f_name : string
}.

(** clazz contains java class info. *)
Record clazz := mkClazz {
  super : option nat;
  c_annotations : list Value;
  fields : list field;
  serialVersionUID : string;
  name : string;
  flags : Z;
  isEnum : bool
}.

Definition emptyClazz : clazz := mkClazz None [] [] "" "" 0 false.

(** ** The parser state and its monad *)

(** serializedObjectParser.  [classes] is the store [*clazz] points into;
    [tags] is a ghost log of the tags [content] has dispatched on, kept only
    to state the properties that count tags. *)
Record state := mkState {
  buf : list byte;
  pos : Z;
  handles : list Value;
  classes : list clazz;
  tags : list TypeName
}.

Inductive result (A : Type) :=
| Ok (a : A)
| Err (e : error).
Arguments Ok {A} a.
Arguments Err {A} e.

Definition M (A : Type) : Type := state -> result A * state.

Definition ret {A} (a : A) : M A := fun s => (Ok a, s).
Definition fail {A} (e : error) : M A := fun s => (Err e, s).
Definition bind {A B} (m : M A) (k : A -> M B) : M B :=
  fun s => match m s with
           | (Ok a, s') => k a s'
           | (Err e, s') => (Err e, s')
           end.
(** [if x, err = m; err != nil { err = errors.Wrap(err, msg); return }] *)
Definition wrap {A} (msg : string) (m : M A) : M A :=
  fun s => match m s with
           | (Ok a, s') => (Ok a, s')
           | (Err e, s') => (Err (Wrapped msg e), s')
           end.

Declare Scope parser_scope.
Delimit Scope parser_scope with parser.
Notation "x <- m ;; k" := (bind m (fun x => k))
  (at level 100, m at next level, right associativity) : parser_scope.
Notation "m ;;; k" := (bind m (fun _ => k))
  (at level 100, right associativity) : parser_scope.
Local Open Scope parser_scope.

Definition errorf {A} (k : kind) : M A := fail (New k).

(** ** Byte reader *)

Definition len {A} (l : list A) : Z := Z.of_nat (length l).

(** [b[lo:hi]] for [0 <= lo <= hi <= len b]. *)
Definition slice {A} (lo hi : Z) (l : list A) : list A :=
  take (Z.to_nat (hi - lo)) (drop (Z.to_nat lo) l).

Definition byteZ (b : byte) : Z := Z.of_N (Byte.to_N b).

(** [binary.BigEndian] reading of an unsigned integer. *)
Definition beUint (bs : list byte) : Z :=
  fold_left (fun acc b => acc * 256 + byteZ b) bs 0.

(** Two's complement reading of a [w]-bit pattern. *)
Definition signed (w : Z) (x : Z) : Z :=
  if x <? 2 ^ (w - 1) then x else x - 2 ^ w.

(** Reduction of an integer to the [w]-bit signed range. *)
Definition wrapS (w : Z) (x : Z) : Z := signed w (x mod 2 ^ w).

(** step moves the current buffer position forward by cnt bytes and returns
    the previous position prior to advancing *)
Definition advance (cnt : Z) (s : state) : state :=
  mkState (buf s) (pos s + cnt) (handles s) (classes s) (tags s).

Definition step (cnt : Z) : M Z :=
  fun s =>
    if len (buf s) <? pos (advance cnt s)
    then (Err (New UnexpectedEnd), advance cnt s)
    else (Ok (pos s), advance cnt s).

(** [sop.buf[lo:hi]] *)
Definition bufSlice (lo hi : Z) : M (list byte) :=
  fun s => (Ok (slice lo hi (buf s)), s).

Definition hexDigit (n : Z) : ascii :=
  ascii_of_N (Z.to_N (if n <? 10 then 48 + n else 87 + n)).

(** [fmt.Sprintf("%x", b)] for a byte slice. *)
Fixpoint hexString (bs : list byte) : string :=
  match bs with
  | [] => EmptyString
  | b :: r => String.String (hexDigit (byteZ b / 16))
                (String.String (hexDigit (byteZ b mod 16)) (hexString r))
  end.

(** readString reads a string of length cnt bytes *)
Definition readString (cnt : Z) (asHex : bool) : M string :=
  p <- wrap "error reading string" (step cnt) ;;
  b <- bufSlice p (p + cnt) ;;
  if asHex then ret (hexString b) else ret (string_of_list_byte b).

(** The fixed-width readers share one shape: step, then decode the bytes
    stepped over. *)
Definition readBE (n : Z) : M Z :=
  offset <- step n ;;
  b <- bufSlice offset (offset + n) ;;
  ret (beUint b).

Definition readUInt8 : M Z := readBE 1.
Definition readInt8 : M Z := x <- readBE 1 ;; ret (signed 8 x).
Definition readUInt16 : M Z := readBE 2.
Definition readInt16 : M Z := x <- readBE 2 ;; ret (signed 16 x).
Definition readUInt32 : M Z := readBE 4.
Definition readInt32 : M Z := x <- readBE 4 ;; ret (signed 32 x).
Definition readFloat32 : M Z := readBE 4.
Definition readInt64 : M Z := x <- readBE 8 ;; ret (signed 64 x).
Definition readFloat64 : M Z := readBE 8.

(** utf reads a variable length string *)
Definition utf : M string :=
  offset <- wrap "error reading utf: unable to read segment length" readUInt16 ;;
  wrap "error reading utf: unable to read segment" (readString offset false).

(** utfLong reads a large (up to 2^32 bytes) variable length string *)
Definition utfLong : M string :=
  offset <- wrap "error reading utf: unable to read first segment length" readUInt32 ;;
  if negb (offset =? 0) then errorf StringTooLong
  else
    offset <- wrap "error reading utf long: unable to read second segment length" readUInt32 ;;
    wrap "error reading utf long: unable to read segment" (readString offset false).

(** magic checks for the presence of the STREAM_MAGIC value *)
Definition magic : M unit :=
  magicVal <- readUInt16 ;;
  if negb (magicVal =? 0xaced) then errorf BadMagic else ret tt.

(** version checks to be sure the serialized object is using a supported
    protocol version.  On a failed read [ver] is 0, so the read error is
    replaced by the version error. *)
Definition version : M unit :=
  fun s => match readUInt16 s with
           | (Ok ver, s') => if negb (ver =? 5) then (Err (New (BadVersion ver)), s') else (Ok tt, s')
           | (Err _, s') => (Err (New (BadVersion 0)), s')
           end.

(** ** Handle table *)

(** newHandle adds a parsed object to the existing indexed handles which can
    be used later to lookup references to existing objects *)
Definition newHandle (obj : Value) : M Value :=
  fun s => (Ok obj, mkState (buf s) (pos s) (handles s ++ [obj]) (classes s) (tags s)).

(** newDeferredHandle reserves an object handle slot; the closure it returns
    is [fillHandle idx]. *)
Definition newDeferredHandle : M nat :=
  fun s => (Ok (length (handles s)),
            mkState (buf s) (pos s) (handles s ++ [VNil]) (classes s) (tags s)).

Definition fillHandle (idx : nat) (obj : Value) : M Value :=
  fun s => if decide (idx < length (handles s))%nat
           then (Ok obj, mkState (buf s) (pos s) (<[idx := obj]> (handles s)) (classes s) (tags s))
           else (Err (New Panic), s).

(** [sop.handles], read. *)
Definition getHandles : M (list Value) := fun s => (Ok (handles s), s).

(** Two's complement subtraction on [int32]. *)
Definition int32_sub (a b : Z) : Z := wrapS 32 (a - b).

Definition parseReference : M Value :=
  refIdx <- wrap "error reading reference index" readInt32 ;;
  let i := int32_sub refIdx 0x7e0000 in
  hs <- getHandles ;;
  if (-1 <? i) && (i <? len hs)
  then match hs !! Z.to_nat i with
       | Some ref => ret ref
       | None => errorf Panic
       end
  else ret VNil.

(** ** The class store *)

(** [cls := &clazz{}] *)
Definition newClazz : M nat :=
  fun s => (Ok (length (classes s)),
            mkState (buf s) (pos s) (handles s) (classes s ++ [emptyClazz]) (tags s)).

(** [*cls] *)
Definition deref (p : nat) : M clazz :=
  fun s => match classes s !! p with
           | Some c => (Ok c, s)
           | None => (Err (New Panic), s)
           end.

(** An assignment to a member of [*cls]. *)
Definition setClazz (p : nat) (f : clazz -> clazz) : M unit :=
  fun s => (Ok tt, mkState (buf s) (pos s) (handles s) (alter f p (classes s)) (tags s)).

Definition setName (v : string) (c : clazz) : clazz :=
  mkClazz (super c) (c_annotations c) (fields c) (serialVersionUID c) v (flags c) (isEnum c).
Definition setSerialVersionUID (v : string) (c : clazz) : clazz :=
  mkClazz (super c) (c_annotations c) (fields c) v (name c) (flags c) (isEnum c).
Definition setFlags (v : Z) (c : clazz) : clazz :=
  mkClazz (super c) (c_annotations c) (fields c) (serialVersionUID c) (name c) v (isEnum c).
Definition setIsEnum (v : bool) (c : clazz) : clazz :=
  mkClazz (super c) (c_annotations c) (fields c) (serialVersionUID c) (name c) (flags c) v.
Definition appendField (f : field) (c : clazz) : clazz :=
  mkClazz (super c) (c_annotations c) (fields c ++ [f]) (serialVersionUID c) (name c) (flags c) (isEnum c).
Definition setAnnotations (v : list Value) (c : clazz) : clazz :=
  mkClazz (super c) v (fields c) (serialVersionUID c) (name c) (flags c) (isEnum c).
Definition setSuper (v : option nat) (c : clazz) : clazz :=
  mkClazz v (c_annotations c) (fields c) (serialVersionUID c) (name c) (flags c) (isEnum c).

(** ** Post-processors *)

(** PostProc handlers are used to format deserialized objects for easier
    consumption.  They are pure: [(map, error)] is a [result]. *)
Definition PostProc : Type := gmap string Value -> list Value -> result (gmap string Value).

Definition shapeError {A} (why : shape) : result A := Err (New (UnexpectedShape why)).

(** postProcSize reads the object size as an int32 from the first data
    element *)
Definition postProcSize (data : list Value) (offset : Z) : result Z :=
  match data with
  | [] => shapeError NoElements
  | VBytes b :: _ =>
      if len b <? offset + 4
      then shapeError (TooShort (offset + 4) (len b))
      else Ok (signed 32 (beUint (slice offset (offset + 4) b)))
  | _ :: _ => shapeError NotByteSlice
  end.

(** listPostProc populates the object value with a []interface{} *)
Definition listPostProc : PostProc := fun fields data =>
  match postProcSize data 0 with
  | Err e => Err e
  | Ok size =>
      if negb (len data =? size + 1)
      then shapeError (WrongCount size (len data - 1))
      else if 1 <? size
           then Ok (<["value" := VSlice (slice 1 size data)]> fields)
           else Ok (<["value" := VSlice []]> fields)
  end.

(** The body of [for i := 0; i < size; i++] in mapPostProc, run for the [n]
    indices from [i] on. *)
Fixpoint mapPairs (data : list Value) (n i : nat) (m : gmap string Value)
  : result (gmap string Value) :=
  match n with
  | O => Ok m
  | S n' =>
      match data !! (2 * i + 1)%nat, data !! (2 * i + 2)%nat with
      | Some key, Some value =>
          mapPairs data n' (S i)
            (match key with
             | VString s => <[s := value]> m
             | _ => m
             end)
      | _, _ => Err (New Panic)
      end
  end.

(** mapPostProc populates the object value with a map of key/value pairs *)
Definition mapPostProc : PostProc := fun fields data =>
  match postProcSize data 4 with
  | Err e => Err e
  | Ok size =>
      if len data <? size * 2 + 1
      then shapeError (WrongCount size (len data - 1))
      else match mapPairs data (Z.to_nat size) 0 ∅ with
           | Err e => Err e
           | Ok m => Ok (<["value" := VMap m]> fields)
           end
  end.

Fixpoint enumPairs (data : list Value) (n i : nat) (m : gmap string Value)
  : result (gmap string Value) :=
  match n with
  | O => Ok m
  | S n' =>
      match data !! (2 * i + 1)%nat, data !! (2 * i + 2)%nat with
      | Some key, Some value =>
          enumPairs data n' (S i)
            (match key with
             | VMap mk => match mk !! "value" with
                          | Some (VString s) => <[s := value]> m
                          | _ => m
                          end
             | _ => m
             end)
      | _, _ => Err (New Panic)
      end
  end.

(** enumMapPostProc populates the object value with a map of key/value pairs
    where keys are enum constants *)
Definition enumMapPostProc : PostProc := fun fields data =>
  match postProcSize data 0 with
  | Err e => Err e
  | Ok size =>
      if len data <? size * 2 + 1
      then shapeError (WrongCount size (len data - 1))
      else match enumPairs data (Z.to_nat size) 0 ∅ with
           | Err e => Err e
           | Ok m => Ok (<["value" := VMap m]> fields)
           end
  end.

(** The body of [for idx := range data[1:size]] in hashSetPostProc: [idx]
    runs over the [n] indices of the slice, the key is [data[idx+1]]. *)
Fixpoint setKeys (data : list Value) (n idx : nat) (m : gmap string bool)
  : result (gmap string bool) :=
  match n with
  | O => Ok m
  | S n' =>
      match data !! (idx + 1)%nat with
      | Some key =>
          setKeys data n' (S idx)
            (match key with
             | VString s => <[s := true]> m
             | _ => m
             end)
      | None => Err (New Panic)
      end
  end.

(** hashSetPostProc populates the object value with a map of key/value
    pairs *)
Definition hashSetPostProc : PostProc := fun fields data =>
  match postProcSize data 8 with
  | Err e => Err e
  | Ok size =>
      if negb (len data =? size + 1)
      then shapeError (WrongCount size (len data - 1))
      else match (if 1 <? size
                  then setKeys data (length (slice 1 size data)) 0 ∅
                  else Ok ∅) with
           | Err e => Err e
           | Ok m => Ok (<["value" := VBoolMap m]> fields)
           end
  end.

(** datePostProc populates the object value with a time.Time *)
Definition datePostProc : PostProc := fun fields data =>
  match data with
  | [] => shapeError NoElements
  | VBytes b :: _ =>
      if len b <? 8
      then shapeError (TooShort 8 (len b))
      else let timestamp := signed 64 (beUint (slice 0 8 b)) in
           Ok (<["value" := VTime (wrapS 64 (timestamp * 1000000))]> fields)
  | _ :: _ => shapeError NotByteSlice
  end.

(** KnownPostProcs maps serialized object signatures to PostProc
    implementations *)
Definition KnownPostProcs : gmap string PostProc :=
  list_to_map
    [ ("java.util.ArrayList@7881d21d99c7619d", listPostProc);
      ("java.util.ArrayDeque@207cda2e240da08b", listPostProc);
      ("java.util.Hashtable@13bb0f25214ae4b8", mapPostProc);
      ("java.util.HashMap@0507dac1c31660d1", mapPostProc);
      ("java.util.EnumMap@065d7df7be907ca1", enumMapPostProc);
      ("java.util.HashSet@ba44859596b8b734", hashSetPostProc);
      ("java.util.Date@686a81014b597419", datePostProc) ].

Definition liftR {A} (r : result A) : M A := fun s => (r, s).

(** ** Tag dispatcher and type parsers *)

(** typeNames includes all known type names *)
Definition typeNames : list TypeName :=
  [ Null; Reference; ClassDesc; Object; String; Array; Class; BlockData;
    EndBlockData; Reset; BlockDataLong; Exception; LongString;
    ProxyClassDesc; Enum ].

(** typeNameMax is used to ensure an encountered type is known *)
Definition typeNameMax : Z := len typeNames - 1.

(** An allow-list: [nil] is [None]. *)
Definition allowList : Type := option (TypeName -> bool).

(** allowedClazzNames includes all allowed names when parsing a class
    descriptor *)
Definition allowedClazzNames : TypeName -> bool := fun n =>
  match n with
  | ClassDesc | ProxyClassDesc | Null | Reference => true
  | _ => false
  end.

(** [string(r)] for a 16-bit rune [r]: its UTF-8 encoding. *)
Definition runeString (r : Z) : string :=
  let ch (z : Z) := ascii_of_N (Z.to_N z) in
  if r <? 0x80 then String.String (ch r) EmptyString
  else if r <? 0x800
       then String.String (ch (Z.lor 0xC0 (Z.shiftr r 6)))
              (String.String (ch (Z.lor 0x80 (Z.land r 0x3F))) EmptyString)
       else if (0xD800 <=? r) && (r <=? 0xDFFF)
            then String.String (ch 0xEF) (String.String (ch 0xBF) (String.String (ch 0xBD) EmptyString))
            else String.String (ch (Z.lor 0xE0 (Z.shiftr r 12)))
                   (String.String (ch (Z.lor 0x80 (Z.land (Z.shiftr r 6) 0x3F)))
                      (String.String (ch (Z.lor 0x80 (Z.land r 0x3F))) EmptyString)).

(** [s[i]] as a number. *)
Definition byteAt (i : nat) (s : string) : option Z :=
  match String.get i s with
  | Some a => Some (Z.of_N (N_of_ascii a))
  | None => None
  end.

Definition strlen (s : string) : Z := Z.of_nat (String.length s).

Definition logTag (n : TypeName) : M unit :=
  fun s => (Ok tt, mkState (buf s) (pos s) (handles s) (classes s) (tags s ++ [n])).

(** [sop.handles[idx] = obj] *)
Definition setHandle (idx : nat) (obj : Value) : M unit :=
  fun s => if decide (idx < length (handles s))%nat
           then (Ok tt, mkState (buf s) (pos s) (<[idx := obj]> (handles s)) (classes s) (tags s))
           else (Err (New Panic), s).

(** [for i := 0; i < n; i++ { acc = body(acc) }]; every iteration uses a unit
    of fuel. *)
Fixpoint forLoop {A} (fuel : nat) (i n : Z) (body : A -> M A) (acc : A) : M A :=
  if i <? n
  then match fuel with
       | O => errorf OutOfFuel
       | S fuel' => acc' <- body acc ;; forLoop fuel' (i + 1) n body acc'
       end
  else ret acc.

Section Parsers.

(** The recursive call to [sop.content], and the fuel left for the loops
    of one parser. *)
Variable content : allowList -> M Value.
Variable fuel : nat.

(** primitiveHandlers maps serialized primitive identifiers to a
    corresponding primitiveHandler.  The key is the code of the one
    character of the identifier. *)
Definition primitiveHandlers (typeName : Z) : option (M Value) :=
  if typeName =? 66 (* B *)
  then Some (b <- wrap "error reading byte primitive" readInt8 ;; ret (VInt8 b))
  else if typeName =? 67 (* C *)
  then Some (charCode <- wrap "error reading char primitive" readUInt16 ;;
             ret (VString (runeString charCode)))
  else if typeName =? 68 (* D *)
  then Some (d <- wrap "error reading double primitive" readFloat64 ;; ret (VFloat64 d))
  else if typeName =? 70 (* F *)
  then Some (f <- wrap "error reading float primitive" readFloat32 ;; ret (VFloat32 f))
  else if typeName =? 73 (* I *)
  then Some (i <- wrap "error reading int primitive" readInt32 ;; ret (VInt32 i))
  else if typeName =? 74 (* J *)
  then Some (l <- wrap "error reading long primitive" readInt64 ;; ret (VInt64 l))
  else if typeName =? 83 (* S *)
  then Some (sh <- wrap "error reading short primitive" readInt16 ;; ret (VInt16 sh))
  else if typeName =? 90 (* Z *)
  then Some (x <- wrap "error reading boolean primitive" readInt8 ;; ret (VBool (negb (x =? 0))))
  else if typeName =? 76 (* L *)
  then Some (wrap "error reading object primitive" (content None))
  else if typeName =? 91 (* [ *)
  then Some (wrap "error reading array primitive" (content None))
  else None.

(** fieldDesc reads a single field descriptor *)
Definition fieldDesc : M field :=
  typeDec <- wrap "error reading field type" readUInt8 ;;
  name <- wrap "error reading field name" utf ;;
  (* strings.Contains("[L", typeName) for the one-rune string typeName *)
  if (typeDec =? 91) || (typeDec =? 76)
  then className <- wrap "error reading field class name" (content None) ;;
       match className with
       | VString s => ret (mkField s typeDec name)
       | _ => errorf UnexpectedFieldClassName
       end
  else ret (mkField "" typeDec name).

Fixpoint annotationsLoop (n : nat) (allowedNames : allowList) (anns : list Value)
  : M (list Value) :=
  match n with
  | O => errorf OutOfFuel
  | S n' =>
      ann <- wrap "error reading class annotation" (content allowedNames) ;;
      match ann with
      | VEndBlock => ret anns
      | _ => annotationsLoop n' allowedNames (anns ++ [ann])
      end
  end.

(** annotations reads all class annotations *)
Definition annotations (allowedNames : allowList) : M (list Value) :=
  annotationsLoop fuel allowedNames [].

(** classDesc reads a class descriptor *)
Definition classDesc : M (option nat) :=
  x <- wrap "error reading class description" (content (Some allowedClazzNames)) ;;
  match x with
  | VNil => ret None
  | VClazz cls => ret cls
  | _ => errorf UnexpectedClassDescType
  end.

(** parseClassDesc parses a class descriptor *)
Definition parseClassDesc : M Value :=
  cls <- newClazz ;;
  nm <- wrap "error reading class name" utf ;;
  setClazz cls (setName nm) ;;;
  if strlen nm <? 2
  then (* err = errors.Wrapf(err, "invalid class name: '%s'", cls.name)
          where err is nil, then return x, err with x still nil *)
       match Wrap None ("invalid class name: '" +:+ nm +:+ "'") with
       | Some e => fail e
       | None => ret VNil
       end
  else
    uid <- wrap "error reading class serialVersionUID" (readString 8 true) ;;
    setClazz cls (setSerialVersionUID uid) ;;;
    newHandle (VClazz (Some cls)) ;;;
    fl <- wrap "error reading class flags" readUInt8 ;;
    setClazz cls (setFlags fl) ;;;
    setClazz cls (setIsEnum (negb (Z.land fl 0x10 =? 0))) ;;;
    fieldCount <- wrap "error reading class field count" readUInt16 ;;
    forLoop fuel 0 fieldCount
      (fun _ => f <- wrap "error reading class field" fieldDesc ;;
                setClazz cls (appendField f)) tt ;;;
    anns <- wrap "error reading class annotations" (annotations None) ;;
    setClazz cls (setAnnotations anns) ;;;
    sup <- wrap "error reading class super" classDesc ;;
    setClazz cls (setSuper sup) ;;;
    ret (VClazz (Some cls)).

Definition parseClass : M Value :=
  cd <- wrap "error parsing class" classDesc ;;
  newHandle (VClazz cd).

Definition parseArray : M Value :=
  cls <- wrap "error parsing array class" classDesc ;;
  let res : gmap string Value := {[ "class" := VClazz cls ]} in
  hs <- getHandles ;;
  let idx := length hs in
  newHandle (VMap res) ;;;
  size <- wrap "error reading array size" readInt32 ;;
  (* res["length"] = size: res is the map the handle table holds at idx,
     and nothing else refers to it yet *)
  setHandle idx (VMap (<["length" := VInt32 size]> res)) ;;;
  match cls with
  | None => ret VNil
  | Some p =>
      c <- deref p ;;
      match byteAt 1 (name c) with
      | None => errorf Panic
      | Some t =>
          match primitiveHandlers t with
          | None => errorf (UnknownFieldType t)
          | Some primHandler =>
              array <- forLoop fuel 0 size
                         (fun array =>
                            nxt <- wrap "error reading primitive array member" primHandler ;;
                            ret (array ++ [nxt])) [] ;;
              ret (VSlice array)
          end
      end
  end.

Definition parseEnum : M Value :=
  cls <- wrap "error parsing enum class" classDesc ;;
  deferredHandle <- newDeferredHandle ;;
  enumConstant <- wrap "error parsing enum constant" (content None) ;;
  let res : gmap string Value :=
    <["value" := enumConstant]> {[ "class" := VClazz cls ]} in
  fillHandle deferredHandle (VMap res).

Definition parseBlockData : M Value :=
  size <- wrap "error parsing block data size" readUInt8 ;;
  startPos <- step size ;;
  bd <- bufSlice startPos (startPos + size) ;;
  ret (VBytes bd).

Definition parseBlockDataLong : M Value :=
  size <- wrap "error parsing block data long size" readUInt32 ;;
  startPos <- step size ;;
  bdl <- bufSlice startPos (startPos + size) ;;
  ret (VBytes bdl).

Definition parseString : M Value :=
  str <- wrap "error parsing string" utf ;;
  newHandle (VString str).

Definition parseLongString : M Value :=
  longStr <- wrap "error parsing long string" utfLong ;;
  newHandle (VString longStr).

Definition parseNull : M Value := ret VNil.

Definition parseEndBlockData : M Value := ret VEndBlock.

Fixpoint valuesLoop (fs : list field) (vals : gmap string Value)
  : M (gmap string Value) :=
  match fs with
  | [] => ret vals
  | f :: rest =>
      match primitiveHandlers (f_typeName f) with
      | None => errorf (UnknownFieldType (f_typeName f))
      | Some handler =>
          v <- wrap "error reading primitive field value" handler ;;
          valuesLoop rest (<[f_name f := v]> vals)
      end
  end.

(** values reads primitive field values *)
Definition values (cls : nat) : M (gmap string Value) :=
  c <- deref cls ;;
  valuesLoop (fields c) ∅.

(** annotationsAsMap reads values (when isBlock is false) and merges
    annotations then calls any relevant post processor *)
Definition annotationsAsMap (cls : nat) (isBlock : bool) : M (gmap string Value) :=
  data <- (if isBlock then ret ∅
           else wrap "error reading class data field values" (values cls)) ;;
  anns <- wrap "error reading annotations" (annotations None) ;;
  let data := <["@" := VSlice anns]> data in
  if negb isBlock
  then c <- deref cls ;;
       match KnownPostProcs !! (name c +:+ "@" +:+ serialVersionUID c) with
       | Some postproc => liftR (postproc data anns)
       | None => ret data
       end
  else ret data.

(** classData reads a serialized class into a generic data structure *)
Definition classData (cls : option nat) : M (gmap string Value) :=
  match cls with
  | None => errorf NilClassDefinition
  | Some p =>
      c <- deref p ;;
      let nibble := Z.land (flags c) 0x0f in
      if nibble =? 0x02 then values p
      else if nibble =? 0x03 then annotationsAsMap p false
      else if nibble =? 0x04 then errorf Version1ExternalUnsupported
      else if nibble =? 0x0c then annotationsAsMap p true
      else errorf (UnknownClassFlags (flags c))
  end.

(** recursiveClassData recursively reads inheritance tree until it reaches
    java.lang.object.  [obj] and [seen] are the two maps the Go function
    updates in place; they are returned. *)
Fixpoint recursiveClassData (n : nat) (cls : option nat)
    (obj : gmap string Value) (seen : gset nat)
  : M (gmap string Value * gset nat) :=
  match cls with
  | None => ret (obj, seen)
  | Some p =>
      let seen := {[ p ]} ∪ seen in
      c <- deref p ;;
      match n with
      | O => errorf OutOfFuel
      | S n' =>
          os <- match super c with
                | Some sp =>
                    if decide (sp ∈ seen) then ret (obj, seen)
                    else recursiveClassData n' (Some sp) obj ({[ sp ]} ∪ seen)
                | None => ret (obj, seen)
                end ;;
          let obj := fst os in
          let seen := snd os in
          match obj !! "extends" with
          | Some (VMap extends) =>
              fields <- wrap "error reading recursive class data" (classData cls) ;;
              c <- deref p ;;
              let obj := <["extends" := VMap (<[name c := VMap fields]> extends)]> obj in
              (* for name, val := range fields { obj[name] = val } *)
              ret (fields ∪ obj, seen)
          | _ => errorf UnexpectedExtends
          end
      end
  end.

Definition parseObject : M Value :=
  cls <- wrap "error reading object class" classDesc ;;
  let objMap : gmap string Value :=
    <["extends" := VMap ∅]> {[ "class" := VClazz cls ]} in
  deferredHandle <- newDeferredHandle ;;
  os <- wrap "error reading recursive class data"
          (recursiveClassData fuel cls objMap ∅) ;;
  fillHandle deferredHandle (VMap (fst os)).

(** knownParsers maps serialized names to corresponding parser
    implementations *)
Definition knownParsers (n : TypeName) : option (M Value) :=
  match n with
  | Enum => Some parseEnum
  | BlockDataLong => Some parseBlockDataLong
  | BlockData => Some parseBlockData
  | EndBlockData => Some parseEndBlockData
  | ClassDesc => Some parseClassDesc
  | Class => Some parseClass
  | Array => Some parseArray
  | LongString => Some parseLongString
  | String => Some parseString
  | Null => Some parseNull
  | Object => Some parseObject
  | Reference => Some parseReference
  | Reset | Exception | ProxyClassDesc => None
  end.

(** content reads the next object in the stream and parses it *)
Definition contentBody (allowedNames : allowList) : M Value :=
  tc <- readUInt8 ;;
  let tc := (tc - 0x70) mod 256 in
  if typeNameMax <? tc
  then errorf (UnknownTag ((tc + 0x70) mod 256))
  else match typeNames !! Z.to_nat tc with
       | None => errorf Panic
       | Some name =>
           if match allowedNames with
              | Some allowed => negb (allowed name)
              | None => false
              end
           then errorf (TagNotAllowedHere name)
           else match knownParsers name with
                | None => errorf (Unsupported name)
                | Some parse => logTag name ;;; parse
                end
       end.

End Parsers.

Fixpoint content (fuel : nat) (allowedNames : allowList) : M Value :=
  match fuel with
  | O => errorf OutOfFuel
  | S fuel' => contentBody (content fuel') fuel' allowedNames
  end.

(** The loop [for sop.pos < len(sop.buf)] of ParseSerializedObject: at most
    [n] iterations, each calling [content] with [fuel]. *)
Fixpoint parseLoop (n fuel : nat) (acc : list Value) : M (list Value) :=
  fun s =>
    if pos s <? len (buf s)
    then match n with
         | O => (Err (New OutOfFuel), s)
         | S n' => (nxt <- content fuel None ;; parseLoop n' fuel (acc ++ [nxt])) s
         end
    else (Ok acc, s).

Definition newParser (b : list byte) : state := mkState b 0 [] [] [].

(** ParseSerializedObject parses a serialized java object; the run of the
    parser with the state it ends in. *)
Definition runParser (fuel : nat) (b : list byte) : result (list Value) * state :=
  (magic ;;; version ;;; parseLoop fuel fuel []) (newParser b).

Definition ParseSerializedObjectFuel (fuel : nat) (b : list byte) : result (list Value) :=
  fst (runParser fuel b).

(** The parser with the fuel it needs at most: two units for every byte of
    input, and one more (ParseSerializedObject_total). *)
Definition ParseSerializedObject (b : list byte) : result (list Value) :=
  ParseSerializedObjectFuel (2 * length b + 1) b.

(** ** The minimal representation *)

(** Whether the dynamic type of [v] is pointer to [clazz]. *)
Definition isClazz (v : Value) : bool :=
  match v with
  | VClazz _ => true
  | _ => false
  end.

(** jsonFriendlyObject recursively filters / formats object fields to be as
    simple / JSON-like as possible.  The three functions of the source call
    one another; the two loops are written out here and named below.  The
    source skips the key "extends" before it formats the value; here the
    entry is deleted from the formatted map, which is the same map
    (jsonFriendlyMap_skips_extends).  The values are finite trees. *)
Fixpoint jsonFriendlyObject (obj : Value) : Value :=
  match obj with
  | VMap m =>
      let jsonMap : gmap string Value :=
        delete "extends"
          (omap (fun v => if isClazz v then None else Some (jsonFriendlyObject v)) m) in
      match jsonMap !! "value" with
      | Some mVal =>
          if bool_decide (is_Some (jsonMap !! "@")) || bool_decide (size jsonMap = 1%nat)
          then mVal
          else VMap jsonMap
      | None => VMap jsonMap
      end
  | VSlice arr => VSlice (map jsonFriendlyObject arr)
  | _ => obj
  end.

(** jsonFriendlyArray recursively filters / formats a deserialized array *)
Definition jsonFriendlyArray (arrayObj : list Value) : list Value :=
  map jsonFriendlyObject arrayObj.

(** jsonFriendlyMap recursively filters / formats a deserialized map: the key
    "extends" and the values that are class definitions are left out. *)
Definition jsonFriendlyMap (mapObj : gmap string Value) : gmap string Value :=
  delete "extends"
    (omap (fun v => if isClazz v then None else Some (jsonFriendlyObject v)) mapObj).


(** ** Test streams *)

Definition byteOf (z : Z) : byte :=
  match Byte.of_N (Z.to_N z) with
  | Some b => b
  | None => x00
  end.

Definition hexVal (a : ascii) : Z :=
  let n := Z.of_N (N_of_ascii a) in
  if (48 <=? n) && (n <=? 57) then n - 48
  else if (97 <=? n) && (n <=? 102) then n - 87
  else 0.

(** [hex.DecodeString] *)
Fixpoint unhex (s : string) : list byte :=
  match s with
  | String.String h (String.String l r) => byteOf (hexVal h * 16 + hexVal l) :: unhex r
  | _ => []
  end.

(** ** The streams of the test suite *)

Definition arrayListStream : list byte :=
  unhex ("aced0005757200135b4c6a6176612e6c616e672e4f626a6563743b90ce589f10"
             +:+ "73296c020000787000000002740005426567696e71007e0001737200136a6176"
             +:+ "612e7574696c2e41727261794c6973747881d21d99c7619d0300014900047369"
             +:+ "7a65787000000002770400000002740003666f6f737200116a6176612e6c616e"
             +:+ "672e496e746567657212e2a0a4f781873802000149000576616c756578720010"
             +:+ "6a6176612e6c616e672e4e756d62657286ac951d0b94e08b0200007870000000"
             +:+ "7b787571007e00000000000271007e0009740003456e64").

Definition hashSetStream : list byte :=
  unhex ("aced0005757200135b4c6a6176612e6c616e672e4f626a6563743b90ce589f10"
             +:+ "73296c020000787000000002740005426567696e71007e0001737200116a6176"
             +:+ "612e7574696c2e48617368536574ba44859596b8b7340300007870770c000000"
             +:+ "103f40000000000002740003666f6f737200116a6176612e6c616e672e496e74"
             +:+ "6567657212e2a0a4f781873802000149000576616c7565787200106a6176612e"
             +:+ "6c616e672e4e756d62657286ac951d0b94e08b02000078700000007b78757100"
             +:+ "7e00000000000271007e0009740003456e64").

Definition primStream : list byte :=
  unhex ("aced0005757200135b4c6a6176612e6c616e672e4f626a6563743b90ce589f10"
             +:+ "73296c020000787000000002740005426567696e71007e00017372000f507269"
             +:+ "6d69746976654669656c64730000123456789abc0200085a0002626f42000262"
             +:+ "79430001634400016446000166490001694a00016c53000173787001eb123440"
             +:+ "28ae147ae147ae42990000ffffff85fffffffffffffcebfe387571007e000000"
             +:+ "00000271007e0005740003456e64").

(** ** Vocabulary of the properties *)

(** The bytes a read of [n] bytes decodes. *)
Definition peek (n : Z) (s : state) : list byte := slice (pos s) (pos s + n) (buf s).

Definition refState : state :=
  mkState (unhex "007e0001") 0 [VString "a"; VString "b"] [] [].

(** The state after [newHandle obj]. *)
Definition register (obj : Value) (s : state) : state :=
  mkState (buf s) (pos s) (handles s ++ [obj]) (classes s) (tags s).

Definition longStringState : state :=
  mkState (unhex "00000000000000026869") 0 [] [] [].

(** The tags the handle table is expected to grow by one for. *)
Definition producesHandle (n : TypeName) : bool :=
  match n with
  | String | LongString | Class | ClassDesc | Array | Object | Enum => true
  | _ => false
  end.

Definition countHandleTags (l : list TypeName) : nat :=
  length (filter (fun n => producesHandle n = true) l).

(** The state after [content] has noted the tag it dispatches on. *)
Definition logged (n : TypeName) (s : state) : state :=
  mkState (buf s) (pos s) (handles s) (classes s) (tags s ++ [n]).

Definition permits (allowedNames : allowList) (n : TypeName) : bool :=
  match allowedNames with
  | Some allowed => allowed n
  | None => true
  end.

Definition nullArrayState : state :=
  mkState (unhex "7000000003") 0 [] [] [].

Definition hashSetClazz : clazz :=
  mkClazz None [] [] "ba44859596b8b734" "java.util.HashSet" 0x0c false.

(** An externalizable class with the registered HashSet signature and three
    annotations ending in EndBlockData. *)
Definition externState : state :=
  mkState (unhex "770c000000103f400000000000017400016178") 0 [] [hashSetClazz] [].

(** The parser state with [q] appended to the input. *)
Definition extend (q : list byte) (s : state) : state :=
  mkState (buf s ++ q) (pos s) (handles s) (classes s) (tags s).

(** The cursor is within the input. *)
Definition inBounds (s : state) : Prop := 0 <= pos s <= len (buf s).

(** [m'] repeats every successful run of [m] when the input is made longer.
    A successful run leaves the cursor within the input. *)
Definition Stable {A} (m m' : M A) : Prop :=
  forall s a s', inBounds s -> m s = (Ok a, s') ->
    inBounds s' /\ forall q, m' (extend q s) = (Ok a, extend q s').

Definition StableOpt {A} (o o' : option (M A)) : Prop :=
  match o, o' with
  | Some m, Some m' => Stable m m'
  | None, None => True
  | _, _ => False
  end.

(** Reading [cnt] bytes and handing them to [f]. *)
Definition readBytes {A} (cnt : Z) (f : list byte -> A) : M A :=
  p <- step cnt ;; b <- bufSlice p (p + cnt) ;; ret (f b).

(** The class descriptors in the store whose name is shorter than two
    bytes: the ones parseClassDesc gave up on. *)
Definition shortClasses (cs : list clazz) : nat :=
  length (filter (fun c => strlen (name c) < 2) cs).

(** Handle-producing tags dispatched on, less the handles registered and the
    class descriptors given up on. *)
Definition surplus (s : state) : Z :=
  Z.of_nat (countHandleTags (tags s)) - Z.of_nat (length (handles s))
  - Z.of_nat (shortClasses (classes s)).

(** Every successful run of [m] changes the surplus by [d]. *)
Definition Bal {A} (d : Z) (m : M A) : Prop :=
  forall s a s', m s = (Ok a, s') -> surplus s' = surplus s + d.

Definition BalOpt {A} (d : Z) (o : option (M A)) : Prop :=
  match o with
  | Some m => Bal d m
  | None => True
  end.

(** A successful run of [m] leaves the handles, the store and the log as
    they are. *)
Definition Same {A} (m : M A) : Prop :=
  forall s a s', m s = (Ok a, s') ->
    handles s' = handles s /\ classes s' = classes s /\ tags s' = tags s.

(** What is left to do: two for every byte of input not read yet, and one
    for every class descriptor in the store. *)
Definition measure (s : state) : Z :=
  2 * (len (buf s) - pos s) + len (classes s).

(** Started within the input and with at most [N] left to do, [m] does not
    run out of fuel, and a successful run ends within the input with at most
    [N'] left to do. *)
Definition Safe {A} (N N' : Z) (m : M A) : Prop :=
  forall s, inBounds s -> measure s <= N ->
    match m s with
    | (Ok _, s') => inBounds s' /\ measure s' <= N'
    | (Err e, _) => Cause e <> OutOfFuel
    end.

Definition SafeOpt {A} (N N' : Z) (o : option (M A)) : Prop :=
  match o with
  | Some m => Safe N N' m
  | None => True
  end.

(** The class descriptors of the store that are not in [seen]. *)
Definition unseen (seen : gset nat) (s : state) : nat :=
  length (filter (fun x => x ∉ seen) (seq 0 (length (classes s)))).

(** The size of a value, for induction on values. *)
Fixpoint Value_size (v : Value) : nat :=
  match v with
  | VMap m => S (map_fold (fun _ v' n => Value_size v' + n)%nat 0%nat m)
  | VSlice l => S (fold_right (fun v' n => Value_size v' + n)%nat 0%nat l)
  | _ => 1%nat
  end.


(** What a post-processor may do: set [value], or reject the shape of the
    annotations. *)
Definition setsValue (fields : gmap string Value) (r : result (gmap string Value)) : Prop :=
  (exists v, r = Ok (<["value" := v]> fields)) \/
  (exists why, r = Err (New (UnexpectedShape why))).

(** The registered post-processors. *)
Definition postProcs : list PostProc :=
  [listPostProc; mapPostProc; enumMapPostProc; hashSetPostProc; datePostProc].

(** The key an EnumMap pair contributes: the [value] of an enum constant,
    when it is a string. *)
Definition enumKey (key : Value) : option string :=
  match key with
  | VMap mk => match mk !! "value" with
               | Some (VString s) => Some s
               | _ => None
               end
  | _ => None
  end.

(** A digit of lower-case hexadecimal. *)
Definition isLowerHex (a : ascii) : bool :=
  let n := Z.of_N (N_of_ascii a) in
  ((48 <=? n) && (n <=? 57)) || ((97 <=? n) && (n <=? 102)).

(** The number of bytes the value of a field of primitive type takes:
    B, C, D, F, I, J, S and Z. *)
Definition primWidth (typeName : Z) : option Z :=
  if typeName =? 66 then Some 1
  else if typeName =? 67 then Some 2
  else if typeName =? 68 then Some 8
  else if typeName =? 70 then Some 4
  else if typeName =? 73 then Some 4
  else if typeName =? 74 then Some 8
  else if typeName =? 83 then Some 2
  else if typeName =? 90 then Some 1
  else None.

Definition fieldsWidth (fs : list field) : Z :=
  fold_right (fun f acc => default 0 (primWidth (f_typeName f)) + acc) 0 fs.

(** A class with an int field and a short field. *)
Definition pointClazz : clazz :=
  mkClazz None [] [mkField "" 73 "x"; mkField "" 83 "y"] "0000000000000001" "Point" 0x02 false.

(** The class of int arrays, and an input that refers to it. *)
Definition intArrayClazz : clazz :=
  mkClazz None [] [] "4dba602676eab2a5" "[I" 0x02 false.

Definition intArrayState : state :=
  mkState (unhex "71007e0000000000020000000a00000014") 0 [VClazz (Some 0%nat)]
    [intArrayClazz] [].

(** A class pointer the parser hands out: it points into the store, at a
    descriptor whose name has at least two bytes. *)
Definition good (s : state) (p : nat) : Prop :=
  exists c, classes s !! p = Some c /\ 2 <= strlen (name c).

Definition goodOpt (s : state) (o : option nat) : Prop :=
  match o with
  | Some p => good s p
  | None => True
  end.

(** A value the parser may find a class pointer in by a type assertion. *)
Definition okValue (s : state) (v : Value) : Prop :=
  match v with
  | VClazz (Some p) => good s p
  | _ => True
  end.

(** The class pointers in the handle table and the super pointers of the
    store are good. *)
Definition wf (s : state) : Prop :=
  (forall i v, handles s !! i = Some v -> okValue s v) /\
  (forall q c, classes s !! q = Some c -> goodOpt s (super c)).

(** The handle table does not shrink and good pointers stay good. *)
Definition grows (s s' : state) : Prop :=
  (length (handles s) <= length (handles s'))%nat /\
  forall p, good s p -> good s' p.

(** A condition on the state that [grows] keeps. *)
Definition Mono (P : state -> Prop) : Prop :=
  forall s s', grows s s' -> P s -> P s'.

(** Started in a well-formed state that satisfies [P], [m] does not panic;
    a successful run ends in a well-formed state that satisfies [Q]. *)
Definition NoPanic {A} (P : state -> Prop) (Q : A -> state -> Prop) (m : M A) : Prop :=
  forall s, wf s -> P s ->
    match m s with
    | (Ok a, s') => wf s' /\ grows s s' /\ Q a s'
    | (Err e, _) => Cause e <> Panic
    end.

Definition NoPanicOpt {A} (P : state -> Prop) (Q : A -> state -> Prop)
    (o : option (M A)) : Prop :=
  match o with
  | Some m => NoPanic P Q m
  | None => True
  end.

(** [m] does not panic and leaves the handle table and the store alone. *)
Definition Quiet {A} (m : M A) : Prop :=
  forall s,
    match m s with
    | (Ok _, s') => handles s' = handles s /\ classes s' = classes s
    | (Err e, _) => Cause e <> Panic
    end.

(** Every run of [m] that does not run out of fuel is a run of [m']. *)
Definition Settled {A} (m m' : M A) : Prop :=
  forall s r s', m s = (r, s') ->
    (forall e, r = Err e -> Cause e <> OutOfFuel) -> m' s = (r, s').

Definition SettledOpt {A} (o o' : option (M A)) : Prop :=
  match o, o' with
  | Some m, Some m' => Settled m m'
  | None, None => True
  | _, _ => False
  end.

(** * Properties *)

(** Closed comparisons of integers, by evaluation. *)
Ltac by_compute :=
  repeat split; vm_compute;
  first [ reflexivity | let H := fresh in intro H; discriminate H ].

(** ** The byte reader *)

Lemma step_ok (cnt : Z) (s : state) :
  pos s + cnt <= len (buf s) -> step cnt s = (Ok (pos s), advance cnt s).
Proof.
  intros H. unfold step. simpl.
  destruct (Z.ltb_spec (len (buf s)) (pos s + cnt)); [lia | reflexivity].
Qed.

Lemma step_end (cnt : Z) (s : state) :
  len (buf s) < pos s + cnt -> step cnt s = (Err (New UnexpectedEnd), advance cnt s).
Proof.
  intros H. unfold step. simpl.
  destruct (Z.ltb_spec (len (buf s)) (pos s + cnt)); [reflexivity | lia].
Qed.

Lemma readBE_ok (n : Z) (s : state) :
  pos s + n <= len (buf s) ->
  readBE n s = (Ok (beUint (peek n s)), advance n s).
Proof.
  intros H. unfold readBE, bind. rewrite step_ok by exact H. reflexivity.
Qed.

Lemma readBE_end (n : Z) (s : state) :
  len (buf s) < pos s + n ->
  readBE n s = (Err (New UnexpectedEnd), advance n s).
Proof.
  intros H. unfold readBE, bind. rewrite step_end by exact H. reflexivity.
Qed.

Lemma readString_ok (n : Z) (s : state) :
  pos s + n <= len (buf s) ->
  readString n false s = (Ok (string_of_list_byte (peek n s)), advance n s).
Proof.
  intros H. unfold readString, bind, wrap. rewrite step_ok by exact H. reflexivity.
Qed.

Lemma advance_advance (a b : Z) (s : state) :
  advance b (advance a s) = advance (a + b) s.
Proof. unfold advance. simpl. f_equal. lia. Qed.

Lemma byteZ_range (b : byte) : 0 <= byteZ b < 256.
Proof. destruct b; vm_compute; split; congruence. Qed.

Lemma beUint_app (bs : list byte) (b : byte) :
  beUint (bs ++ [b]) = beUint bs * 256 + byteZ b.
Proof. unfold beUint. rewrite fold_left_app. reflexivity. Qed.

Lemma beUint_range (bs : list byte) : 0 <= beUint bs < 256 ^ len bs.
Proof.
  induction bs as [| b bs IH] using rev_ind.
  - vm_compute. split; congruence.
  - rewrite beUint_app. unfold len in *. rewrite length_app. simpl.
    replace (Z.of_nat (length bs + 1)) with (Z.of_nat (length bs) + 1) by lia.
    rewrite Z.pow_add_r by lia. pose proof (byteZ_range b). nia.
Qed.

Lemma peek_length (n : Z) (s : state) : len (peek n s) <= Z.max n 0.
Proof.
  unfold peek, slice, len. rewrite length_take. lia.
Qed.

Lemma signed32_range (bs : list byte) :
  len bs <= Z.max 4 0 -> - 2 ^ 31 <= signed 32 (beUint bs) < 2 ^ 31.
Proof.
  intros H. pose proof (beUint_range bs) as Hb.
  assert (256 ^ len bs <= 256 ^ 4) by (apply Z.pow_le_mono_r; unfold len in *; lia).
  change (256 ^ 4) with 4294967296 in *. change (2 ^ 31) with 2147483648.
  unfold signed. change (2 ^ (32 - 1)) with 2147483648. change (2 ^ 32) with 4294967296.
  destruct (Z.ltb_spec (beUint bs) 2147483648); lia.
Qed.

(** ** Reference tags *)

(** When the subtraction does not leave the [int32] range it is the
    subtraction of the integers. *)
Lemma int32_sub_exact (w : Z) :
  - 2 ^ 31 + 0x7e0000 <= w < 2 ^ 31 -> int32_sub w 0x7e0000 = w - 0x7e0000.
Proof.
  intros H. unfold int32_sub, wrapS, signed.
  change (2 ^ 32) with 4294967296. change (2 ^ (32 - 1)) with 2147483648.
  change (2 ^ 31) with 2147483648 in H.
  destruct (Z_lt_le_dec w 0x7e0000) as [Hn | Hp].
  - replace ((w - 0x7e0000) mod 4294967296) with (w - 0x7e0000 + 4294967296).
    + destruct (Z.ltb_spec (w - 0x7e0000 + 4294967296) 2147483648); lia.
    + apply Z.mod_unique with (q := -1); lia.
  - rewrite Z.mod_small by lia.
    destruct (Z.ltb_spec (w - 0x7e0000) 2147483648); lia.
Qed.

(** What parseReference returns when the four id bytes are there. *)
Lemma parseReference_run (s : state) :
  pos s + 4 <= len (buf s) ->
  let i := int32_sub (signed 32 (beUint (peek 4 s))) 0x7e0000 in
  parseReference s =
    (if (-1 <? i) && (i <? len (handles s))
     then match handles s !! Z.to_nat i with
          | Some ref => (Ok ref, advance 4 s)
          | None => (Err (New Panic), advance 4 s)
          end
     else (Ok VNil, advance 4 s)).
Proof.
  intros Hlen i.
  unfold parseReference, bind, wrap, readInt32, bind.
  rewrite readBE_ok by exact Hlen. unfold getHandles. simpl. fold i.
  destruct ((-1 <? i) && (i <? len (handles s))); [| reflexivity].
  destruct (handles s !! Z.to_nat i); reflexivity.
Qed.

(** C1.  A Reference tag reads the 32-bit wire id [w] and computes the index
    [i = w - 0x7E0000] (in [int32] arithmetic, as the source does).  If
    [0 <= i < len(handles)] the result is the value registered at index [i];
    otherwise it is null.  In both cases no error is raised, the four id
    bytes are consumed and nothing else of the parser changes (no handle is
    registered). *)
Theorem parseReference_resolves (s : state) :
  pos s + 4 <= len (buf s) ->
  let w := signed 32 (beUint (peek 4 s)) in
  let i := int32_sub w 0x7e0000 in
  (0 <= i < len (handles s) ->
     exists v, handles s !! Z.to_nat i = Some v /\
               parseReference s = (Ok v, advance 4 s)) /\
  (~ 0 <= i < len (handles s) -> parseReference s = (Ok VNil, advance 4 s)).
Proof.
  intros Hlen w i. rewrite (parseReference_run s Hlen). fold w i. split.
  - intros [Hlo Hhi].
    destruct (Z.ltb_spec (-1) i); [| lia].
    destruct (Z.ltb_spec i (len (handles s))); [| lia]. simpl.
    destruct (handles s !! Z.to_nat i) as [v |] eqn:Hv.
    + exists v. split; reflexivity.
    + apply lookup_ge_None in Hv. unfold len in Hhi. lia.
  - intros Hout.
    destruct (Z.ltb_spec (-1) i); simpl; [| reflexivity].
    destruct (Z.ltb_spec i (len (handles s))); simpl; [lia | reflexivity].
Qed.

Lemma parseReference_resolves_witness :
  pos refState + 4 <= len (buf refState) /\
  exists v, handles refState !! 1%nat = Some v /\
            parseReference refState = (Ok v, advance 4 refState).
Proof.
  assert (H : pos refState + 4 <= len (buf refState)) by by_compute.
  split; [exact H |].
  apply (parseReference_resolves refState H).
  by_compute.
Defined.

(** With fewer than [2^31 - 0x7E0000] handles, which any input shorter than
    4 GiB ensures, the index can be read as the integer [w - 0x7E0000]. *)
Lemma parseReference_literal_index (s : state) :
  pos s + 4 <= len (buf s) ->
  len (handles s) <= 2 ^ 31 - 0x7e0000 ->
  let i := signed 32 (beUint (peek 4 s)) - 0x7e0000 in
  parseReference s =
    (Ok (if (0 <=? i) && (i <? len (handles s))
         then default VNil (handles s !! Z.to_nat i) else VNil),
     advance 4 s).
Proof.
  intros Hlen Hsmall i.
  pose proof (signed32_range (peek 4 s) (peek_length 4 s)) as Hw.
  change (2 ^ 31) with 2147483648 in *.
  rewrite (parseReference_run s Hlen).
  destruct (Z_lt_le_dec (signed 32 (beUint (peek 4 s))) (- 2147483648 + 0x7e0000))
    as [Hwrap | Hexact].
  - (* the int32 subtraction wraps to an index beyond the table *)
    assert (Hi : int32_sub (signed 32 (beUint (peek 4 s))) 0x7e0000
                 = signed 32 (beUint (peek 4 s)) - 0x7e0000 + 4294967296).
    { unfold int32_sub, wrapS.
      replace ((signed 32 (beUint (peek 4 s)) - 0x7e0000) mod 2 ^ 32)
        with (signed 32 (beUint (peek 4 s)) - 0x7e0000 + 4294967296).
      - unfold signed at 1. change (2 ^ (32 - 1)) with 2147483648.
        destruct (Z.ltb_spec (signed 32 (beUint (peek 4 s)) - 0x7e0000 + 4294967296)
                    2147483648); [reflexivity | lia].
      - apply Z.mod_unique with (q := -1); change (2 ^ 32) with 4294967296; lia. }
    rewrite Hi.
    destruct (Z.ltb_spec (signed 32 (beUint (peek 4 s)) - 0x7e0000 + 4294967296)
                (len (handles s))); [lia |].
    rewrite andb_false_r.
    destruct (Z.leb_spec 0 i); [unfold i in *; lia | reflexivity].
  - rewrite int32_sub_exact by (change (2 ^ 31) with 2147483648; lia). fold i.
    destruct (Z.ltb_spec (-1) i), (Z.leb_spec 0 i); try lia; simpl; [| reflexivity].
    destruct (Z.ltb_spec i (len (handles s))) as [Hlt | Hge]; [| reflexivity].
    destruct (handles s !! Z.to_nat i) as [v |] eqn:Hv; [reflexivity |].
    apply lookup_ge_None in Hv. unfold len in Hlt. lia.
Qed.

(** Fewer than four bytes left: the read error is reported, wrapped. *)
Lemma parseReference_end (s : state) :
  len (buf s) < pos s + 4 ->
  parseReference s =
    (Err (Wrapped "error reading reference index" (New UnexpectedEnd)), advance 4 s).
Proof.
  intros H. unfold parseReference, bind, wrap, readInt32, bind.
  rewrite readBE_end by exact H. reflexivity.
Qed.

(** ** Strings *)

Lemma length_string_of_list_byte (bs : list byte) :
  String.length (string_of_list_byte bs) = length bs.
Proof. induction bs as [| b bs IH]; simpl; [reflexivity | f_equal; exact IH]. Qed.

Lemma peek_exact (n : Z) (s : state) :
  0 <= pos s -> 0 <= n -> pos s + n <= len (buf s) -> len (peek n s) = n.
Proof.
  intros Hp Hn Hle. unfold peek, slice, len in *.
  rewrite length_take, length_drop. lia.
Qed.

(** C8.  A LongString tag reads its 64-bit length as two 32-bit halves.  If
    the upper half is not zero the parser fails with StringTooLong having
    consumed the four bytes of the upper half only (no string byte is read,
    no handle registered).  If it is zero, the parser reads the lower half
    [lo], then exactly [lo] bytes as the string, and registers the string as a
    new handle. *)
Theorem parseLongString_halves (s : state) :
  0 <= pos s ->
  pos s + 4 <= len (buf s) ->
  let hi := beUint (peek 4 s) in
  (hi <> 0 ->
     exists e, parseLongString s = (Err e, advance 4 s) /\ Cause e = StringTooLong) /\
  (hi = 0 ->
     pos s + 8 <= len (buf s) ->
     let lo := beUint (peek 4 (advance 4 s)) in
     pos s + 8 + lo <= len (buf s) ->
     let str := string_of_list_byte (peek lo (advance 8 s)) in
     strlen str = lo /\
     parseLongString s = (Ok (VString str), register (VString str) (advance (8 + lo) s))).
Proof.
  intros Hpos H4 hi. split.
  - intros Hhi. eexists. split.
    + unfold parseLongString, bind, wrap, utfLong, bind, wrap, readUInt32.
      rewrite readBE_ok by exact H4. fold hi.
      destruct (Z.eqb_spec hi 0); [contradiction | reflexivity].
    + reflexivity.
  - intros Hhi H8 lo Hlo str.
    assert (Hlo0 : 0 <= lo) by apply beUint_range.
    split.
    + unfold str, strlen. rewrite length_string_of_list_byte.
      apply (peek_exact lo (advance 8 s)); simpl; lia.
    + unfold parseLongString, bind, wrap, utfLong, bind, wrap, readUInt32.
      rewrite readBE_ok by exact H4. fold hi. rewrite Hhi. simpl.
      rewrite readBE_ok by (simpl; lia). fold lo.
      rewrite readString_ok by (simpl; lia).
      rewrite !advance_advance. unfold newHandle, register. reflexivity.
Qed.

Lemma parseLongString_halves_witness :
  parseLongString longStringState
  = (Ok (VString "hi"), register (VString "hi") (advance 10 longStringState)).
Proof.
  assert (H0 : 0 <= pos longStringState) by by_compute.
  assert (H4 : pos longStringState + 4 <= len (buf longStringState)) by by_compute.
  destruct (parseLongString_halves longStringState H0 H4) as [_ Hzero].
  apply Hzero; by_compute.
Defined.

(** The upper half is checked before the lower half is even read: the
    StringTooLong failure needs only four bytes of input. *)
Example parseLongString_too_long :
  parseLongString (mkState (unhex "70000000") 0 [] [] [])
  = (Err (Wrapped "error parsing long string" (New StringTooLong)),
     mkState (unhex "70000000") 4 [] [] []).
Proof. reflexivity. Qed.

(** ** Class names *)

(** A new class descriptor whose name is shorter than two bytes is not
    rejected: [errors.Wrapf] is applied to a nil error and returns nil, so
    parseClassDesc returns the nil value and no error.  The descriptor is
    not registered as a handle. *)
Lemma parseClassDesc_short_name (content : allowList -> M Value) (fuel : nat)
    (s s1 : state) (nm : string) :
  utf (snd (newClazz s)) = (Ok nm, s1) ->
  strlen nm < 2 ->
  parseClassDesc content fuel s
  = (Ok VNil, snd (setClazz (length (classes s)) (setName nm) s1)).
Proof.
  intros Hutf Hshort.
  unfold parseClassDesc, bind, wrap.
  change (newClazz s) with (Ok (length (classes s)), snd (newClazz s)).
  cbv beta iota. rewrite Hutf.
  change (setClazz (length (classes s)) (setName nm) s1)
    with (Ok tt, snd (setClazz (length (classes s)) (setName nm) s1)).
  cbv beta iota.
  destruct (Z.ltb_spec (strlen nm) 2); [reflexivity | lia].
Qed.

(** C2 (the code does not do this).  The stream holding the single new
    class descriptor named "A" parses without error, to one nil value. *)
Theorem short_class_name_accepted :
  ParseSerializedObject (unhex "aced000572000141") = Ok [VNil].
Proof. vm_compute. reflexivity. Qed.

(** ** Counting handles *)

(** On the streams of the test corpus the count is right: the canary stream
    dispatches on two Array, one ClassDesc and two String tags and ends with
    five handles. *)
Example handle_count_canary :
  let r := runParser 200
    (unhex "aced0005757200135b4c6a6176612e6c616e672e4f626a6563743b90ce589f1073296c020000787000000002740005426567696e71007e00017571007e00000000000271007e0003740003456e64") in
  length (handles (snd r)) = 5%nat /\ countHandleTags (tags (snd r)) = 5%nat.
Proof. vm_compute. split; reflexivity. Qed.

(** C4 (the code does not do this).  The stream of one ClassDesc tag with
    the name "A" parses successfully; one handle-producing tag was observed
    and the handle table is empty. *)
Theorem handle_count_short_class_name :
  let r := runParser 9 (unhex "aced000572000141") in
  fst r = Ok [VNil] /\
  tags (snd r) = [ClassDesc] /\
  countHandleTags (tags (snd r)) = 1%nat /\
  length (handles (snd r)) = 0%nat.
Proof. vm_compute. repeat split; reflexivity. Qed.

(** ** Post-processors *)

Lemma slice_length {A} (lo hi : Z) (l : list A) :
  0 <= lo <= hi -> hi <= len l -> len (slice lo hi l) = hi - lo.
Proof.
  intros H1 H2. unfold slice, len in *. rewrite length_take, length_drop. lia.
Qed.

Lemma slice_lookup {A} (lo hi : Z) (l : list A) (k : nat) :
  0 <= lo -> Z.of_nat k < hi - lo ->
  slice lo hi l !! k = l !! (Z.to_nat lo + k)%nat.
Proof.
  intros H1 H2. unfold slice.
  rewrite lookup_take_lt by lia. apply lookup_drop.
Qed.

Lemma postProcSize_bytes (b : list byte) (rest : list Value) (offset : Z) :
  offset + 4 <= len b ->
  postProcSize (VBytes b :: rest) offset
  = Ok (signed 32 (beUint (slice offset (offset + 4) b))).
Proof.
  intros H. unfold postProcSize.
  destruct (Z.ltb_spec (len b) (offset + 4)); [lia | reflexivity].
Qed.

(** C6.  listPostProc is the post-processor of the ArrayList and ArrayDeque
    signatures.  It reads [size] as the big-endian int32 in the first four
    bytes of annotation element 0, fails with UnexpectedShape unless the
    number of annotation elements is [size + 1], and otherwise sets [value]
    to the slice [data[1:size]] (the [size - 1] elements at indices
    [1 .. size-1]) when [size > 1] and to the empty sequence when
    [size <= 1]. *)
Theorem listPostProc_slice (fields : gmap string Value) (b : list byte)
    (rest : list Value) :
  4 <= len b ->
  let data := VBytes b :: rest in
  let size := signed 32 (beUint (slice 0 4 b)) in
  KnownPostProcs !! "java.util.ArrayList@7881d21d99c7619d" = Some listPostProc /\
  KnownPostProcs !! "java.util.ArrayDeque@207cda2e240da08b" = Some listPostProc /\
  (len data <> size + 1 ->
     listPostProc fields data = shapeError (WrongCount size (len data - 1))) /\
  (len data = size + 1 -> 1 < size ->
     listPostProc fields data = Ok (<["value" := VSlice (slice 1 size data)]> fields) /\
     len (slice 1 size data) = size - 1 /\
     forall k : nat, Z.of_nat k < size - 1 -> slice 1 size data !! k = data !! S k) /\
  (len data = size + 1 -> size <= 1 ->
     listPostProc fields data = Ok (<["value" := VSlice []]> fields)).
Proof.
  intros Hb data size.
  assert (Hsz : postProcSize data 0 = Ok size) by (apply postProcSize_bytes; exact Hb).
  split; [reflexivity |]. split; [reflexivity |].
  unfold listPostProc. rewrite Hsz. repeat split.
  - intros Hne. destruct (Z.eqb_spec (len data) (size + 1)); [contradiction | reflexivity].
  - destruct (Z.eqb_spec (len data) (size + 1)); [| contradiction]. simpl.
    destruct (Z.ltb_spec 1 size); [reflexivity | lia].
  - apply slice_length; lia.
  - intros k Hk. rewrite slice_lookup by lia. reflexivity.
  - intros Heq Hle. destruct (Z.eqb_spec (len data) (size + 1)); [| contradiction]. simpl.
    destruct (Z.ltb_spec 1 size); [lia | reflexivity].
Qed.

Lemma listPostProc_slice_witness :
  listPostProc ∅ [VBytes (unhex "00000003"); VString "x"; VString "y"; VString "z"]
  = Ok (<["value" := VSlice [VString "x"; VString "y"]]> ∅).
Proof.
  assert (Hb : 4 <= len (unhex "00000003")) by by_compute.
  destruct (listPostProc_slice ∅ (unhex "00000003")
              [VString "x"; VString "y"; VString "z"] Hb)
    as (_ & _ & _ & Hgt & _).
  destruct Hgt as (Hres & _); [by_compute | by_compute |].
  exact Hres.
Defined.

(** The keys [setKeys] adds are the strings at [data[idx+1 .. idx+n]]. *)
Lemma setKeys_spec (data : list Value) (n idx : nat) (m0 : gmap string bool) :
  (idx + n < length data)%nat ->
  exists m, setKeys data n idx m0 = Ok m /\
    forall k, m !! k = Some true <->
      (m0 !! k = Some true \/
       exists j, (idx <= j < idx + n)%nat /\ data !! (j + 1)%nat = Some (VString k)).
Proof.
  revert idx m0. induction n as [| n IH]; intros idx m0 Hlen.
  - exists m0. split; [reflexivity |]. intros k. split; [auto |].
    intros [H | (j & Hj & _)]; [exact H | lia].
  - simpl. destruct (data !! (idx + 1)%nat) as [key |] eqn:Hkey.
    2:{ apply lookup_ge_None in Hkey. lia. }
    destruct (IH (S idx)
                (match key with VString s => <[s := true]> m0 | _ => m0 end))
      as (m & Hm & Hspec); [lia |].
    exists m. split; [exact Hm |]. intros k. rewrite Hspec. split.
    + intros [H | (j & Hj & Hd)].
      * destruct key; try (left; exact H).
        destruct (decide (s = k)) as [-> | Hne].
        -- right. exists idx. split; [lia | exact Hkey].
        -- left. rewrite lookup_insert_ne in H by exact Hne. exact H.
      * right. exists j. split; [lia | exact Hd].
    + intros [H | (j & Hj & Hd)].
      * left. destruct key; try exact H.
        destruct (decide (s = k)) as [-> | Hne].
        -- apply lookup_insert_eq.
        -- rewrite lookup_insert_ne by exact Hne. exact H.
      * destruct (decide (j = idx)) as [-> | Hne].
        -- left. rewrite Hkey in Hd. injection Hd as ->. apply lookup_insert_eq.
        -- right. exists j. split; [lia | exact Hd].
Qed.

(** What hashSetPostProc computes when the element count is accepted: the
    members are the strings among the elements at indices [1 .. size-1]; the
    element at index [size] is never looked at. *)
Lemma hashSetPostProc_members (fields : gmap string Value) (b : list byte)
    (rest : list Value) :
  12 <= len b ->
  let data := VBytes b :: rest in
  let size := signed 32 (beUint (slice 8 12 b)) in
  len data = size + 1 ->
  exists m, hashSetPostProc fields data = Ok (<["value" := VBoolMap m]> fields) /\
    forall k, m !! k = Some true <->
      exists j : nat, 1 <= Z.of_nat j < size /\ data !! j = Some (VString k).
Proof.
  intros Hb data size Hcount.
  assert (Hsz : postProcSize data 8 = Ok size) by (apply postProcSize_bytes; exact Hb).
  unfold hashSetPostProc. rewrite Hsz.
  destruct (Z.eqb_spec (len data) (size + 1)); [| contradiction]. simpl.
  destruct (Z.ltb_spec 1 size) as [Hgt | Hle].
  - assert (Hn : length (slice 1 size data) = Z.to_nat (size - 1)).
    { pose proof (slice_length 1 size data) as H. unfold len in H at 2. lia. }
    rewrite Hn.
    destruct (setKeys_spec data (Z.to_nat (size - 1)) 0 ∅) as (m & Hm & Hspec).
    { unfold len in Hcount. lia. }
    rewrite Hm. exists m. split; [reflexivity |].
    intros k. rewrite Hspec. split.
    + intros [H | (j & Hj & Hd)]; [rewrite lookup_empty in H; discriminate |].
      exists (j + 1)%nat. split; [lia | exact Hd].
    + intros (j & Hj & Hd). right. exists (j - 1)%nat.
      split; [lia |]. replace (j - 1 + 1)%nat with j by lia. exact Hd.
  - exists ∅. split; [reflexivity |]. intros k. split.
    + intros H. rewrite lookup_empty in H. discriminate.
    + intros (j & Hj & _). lia.
Qed.

(** C7 (the code does not do this).  A HashSet of the two strings "a" and
    "b": the element count 3 is [size + 1], and the member at index [size]
    is missing from [value]. *)
Theorem hashSetPostProc_misses_last :
  hashSetPostProc ∅
    [VBytes (unhex "000000103f40000000000002"); VString "a"; VString "b"]
  = Ok (<["value" := VBoolMap {[ "a" := true ]}]> ∅).
Proof. vm_compute. reflexivity. Qed.

(** The same through the parser, from the bytes of a stream. *)
Example hashSet_stream_misses_last :
  match ParseSerializedObject
          (unhex ("aced0005737200116a6176612e7574696c2e48617368536574ba44859596b8b734"
                  +:+ "0300007870770c000000103f40000000000002740001617400016278"))
  with
  | Ok [VMap obj] => obj !! "value" = Some (VBoolMap {[ "a" := true ]})
  | _ => False
  end.
Proof. vm_compute. reflexivity. Qed.

(** The pair loop of mapPostProc does not panic when the pairs it visits
    exist, and then: every entry of the result comes from the initial map or
    from a visited pair whose key is a string; every visited string key has
    an entry. *)
Lemma mapPairs_spec (data : list Value) (n i : nat) (m0 : gmap string Value) :
  (2 * (i + n) + 1 <= length data)%nat ->
  exists m, mapPairs data n i m0 = Ok m /\
    (forall k v, m !! k = Some v ->
       m0 !! k = Some v \/
       exists j, (i <= j < i + n)%nat /\
                 data !! (2 * j + 1)%nat = Some (VString k) /\
                 data !! (2 * j + 2)%nat = Some v) /\
    (forall k, is_Some (m0 !! k) \/
               (exists j, (i <= j < i + n)%nat /\ data !! (2 * j + 1)%nat = Some (VString k)) ->
               is_Some (m !! k)).
Proof.
  revert i m0. induction n as [| n IH]; intros i m0 Hlen.
  - exists m0. split; [reflexivity |]. split.
    + intros k v H. left. exact H.
    + intros k [H | (j & Hj & _)]; [exact H | lia].
  - simpl.
    destruct (data !! (i + (i + 0) + 1)%nat) as [key |] eqn:Hkey.
    2:{ apply lookup_ge_None in Hkey. lia. }
    destruct (data !! (i + (i + 0) + 2)%nat) as [value |] eqn:Hval.
    2:{ apply lookup_ge_None in Hval. lia. }
    destruct (IH (S i) (match key with VString s => <[s := value]> m0 | _ => m0 end))
      as (m & Hm & Hin & Hkeys); [lia |].
    exists m. split; [exact Hm |]. split.
    + intros k v H. destruct (Hin k v H) as [H0 | (j & Hj & Hk & Hv)].
      * destruct key; try (left; exact H0).
        destruct (decide (s = k)) as [-> | Hne].
        -- rewrite lookup_insert_eq in H0. injection H0 as <-.
           right. exists i. split; [lia |].
           replace (2 * i + 1)%nat with (i + (i + 0) + 1)%nat by lia.
           replace (2 * i + 2)%nat with (i + (i + 0) + 2)%nat by lia.
           split; assumption.
        -- rewrite lookup_insert_ne in H0 by exact Hne. left. exact H0.
      * right. exists j. split; [lia |]. split; assumption.
    + intros k H. apply Hkeys. destruct H as [H | (j & Hj & Hk)].
      * left. destruct key; try exact H.
        destruct (decide (s = k)) as [-> | Hne].
        -- rewrite lookup_insert_eq. eexists; reflexivity.
        -- rewrite lookup_insert_ne by exact Hne. exact H.
      * destruct (decide (j = i)) as [-> | Hne].
        -- left. replace (2 * i + 1)%nat with (i + (i + 0) + 1)%nat in Hk by lia.
           rewrite Hkey in Hk. injection Hk as ->.
           rewrite lookup_insert_eq. eexists; reflexivity.
        -- right. exists j. split; [lia | exact Hk].
Qed.

(** The loop looks at no element beyond the pairs it visits. *)
Lemma mapPairs_app (data extra : list Value) (n i : nat) (m0 : gmap string Value) :
  (2 * (i + n) + 1 <= length data)%nat ->
  mapPairs (data ++ extra) n i m0 = mapPairs data n i m0.
Proof.
  revert i m0. induction n as [| n IH]; intros i m0 Hlen; [reflexivity |].
  simpl. rewrite !lookup_app_l by lia.
  destruct (data !! (i + (i + 0) + 1)%nat); [| reflexivity].
  destruct (data !! (i + (i + 0) + 2)%nat); [| reflexivity].
  apply IH. lia.
Qed.

(** C10.  mapPostProc is the post-processor of the HashMap and Hashtable
    signatures.  With [size] the big-endian int32 at offset 4 of annotation
    element 0, it fails exactly when there are fewer than [2*size + 1]
    annotation elements.  Otherwise it succeeds; elements after index
    [2*size] do not matter (any sequence may follow them without changing
    the result); the entries of [value] all come from pairs whose key is a
    string, so pairs with other keys are dropped; and every string key among
    the [size] pairs has an entry. *)
Theorem mapPostProc_lax (fields : gmap string Value) (b : list byte)
    (rest : list Value) :
  8 <= len b ->
  let data := VBytes b :: rest in
  let size := signed 32 (beUint (slice 4 8 b)) in
  KnownPostProcs !! "java.util.HashMap@0507dac1c31660d1" = Some mapPostProc /\
  KnownPostProcs !! "java.util.Hashtable@13bb0f25214ae4b8" = Some mapPostProc /\
  (len data < 2 * size + 1 ->
     mapPostProc fields data = shapeError (WrongCount size (len data - 1))) /\
  (2 * size + 1 <= len data ->
     exists m,
       mapPostProc fields data = Ok (<["value" := VMap m]> fields) /\
       (forall extra,
          mapPostProc fields (data ++ extra) = Ok (<["value" := VMap m]> fields)) /\
       (forall k v, m !! k = Some v ->
          exists j : nat, Z.of_nat j < size /\
            data !! (2 * j + 1)%nat = Some (VString k) /\
            data !! (2 * j + 2)%nat = Some v) /\
       (forall (j : nat) k, Z.of_nat j < size ->
          data !! (2 * j + 1)%nat = Some (VString k) -> is_Some (m !! k))).
Proof.
  intros Hb data size.
  assert (Hsz : forall extra, postProcSize (data ++ extra) 4 = Ok size).
  { intros extra. apply postProcSize_bytes. exact Hb. }
  split; [reflexivity |]. split; [reflexivity |]. split.
  - intros Hshort. unfold mapPostProc.
    rewrite <- (app_nil_r data) at 1. rewrite Hsz.
    destruct (Z.ltb_spec (len data) (size * 2 + 1)); [reflexivity | lia].
  - intros Henough.
    assert (Hlen : (2 * (0 + Z.to_nat size) + 1 <= length data)%nat).
    { unfold len in Henough. simpl in *. lia. }
    destruct (mapPairs_spec data (Z.to_nat size) 0 ∅ Hlen) as (m & Hm & Hin & Hkeys).
    assert (Hext : forall extra,
               mapPostProc fields (data ++ extra) = Ok (<["value" := VMap m]> fields)).
    { intros extra. unfold mapPostProc. rewrite Hsz.
      destruct (Z.ltb_spec (len (data ++ extra)) (size * 2 + 1)) as [Hlt | _].
      - unfold len in Hlt, Henough. rewrite length_app in Hlt. lia.
      - rewrite mapPairs_app by exact Hlen. rewrite Hm. reflexivity. }
    exists m. split; [| split; [exact Hext | split]].
    + rewrite <- (app_nil_r data) at 1. apply Hext.
    + intros k v H. destruct (Hin k v H) as [H0 | (j & Hj & Hk & Hv)].
      * rewrite lookup_empty in H0. discriminate.
      * exists j. split; [lia |]. split; assumption.
    + intros j k Hj Hk. apply Hkeys. right. exists j. split; [lia | exact Hk].
Qed.

Lemma mapPostProc_lax_witness :
  mapPostProc ∅
    ([VBytes (unhex "0000001000000001"); VInt32 7; VString "dropped";
      VString "ignored"] ++ [VNil])
  = Ok (<["value" := VMap ∅]> ∅).
Proof.
  assert (Hb : 8 <= len (unhex "0000001000000001")) by by_compute.
  destruct (mapPostProc_lax ∅ (unhex "0000001000000001")
              [VInt32 7; VString "dropped"; VString "ignored"] Hb)
    as (_ & _ & _ & Hok).
  destruct Hok as (m & Hm & Hext & _); [by_compute |].
  rewrite Hext. rewrite <- Hm. vm_compute. reflexivity.
Defined.

(** Apart from an unreadable size prefix, the short element count is the
    only failure of mapPostProc. *)
Lemma mapPostProc_errors (fields : gmap string Value) (data : list Value) (e : error) :
  mapPostProc fields data = Err e ->
  postProcSize data 4 = Err e \/
  exists size, postProcSize data 4 = Ok size /\ len data < 2 * size + 1 /\
               e = New (UnexpectedShape (WrongCount size (len data - 1))).
Proof.
  unfold mapPostProc. destruct (postProcSize data 4) as [size | e'] eqn:Hsz.
  - destruct (Z.ltb_spec (len data) (size * 2 + 1)) as [Hlt | Hge].
    + intros H. injection H as <-. right. exists size.
      split; [reflexivity |]. split; [lia | reflexivity].
    + assert (Hne : (2 * (0 + Z.to_nat size) + 1 <= length data)%nat).
      { unfold len in Hge. destruct data; [discriminate Hsz | simpl in *; lia]. }
      destruct (mapPairs_spec data (Z.to_nat size) 0 ∅ Hne) as (m & Hm & _).
      rewrite Hm. discriminate.
  - intros H. injection H as <-. left. reflexivity.
Qed.

(** ** The tag dispatcher *)

(** One step of [content]: a tag byte [0x70 + tc] whose name is permitted and
    has a parser is consumed and control passes to that parser. *)
Lemma content_dispatch (fuel : nat) (allowedNames : allowList) (s : state)
    (tc : nat) (n : TypeName) (parse : M Value) :
  pos s + 1 <= len (buf s) ->
  beUint (peek 1 s) = 0x70 + Z.of_nat tc ->
  typeNames !! tc = Some n ->
  permits allowedNames n = true ->
  knownParsers (content fuel) fuel n = Some parse ->
  content (S fuel) allowedNames s = parse (logged n (advance 1 s)).
Proof.
  intros Hlen Htc Hname Hperm Hparse.
  assert (Hrange : (tc < 15)%nat).
  { apply lookup_lt_Some in Hname. exact Hname. }
  simpl. unfold contentBody, bind, readUInt8.
  rewrite readBE_ok by exact Hlen. rewrite Htc.
  replace ((0x70 + Z.of_nat tc - 0x70) mod 256) with (Z.of_nat tc)
    by (rewrite Z.mod_small; lia).
  destruct (Z.ltb_spec typeNameMax (Z.of_nat tc)) as [Hbig | _].
  { change typeNameMax with 14 in Hbig. lia. }
  rewrite Nat2Z.id, Hname.
  replace (match allowedNames with
           | Some allowed => negb (allowed n)
           | None => false
           end) with false
    by (destruct allowedNames; simpl in *; [rewrite Hperm |]; reflexivity).
  rewrite Hparse. reflexivity.
Qed.

(** A byte outside [0x70 .. 0x7E] is not a tag. *)
Lemma content_unknown_tag (fuel : nat) (allowedNames : allowList) (s : state) :
  pos s + 1 <= len (buf s) ->
  let tc := beUint (peek 1 s) in
  ~ 0x70 <= tc <= 0x7e ->
  content (S fuel) allowedNames s = (Err (New (UnknownTag tc)), advance 1 s).
Proof.
  intros Hlen tc Hout.
  assert (Hb : 0 <= tc < 256).
  { pose proof (beUint_range (peek 1 s)) as Hr.
    pose proof (peek_length 1 s) as Hl.
    assert (256 ^ len (peek 1 s) <= 256 ^ 1)
      by (apply Z.pow_le_mono_r; unfold len in *; lia).
    unfold tc. lia. }
  simpl. unfold contentBody, bind, readUInt8.
  rewrite readBE_ok by exact Hlen. fold tc.
  change typeNameMax with 14.
  destruct (Z_lt_le_dec tc 0x70) as [Hlo | Hhi].
  - replace ((tc - 0x70) mod 256) with (tc - 0x70 + 256)
      by (apply Z.mod_unique with (q := -1); lia).
    destruct (Z.ltb_spec 14 (tc - 0x70 + 256)); [| lia].
    replace ((tc - 0x70 + 256 + 0x70) mod 256) with tc
      by (apply Z.mod_unique with (q := 1); lia).
    reflexivity.
  - rewrite (Z.mod_small (tc - 0x70)) by lia.
    destruct (Z.ltb_spec 14 (tc - 0x70)); [| lia].
    replace (tc - 0x70 + 0x70) with tc by lia.
    rewrite Z.mod_small by lia. reflexivity.
Qed.

(** ** Arrays *)

Lemma insert_last {A} (l : list A) (x y : A) :
  <[length l := y]> (l ++ [x]) = l ++ [y].
Proof.
  replace (length l) with (length l + 0)%nat by lia.
  rewrite insert_app_r. reflexivity.
Qed.

(** C9.  When the class-descriptor position of an Array tag yields no class
    (a Null tag, or a Reference that resolves to null), parseArray still
    registers the record [{class: nil}] as a new handle, reads the 32-bit
    length into that record, and returns the nil value: no error is raised
    and nothing after the four length bytes is read. *)
Theorem parseArray_null_class (content : allowList -> M Value) (fuel : nat)
    (s s1 : state) :
  classDesc content s = (Ok None, s1) ->
  pos s1 + 4 <= len (buf s1) ->
  let size := signed 32 (beUint (peek 4 s1)) in
  let res : gmap string Value :=
    <["length" := VInt32 size]> {[ "class" := VClazz None ]} in
  parseArray content fuel s = (Ok VNil, advance 4 (register (VMap res) s1)).
Proof.
  intros Hcls Hlen size res.
  unfold parseArray, bind, wrap. rewrite Hcls. unfold getHandles, newHandle.
  cbv beta iota.
  unfold readInt32, bind.
  rewrite readBE_ok by exact Hlen.
  unfold ret, setHandle, advance, register. cbn [buf pos handles classes tags].
  destruct (decide (length (handles s1) < length (handles s1 ++ [VMap {[ "class" := VClazz None ]}]))%nat)
    as [_ | Hge].
  2:{ rewrite length_app in Hge. simpl in Hge. lia. }
  rewrite insert_last. reflexivity.
Qed.

(** A Null tag in the class-descriptor position yields no class. *)
Lemma classDesc_null (fuel : nat) (s : state) :
  pos s + 1 <= len (buf s) ->
  beUint (peek 1 s) = 0x70 ->
  classDesc (content (S fuel)) s = (Ok None, logged Null (advance 1 s)).
Proof.
  intros Hlen Htag. unfold classDesc, bind, wrap.
  rewrite (content_dispatch fuel (Some allowedClazzNames) s 0 Null parseNull);
    try reflexivity; try assumption.
Qed.

(** So does a Reference tag that resolves to nil or to a nil class pointer:
    a wire id out of range, a reserved slot that is not filled yet, the
    handle of a Class tag without a class. *)
Lemma classDesc_reference (fuel : nat) (s s1 : state) (v : Value) :
  pos s + 1 <= len (buf s) ->
  beUint (peek 1 s) = 0x71 ->
  parseReference (logged Reference (advance 1 s)) = (Ok v, s1) ->
  v = VNil \/ v = VClazz None ->
  classDesc (content (S fuel)) s = (Ok None, s1).
Proof.
  intros Hlen Htag Href Hv. unfold classDesc, bind, wrap.
  rewrite (content_dispatch fuel (Some allowedClazzNames) s 1 Reference parseReference);
    try reflexivity; try assumption.
  rewrite Href. destruct Hv as [-> | ->]; reflexivity.
Qed.

Lemma classDesc_reference_out_of_range (fuel : nat) (s : state) :
  pos s + 5 <= len (buf s) ->
  beUint (peek 1 s) = 0x71 ->
  let i := int32_sub (signed 32 (beUint (peek 4 (advance 1 s)))) 0x7e0000 in
  ~ 0 <= i < len (handles s) ->
  classDesc (content (S fuel)) s = (Ok None, advance 4 (logged Reference (advance 1 s))).
Proof.
  intros Hlen Htag i Hout.
  apply (classDesc_reference fuel s _ VNil); [lia | exact Htag | | left; reflexivity].
  rewrite parseReference_run by (simpl; lia).
  change (peek 4 (logged Reference (advance 1 s))) with (peek 4 (advance 1 s)).
  fold i. change (handles (logged Reference (advance 1 s))) with (handles s).
  destruct (Z.ltb_spec (-1) i); simpl; [| reflexivity].
  destruct (Z.ltb_spec i (len (handles s))); simpl; [lia | reflexivity].
Qed.

(** An Array tag whose class is a Reference to the handle of [Class Null]:
    the handle holds a nil class pointer. *)
Example parseArray_reference_to_nil_class :
  fst (content 3 None
         (mkState (unhex "7571007e000000000002") 0 [VClazz None] [] []))
  = Ok VNil.
Proof. reflexivity. Qed.

Lemma parseArray_null_class_witness :
  parseArray (content 1) 0 nullArrayState
  = (Ok VNil,
     mkState (unhex "7000000003") 5
       [VMap (<["length" := VInt32 3]> {[ "class" := VClazz None ]})] [] [Null]).
Proof.
  refine (parseArray_null_class (content 1) 0 nullArrayState
            (logged Null (advance 1 nullArrayState)) _ _).
  - apply classDesc_null; by_compute.
  - by_compute.
Defined.

(** ** The class-data reader *)

Lemma deref_ok (p : nat) (c : clazz) (s : state) :
  classes s !! p = Some c -> deref p s = (Ok c, s).
Proof. intros H. unfold deref. rewrite H. reflexivity. Qed.

(** C5.  For a class descriptor [c] the class-data reader is determined by
    the low nibble of [c.flags]:
    - 0x02: the declared field values are read, nothing else;
    - 0x03: the field values are read, then the annotations up to
      EndBlockData, which are stored under ["@"]; if a post-processor is
      registered for [name@serialVersionUID] its result is the result;
    - 0x04: the reader fails with Version1ExternalUnsupported;
    - 0x0C: no field value is read; the annotations are read and the result
      is the record holding them under ["@"] alone, whatever the signature
      of the class (no post-processor is looked up);
    - any other nibble: the reader fails with UnknownClassFlags. *)
Theorem classData_dispatch (content : allowList -> M Value) (fuel : nat)
    (p : nat) (c : clazz) (s : state) :
  classes s !! p = Some c ->
  let nibble := Z.land (flags c) 0x0f in
  (nibble = 0x02 -> classData content fuel (Some p) s = values content p s) /\
  (nibble = 0x03 ->
     forall data s1 anns s2 c2,
       values content p s = (Ok data, s1) ->
       annotations content fuel None s1 = (Ok anns, s2) ->
       classes s2 !! p = Some c2 ->
       classData content fuel (Some p) s =
         match KnownPostProcs !! (name c2 +:+ "@" +:+ serialVersionUID c2) with
         | Some postproc => (postproc (<["@" := VSlice anns]> data) anns, s2)
         | None => (Ok (<["@" := VSlice anns]> data), s2)
         end) /\
  (nibble = 0x04 ->
     classData content fuel (Some p) s = (Err (New Version1ExternalUnsupported), s)) /\
  (nibble = 0x0c ->
     forall anns s1,
       annotations content fuel None s = (Ok anns, s1) ->
       classData content fuel (Some p) s = (Ok (<["@" := VSlice anns]> ∅), s1)) /\
  (nibble <> 0x02 -> nibble <> 0x03 -> nibble <> 0x04 -> nibble <> 0x0c ->
     classData content fuel (Some p) s = (Err (New (UnknownClassFlags (flags c))), s)).
Proof.
  intros Hc nibble.
  assert (Hcd : classData content fuel (Some p) s =
                (if nibble =? 0x02 then values content p
                 else if nibble =? 0x03 then annotationsAsMap content fuel p false
                 else if nibble =? 0x04 then errorf Version1ExternalUnsupported
                 else if nibble =? 0x0c then annotationsAsMap content fuel p true
                 else errorf (UnknownClassFlags (flags c))) s).
  { unfold classData, bind. rewrite (deref_ok p c s Hc). reflexivity. }
  rewrite Hcd. repeat split.
  - intros ->. reflexivity.
  - intros -> data s1 anns s2 c2 Hvals Hanns Hc2.
    change (annotationsAsMap content fuel p false s = 
            match KnownPostProcs !! (name c2 +:+ "@" +:+ serialVersionUID c2) with
            | Some postproc => (postproc (<["@" := VSlice anns]> data) anns, s2)
            | None => (Ok (<["@" := VSlice anns]> data), s2)
            end).
    unfold annotationsAsMap, bind, wrap. rewrite Hvals, Hanns.
    cbn [negb]. rewrite (deref_ok p c2 s2 Hc2).
    destruct (KnownPostProcs !! (name c2 +:+ "@" +:+ serialVersionUID c2)); reflexivity.
  - intros ->. reflexivity.
  - intros -> anns s1 Hanns.
    change (annotationsAsMap content fuel p true s = (Ok (<["@" := VSlice anns]> ∅), s1)).
    unfold annotationsAsMap, bind, wrap, ret. rewrite Hanns. reflexivity.
  - intros H2 H3 H4 Hc'.
    destruct (Z.eqb_spec nibble 0x02); [contradiction |].
    destruct (Z.eqb_spec nibble 0x03); [contradiction |].
    destruct (Z.eqb_spec nibble 0x04); [contradiction |].
    destruct (Z.eqb_spec nibble 0x0c); [contradiction |].
    reflexivity.
Qed.

Lemma classData_dispatch_witness :
  fst (classData (content 2) 3 (Some 0%nat) externState)
  = Ok (<["@" := VSlice [VBytes (unhex "000000103f40000000000001"); VString "a"]]> ∅).
Proof.
  assert (Hc : classes externState !! 0%nat = Some hashSetClazz) by reflexivity.
  destruct (classData_dispatch (content 2) 3 0 hashSetClazz externState Hc)
    as (_ & _ & _ & Hext & _).
  rewrite (Hext eq_refl [VBytes (unhex "000000103f40000000000001"); VString "a"]
             (snd (annotations (content 2) 3 None externState))).
  - reflexivity.
  - vm_compute. reflexivity.
Defined.

(** The same bytes read for the same class with the low nibble 0x03 are
    post-processed: hashSetPostProc replaces the record. *)
Example classData_serializable_postproc :
  fst (classData (content 2) 3 (Some 0%nat)
         (mkState (unhex "770c000000103f400000000000017400016178") 0 []
            [mkClazz None [] [] "ba44859596b8b734" "java.util.HashSet" 0x03 false] []))
  = Ok (<["value" := VBoolMap ∅]>
          (<["@" := VSlice [VBytes (unhex "000000103f40000000000001"); VString "a"]]> ∅)).
Proof. vm_compute. reflexivity. Qed.

(** ** Input that continues after the stream *)

Lemma stable_ret {A} (a : A) : Stable (ret a) (ret a).
Proof.
  intros s a' s' Hp H. injection H as <- <-. split; [exact Hp | reflexivity].
Qed.

Lemma stable_fail {A} (e : error) (m' : M A) : Stable (fail e) m'.
Proof. intros s a s' _ H. discriminate H. Qed.

Lemma stable_errorf {A} (k : kind) (m' : M A) : Stable (errorf k) m'.
Proof. apply stable_fail. Qed.

Lemma stable_bind {A B} (m m' : M A) (k k' : A -> M B) :
  Stable m m' -> (forall a, Stable (k a) (k' a)) ->
  Stable (bind m k) (bind m' k').
Proof.
  intros Hm Hk s b s' Hp H. unfold bind in *.
  destruct (m s) as [[a | e] s1] eqn:Hms; [| discriminate H].
  destruct (Hm s a s1 Hp Hms) as [Hp1 Hm'].
  destruct (Hk a s1 b s' Hp1 H) as [Hp' Hk'].
  split; [exact Hp' |]. intros q. rewrite Hm'. apply Hk'.
Qed.

Lemma stable_wrap {A} (msg : string) (m m' : M A) :
  Stable m m' -> Stable (wrap msg m) (wrap msg m').
Proof.
  intros Hm s a s' Hp H. unfold wrap in *.
  destruct (m s) as [[a1 | e] s1] eqn:Hms; [| discriminate H].
  injection H as <- <-.
  destruct (Hm s a1 s1 Hp Hms) as [Hp1 Hm'].
  split; [exact Hp1 |]. intros q. rewrite Hm'. reflexivity.
Qed.

(** A computation that neither looks at the input nor moves the cursor. *)
Lemma stable_pure {A} (m : M A) :
  (forall s q, m (extend q s) = (fst (m s), extend q (snd (m s)))) ->
  (forall s, pos (snd (m s)) = pos s /\ buf (snd (m s)) = buf s) ->
  Stable m m.
Proof.
  intros Hext Hpos s a s' Hp H. split.
  - destruct (Hpos s) as [H1 H2]. rewrite H in H1, H2. simpl in H1, H2.
    unfold inBounds in *. rewrite H1, H2. exact Hp.
  - intros q. rewrite Hext, H. reflexivity.
Qed.

Lemma stable_newHandle (v : Value) : Stable (newHandle v) (newHandle v).
Proof. apply stable_pure; [reflexivity | split; reflexivity]. Qed.

Lemma stable_newDeferredHandle : Stable newDeferredHandle newDeferredHandle.
Proof. apply stable_pure; [reflexivity | split; reflexivity]. Qed.

Lemma stable_getHandles : Stable getHandles getHandles.
Proof. apply stable_pure; [reflexivity | split; reflexivity]. Qed.

Lemma stable_setHandle (idx : nat) (v : Value) : Stable (setHandle idx v) (setHandle idx v).
Proof.
  apply stable_pure; intros s; [intros q |]; unfold setHandle; simpl;
    destruct (decide (idx < length (handles s))%nat); try split; reflexivity.
Qed.

Lemma stable_fillHandle (idx : nat) (v : Value) : Stable (fillHandle idx v) (fillHandle idx v).
Proof.
  apply stable_pure; intros s; [intros q |]; unfold fillHandle; simpl;
    destruct (decide (idx < length (handles s))%nat); try split; reflexivity.
Qed.

Lemma stable_newClazz : Stable newClazz newClazz.
Proof. apply stable_pure; [reflexivity | split; reflexivity]. Qed.

Lemma stable_deref (p : nat) : Stable (deref p) (deref p).
Proof.
  apply stable_pure; intros s; [intros q |]; unfold deref; simpl;
    destruct (classes s !! p); try split; reflexivity.
Qed.

Lemma stable_setClazz (p : nat) (f : clazz -> clazz) : Stable (setClazz p f) (setClazz p f).
Proof. apply stable_pure; [reflexivity | split; reflexivity]. Qed.

Lemma stable_logTag (n : TypeName) : Stable (logTag n) (logTag n).
Proof. apply stable_pure; [reflexivity | split; reflexivity]. Qed.

Lemma stable_liftR {A} (r : result A) : Stable (liftR r) (liftR r).
Proof. apply stable_pure; [reflexivity | split; reflexivity]. Qed.

(** Bytes within the old input are the same bytes of the longer input. *)
Lemma slice_app {A} (lo hi : Z) (l q : list A) :
  0 <= lo -> hi <= len l -> slice lo hi (l ++ q) = slice lo hi l.
Proof.
  intros Hlo Hhi. unfold slice, len in *.
  destruct (Z_le_gt_dec hi lo) as [Hle | Hgt].
  - replace (Z.to_nat (hi - lo)) with 0%nat by lia. reflexivity.
  - rewrite drop_app_le by lia. rewrite take_app_le; [reflexivity |].
    rewrite length_drop. lia.
Qed.

Lemma step_inv (cnt : Z) (s : state) (p : Z) (s' : state) :
  step cnt s = (Ok p, s') ->
  p = pos s /\ s' = advance cnt s /\ pos s + cnt <= len (buf s).
Proof.
  unfold step. simpl.
  destruct (Z.ltb_spec (len (buf s)) (pos s + cnt)) as [Hlt | Hge];
    intros H; [discriminate H |].
  injection H as <- <-. repeat split. exact Hge.
Qed.

Lemma len_app {A} (l q : list A) : len (l ++ q) = len l + len q.
Proof. unfold len. rewrite length_app. lia. Qed.

Lemma len_nonneg {A} (l : list A) : 0 <= len l.
Proof. unfold len. lia. Qed.

Lemma stable_readBytes {A} (cnt : Z) (f : list byte -> A) :
  0 <= cnt -> Stable (readBytes cnt f) (readBytes cnt f).
Proof.
  intros Hcnt s a s' Hp H. unfold readBytes, bind, bufSlice, ret in *.
  destruct (step cnt s) as [[p | e] s1] eqn:Hstep; [| discriminate H].
  apply step_inv in Hstep. destruct Hstep as (-> & -> & Hle).
  unfold inBounds in *.
  injection H as <- <-. split; [simpl; lia |].
  intros q. rewrite step_ok by (simpl; rewrite len_app; pose proof (len_nonneg q); lia).
  simpl. rewrite slice_app by lia. reflexivity.
Qed.

Lemma stable_readBE (n : Z) : 0 <= n -> Stable (readBE n) (readBE n).
Proof. intros Hn. exact (stable_readBytes n beUint Hn). Qed.

(** A value-dependent continuation: the bound value satisfies [P]. *)
Lemma stable_bind_post {A B} (P : A -> Prop) (m m' : M A) (k k' : A -> M B) :
  Stable m m' ->
  (forall s a s', m s = (Ok a, s') -> P a) ->
  (forall a, P a -> Stable (k a) (k' a)) ->
  Stable (bind m k) (bind m' k').
Proof.
  intros Hm HP Hk s b s' Hp H. unfold bind in *.
  destruct (m s) as [[a | e] s1] eqn:Hms; [| discriminate H].
  destruct (Hm s a s1 Hp Hms) as [Hp1 Hm'].
  destruct (Hk a (HP s a s1 Hms) s1 b s' Hp1 H) as [Hp' Hk'].
  split; [exact Hp' |]. intros q. rewrite Hm'. apply Hk'.
Qed.

Lemma wrap_ok_inv {A} (msg : string) (m : M A) (s : state) (a : A) (s' : state) :
  wrap msg m s = (Ok a, s') -> m s = (Ok a, s').
Proof.
  unfold wrap. destruct (m s) as [[a1 | e] s1]; intros H; [exact H | discriminate H].
Qed.

Lemma readBE_nonneg (n : Z) (s : state) (a : Z) (s' : state) :
  readBE n s = (Ok a, s') -> 0 <= a.
Proof.
  unfold readBE, bind, bufSlice, ret.
  destruct (step n s) as [[p | e] s1]; intros H; [| discriminate H].
  injection H as <- _. apply beUint_range.
Qed.

Lemma stable_readString (cnt : Z) (asHex : bool) :
  0 <= cnt -> Stable (readString cnt asHex) (readString cnt asHex).
Proof.
  intros Hcnt s a s' Hp H. unfold readString, bind, wrap, bufSlice in *.
  destruct (step cnt s) as [[p | e] s1] eqn:Hstep; [| discriminate H].
  apply step_inv in Hstep. destruct Hstep as (-> & -> & Hle).
  assert (Hs' : s' = advance cnt s) by (destruct asHex; injection H as _ <-; reflexivity).
  subst s'. unfold inBounds in *. split; [simpl; lia |].
  intros q. rewrite step_ok by (simpl; rewrite len_app; pose proof (len_nonneg q); lia).
  simpl. rewrite slice_app by lia.
  destruct asHex; injection H as <-; reflexivity.
Qed.

Lemma stable_readUInt8 : Stable readUInt8 readUInt8.
Proof. apply stable_readBE. lia. Qed.
Lemma stable_readUInt16 : Stable readUInt16 readUInt16.
Proof. apply stable_readBE. lia. Qed.
Lemma stable_readUInt32 : Stable readUInt32 readUInt32.
Proof. apply stable_readBE. lia. Qed.
Lemma stable_readFloat32 : Stable readFloat32 readFloat32.
Proof. apply stable_readBE. lia. Qed.
Lemma stable_readFloat64 : Stable readFloat64 readFloat64.
Proof. apply stable_readBE. lia. Qed.
Lemma stable_readInt8 : Stable readInt8 readInt8.
Proof. apply stable_bind; [apply stable_readBE; lia | intros; apply stable_ret]. Qed.
Lemma stable_readInt16 : Stable readInt16 readInt16.
Proof. apply stable_bind; [apply stable_readBE; lia | intros; apply stable_ret]. Qed.
Lemma stable_readInt32 : Stable readInt32 readInt32.
Proof. apply stable_bind; [apply stable_readBE; lia | intros; apply stable_ret]. Qed.
Lemma stable_readInt64 : Stable readInt64 readInt64.
Proof. apply stable_bind; [apply stable_readBE; lia | intros; apply stable_ret]. Qed.

Lemma wrap_readBE_nonneg (msg : string) (n : Z) (s : state) (a : Z) (s' : state) :
  wrap msg (readBE n) s = (Ok a, s') -> 0 <= a.
Proof. intros H. apply wrap_ok_inv in H. exact (readBE_nonneg n s a s' H). Qed.

Lemma stable_utf : Stable utf utf.
Proof.
  unfold utf.
  apply stable_bind_post with (P := fun a => 0 <= a).
  - apply stable_wrap, stable_readUInt16.
  - apply wrap_readBE_nonneg.
  - intros a Ha. apply stable_wrap, stable_readString. exact Ha.
Qed.

Lemma stable_utfLong : Stable utfLong utfLong.
Proof.
  unfold utfLong.
  apply stable_bind; [apply stable_wrap, stable_readUInt32 |].
  intros hi. destruct (negb (hi =? 0)); [apply stable_errorf |].
  apply stable_bind_post with (P := fun a => 0 <= a).
  - apply stable_wrap, stable_readUInt32.
  - apply wrap_readBE_nonneg.
  - intros a Ha. apply stable_wrap, stable_readString. exact Ha.
Qed.

Lemma stable_blockData (msg : string) (n : Z) :
  0 <= n ->
  Stable (size <- wrap msg (readBE n) ;;
          startPos <- step size ;;
          bd <- bufSlice startPos (startPos + size) ;;
          ret (VBytes bd))
         (size <- wrap msg (readBE n) ;;
          startPos <- step size ;;
          bd <- bufSlice startPos (startPos + size) ;;
          ret (VBytes bd)).
Proof.
  intros Hn.
  apply stable_bind_post with (P := fun a => 0 <= a).
  - apply stable_wrap, stable_readBE. exact Hn.
  - apply wrap_readBE_nonneg.
  - intros a Ha. exact (stable_readBytes a VBytes Ha).
Qed.

Lemma stable_parseBlockData : Stable parseBlockData parseBlockData.
Proof. apply stable_blockData. lia. Qed.

Lemma stable_parseBlockDataLong : Stable parseBlockDataLong parseBlockDataLong.
Proof. apply stable_blockData. lia. Qed.

Lemma stable_forLoop {A} (fuel fuel' : nat) (i n : Z) (body body' : A -> M A) (acc : A) :
  (fuel <= fuel')%nat ->
  (forall acc, Stable (body acc) (body' acc)) ->
  Stable (forLoop fuel i n body acc) (forLoop fuel' i n body' acc).
Proof.
  intros Hle Hbody. revert fuel' Hle i acc.
  induction fuel as [| fuel IH]; intros fuel' Hle i acc.
  - destruct fuel'; simpl; destruct (i <? n);
      first [apply stable_errorf | apply stable_ret].
  - destruct fuel' as [| fuel']; [lia |]. simpl.
    destruct (i <? n); [| apply stable_ret].
    apply stable_bind; [apply Hbody |]. intros acc'. apply IH. lia.
Qed.

Create HintDb stable.
#[export] Hint Resolve stable_ret stable_fail stable_errorf stable_newHandle
  stable_newDeferredHandle stable_getHandles stable_setHandle stable_fillHandle
  stable_newClazz stable_deref stable_setClazz stable_logTag stable_liftR
  stable_readUInt8 stable_readUInt16 stable_readUInt32 stable_readFloat32
  stable_readFloat64 stable_readInt8 stable_readInt16 stable_readInt32
  stable_readInt64 stable_utf stable_utfLong stable_parseBlockData
  stable_parseBlockDataLong : stable.
#[export] Hint Extern 1 (Stable (readString _ _) _) =>
  apply stable_readString; lia : stable.

(** Decompose a goal along the shape of the two computations. *)
Ltac stable_step :=
  match goal with
  | |- Stable (bind _ _) (bind _ _) => apply stable_bind; [| intros ?]
  | |- Stable (wrap _ _) (wrap _ _) => apply stable_wrap
  | |- Stable (ret _) _ => apply stable_ret
  | |- Stable (fail _) _ => apply stable_fail
  | |- Stable (errorf _) _ => apply stable_errorf
  | |- Stable (forLoop _ _ _ _ _) (forLoop _ _ _ _ _) =>
      apply stable_forLoop; [assumption | intros ?]
  | |- Stable (if ?b then _ else _) (if ?b then _ else _) => destruct b
  | |- Stable (match ?x with _ => _ end) (match ?x with _ => _ end) => destruct x
  | |- Stable _ _ => solve [auto with stable]
  end.

Ltac stable := repeat stable_step.

Lemma stable_parseReference : Stable parseReference parseReference.
Proof. unfold parseReference. stable. Qed.

Lemma stable_parseString : Stable (parseString) (parseString).
Proof. unfold parseString. stable. Qed.

Lemma stable_parseLongString : Stable parseLongString parseLongString.
Proof. unfold parseLongString. stable. Qed.

#[export] Hint Resolve stable_parseReference stable_parseString
  stable_parseLongString : stable.
Section StableParsers.

Variables content content' : allowList -> M Value.
Variables fuel fuel' : nat.
Hypothesis Hcontent : forall a, Stable (content a) (content' a).
Hypothesis Hfuel : (fuel <= fuel')%nat.

Lemma stable_primitiveHandlers (t : Z) :
  StableOpt (primitiveHandlers content t) (primitiveHandlers content' t).
Proof.
  unfold primitiveHandlers, StableOpt.
  repeat match goal with
         | |- context [if ?b then _ else _] => destruct b
         end; try exact I; stable.
Qed.

Lemma stable_fieldDesc : Stable (fieldDesc content) (fieldDesc content').
Proof. unfold fieldDesc. stable. Qed.

Lemma stable_annotationsLoop (n n' : nat) (a : allowList) (anns : list Value) :
  (n <= n')%nat ->
  Stable (annotationsLoop content n a anns) (annotationsLoop content' n' a anns).
Proof.
  revert n' anns. induction n as [| n IH]; intros n' anns Hle.
  - simpl. stable.
  - destruct n' as [| n']; [lia |]. simpl.
    apply stable_bind; [stable |]. intros ann.
    destruct ann; try (apply IH; lia). stable.
Qed.

Lemma stable_annotations (a : allowList) :
  Stable (annotations content fuel a) (annotations content' fuel' a).
Proof. apply stable_annotationsLoop. exact Hfuel. Qed.

Lemma stable_classDesc : Stable (classDesc content) (classDesc content').
Proof. unfold classDesc. stable. Qed.

Hint Resolve stable_fieldDesc stable_annotations stable_classDesc : stable.

Lemma stable_parseClassDesc :
  Stable (parseClassDesc content fuel) (parseClassDesc content' fuel').
Proof.
  unfold parseClassDesc. stable.
Qed.

Lemma stable_parseClass : Stable (parseClass content) (parseClass content').
Proof. unfold parseClass. stable. Qed.

Lemma stable_parseArray :
  Stable (parseArray content fuel) (parseArray content' fuel').
Proof.
  unfold parseArray. stable.
  match goal with
  | |- context [primitiveHandlers content ?t] =>
      pose proof (stable_primitiveHandlers t) as Hh; unfold StableOpt in Hh;
      destruct (primitiveHandlers content t) as [h |],
               (primitiveHandlers content' t) as [h' |]; try contradiction
  end; stable.
Qed.

Lemma stable_parseEnum : Stable (parseEnum content) (parseEnum content').
Proof. unfold parseEnum. stable. Qed.

Lemma stable_valuesLoop (fs : list field) (vals : gmap string Value) :
  Stable (valuesLoop content fs vals) (valuesLoop content' fs vals).
Proof.
  revert vals. induction fs as [| f fs IH]; intros vals; simpl; [stable |].
  pose proof (stable_primitiveHandlers (f_typeName f)) as Hh. unfold StableOpt in Hh.
  destruct (primitiveHandlers content (f_typeName f)) as [h |],
           (primitiveHandlers content' (f_typeName f)) as [h' |];
    try contradiction; [| stable].
  apply stable_bind; [stable |]. intros v. apply IH.
Qed.

Lemma stable_values (cls : nat) : Stable (values content cls) (values content' cls).
Proof.
  unfold values. apply stable_bind; [stable |]. intros c. apply stable_valuesLoop.
Qed.

Hint Resolve stable_values : stable.

Lemma stable_annotationsAsMap (cls : nat) (isBlock : bool) :
  Stable (annotationsAsMap content fuel cls isBlock)
         (annotationsAsMap content' fuel' cls isBlock).
Proof. unfold annotationsAsMap. stable. Qed.

Hint Resolve stable_annotationsAsMap : stable.

Lemma stable_classData (cls : option nat) :
  Stable (classData content fuel cls) (classData content' fuel' cls).
Proof. unfold classData. stable. Qed.

Hint Resolve stable_classData : stable.

Lemma stable_recursiveClassData (n n' : nat) (cls : option nat)
    (obj : gmap string Value) (seen : gset nat) :
  (n <= n')%nat ->
  Stable (recursiveClassData content fuel n cls obj seen)
         (recursiveClassData content' fuel' n' cls obj seen).
Proof.
  revert n' cls obj seen. induction n as [| n IH]; intros n' cls obj seen Hle.
  - destruct cls, n'; simpl; stable.
  - destruct n' as [| n']; [lia |]. destruct cls as [p |]; simpl; [| stable].
    apply stable_bind; [stable |]. intros c.
    apply stable_bind.
    + destruct (super c) as [sp |]; [| stable].
      destruct (decide (sp ∈ {[p]} ∪ seen)); [stable |]. apply IH. lia.
    + intros os. stable.
Qed.

Lemma stable_parseObject :
  Stable (parseObject content fuel) (parseObject content' fuel').
Proof.
  unfold parseObject. stable.
  apply stable_recursiveClassData. exact Hfuel.
Qed.

Lemma stable_knownParsers (n : TypeName) :
  StableOpt (knownParsers content fuel n) (knownParsers content' fuel' n).
Proof.
  destruct n; unfold knownParsers, StableOpt;
    first [ exact I
          | apply stable_parseEnum | apply stable_parseClassDesc
          | apply stable_parseClass | apply stable_parseArray
          | apply stable_parseObject
          | unfold parseNull, parseEndBlockData; stable ].
Qed.

Lemma stable_contentBody (a : allowList) :
  Stable (contentBody content fuel a) (contentBody content' fuel' a).
Proof.
  unfold contentBody. stable.
  match goal with
  | |- context [knownParsers content fuel ?n] =>
      pose proof (stable_knownParsers n) as Hk; unfold StableOpt in Hk;
      destruct (knownParsers content fuel n), (knownParsers content' fuel' n);
        try contradiction
  end; stable.
Qed.

End StableParsers.

(** Every successful run of [content] is repeated on a longer input and with
    more fuel. *)
Lemma stable_content (fuel fuel' : nat) (a : allowList) :
  (fuel <= fuel')%nat -> Stable (content fuel a) (content fuel' a).
Proof.
  revert fuel' a. induction fuel as [| fuel IH]; intros fuel' a Hle.
  - simpl. stable.
  - destruct fuel' as [| fuel']; [lia |]. simpl.
    apply stable_contentBody; [| lia]. intros a'. apply IH. lia.
Qed.

Lemma stable_magic : Stable magic magic.
Proof. unfold magic. stable. Qed.

Lemma stable_version : Stable version version.
Proof.
  intros s a s' Hb H. unfold version in *.
  destruct (readUInt16 s) as [[ver | e] s1] eqn:Hrd; [| discriminate H].
  destruct (stable_readUInt16 s ver s1 Hb Hrd) as [Hb1 Hext].
  destruct (negb (ver =? 5)) eqn:Hver; [discriminate H |].
  injection H as <- <-. split; [exact Hb1 |].
  intros q. rewrite Hext, Hver. reflexivity.
Qed.

(** The byte under the cursor when the old input is exhausted is the first
    byte of what was appended. *)
Lemma peek_extend (b : byte) (q : list byte) (s : state) :
  pos s = len (buf s) -> peek 1 (extend (b :: q) s) = [b].
Proof.
  intros Hp. unfold peek, slice, extend. simpl buf. simpl pos.
  rewrite Hp. replace (len (buf s) + 1 - len (buf s)) with 1 by lia.
  unfold len. rewrite Nat2Z.id. rewrite drop_app_length. reflexivity.
Qed.

Lemma beUint_single (b : byte) : beUint [b] = byteZ b.
Proof. unfold beUint. simpl. lia. Qed.

(** A byte that is not a tag stops the loop. *)
Lemma parseLoop_unknown_tag (n fuel : nat) (acc : list Value) (s : state) :
  pos s + 1 <= len (buf s) ->
  let tc := beUint (peek 1 s) in
  ~ 0x70 <= tc <= 0x7e ->
  parseLoop (S n) (S fuel) acc s = (Err (New (UnknownTag tc)), advance 1 s).
Proof.
  intros Hlen tc Hout. cbn [parseLoop].
  destruct (Z.ltb_spec (pos s) (len (buf s))); [| lia].
  unfold bind. rewrite content_unknown_tag by assumption. reflexivity.
Qed.

Lemma parseLoop_then_unknown_tag (n fuel : nat) (acc vs : list Value) (s s' : state) :
  inBounds s ->
  parseLoop n fuel acc s = (Ok vs, s') ->
  forall (b : byte) (q : list byte) (n' fuel' : nat),
    ~ 0x70 <= byteZ b <= 0x7e ->
    (n < n')%nat -> (fuel <= fuel')%nat -> (0 < fuel')%nat ->
    parseLoop n' fuel' acc (extend (b :: q) s)
    = (Err (New (UnknownTag (byteZ b))), advance 1 (extend (b :: q) s')).
Proof.
  revert acc s. induction n as [| n IH]; intros acc s Hb Hrun b q n' fuel' Hnt Hn Hf Hf0.
  - (* the old loop stopped at once: the input was exhausted *)
    assert (Hend : pos s = len (buf s) /\ s' = s).
    { simpl in Hrun. unfold inBounds in Hb.
      destruct (Z.ltb_spec (pos s) (len (buf s))); [discriminate Hrun |].
      injection Hrun as _ <-. split; [lia | reflexivity]. }
    destruct Hend as [Hpos ->].
    destruct n' as [| n']; [lia |]. destruct fuel' as [| fuel']; [lia |].
    pose proof (parseLoop_unknown_tag n' fuel' acc (extend (b :: q) s)) as Hu.
    rewrite (peek_extend b q s Hpos), beUint_single in Hu.
    apply Hu; [| exact Hnt].
    simpl. rewrite len_app. unfold len at 2. simpl length. lia.
  - cbn [parseLoop] in Hrun.
    destruct (Z.ltb_spec (pos s) (len (buf s))) as [Hlt | Hge].
    + unfold bind in Hrun.
      destruct (content fuel None s) as [[nxt | e] s1] eqn:Hc; [| discriminate Hrun].
      destruct (stable_content fuel fuel' None Hf s nxt s1 Hb Hc) as [Hb1 Hext].
      destruct n' as [| n']; [lia |]. cbn [parseLoop].
      simpl buf. simpl pos.
      destruct (Z.ltb_spec (pos s) (len (buf s ++ b :: q))) as [_ | Hge'].
      2:{ rewrite len_app in Hge'. pose proof (len_nonneg (b :: q)). lia. }
      unfold bind. rewrite Hext.
      apply (IH (acc ++ [nxt]) s1 Hb1 Hrun); [exact Hnt | lia | exact Hf | exact Hf0].
    + assert (Hend : pos s = len (buf s) /\ s' = s).
      { unfold inBounds in Hb. injection Hrun as _ <-. split; [lia | reflexivity]. }
      destruct Hend as [Hpos ->].
      destruct n' as [| n']; [lia |]. destruct fuel' as [| fuel']; [lia |].
      pose proof (parseLoop_unknown_tag n' fuel' acc (extend (b :: q) s)) as Hu.
      rewrite (peek_extend b q s Hpos), beUint_single in Hu.
      apply Hu; [| exact Hnt].
      simpl. rewrite len_app. unfold len at 2. simpl length. lia.
Qed.

Lemma inBounds_newParser (b : list byte) : inBounds (newParser b).
Proof. unfold inBounds, newParser. simpl. pose proof (len_nonneg b). lia. Qed.

Lemma extend_newParser (p q : list byte) : extend q (newParser p) = newParser (p ++ q).
Proof. reflexivity. Qed.

(** Input that goes on after a complete stream is parsed as further content
    of that stream: a byte that is not a tag, such as the first byte of a
    second stream header, is an error. *)
Lemma runParser_then_unknown_tag (fuel fuel' : nat) (p q : list byte) (b : byte)
    (vs : list Value) (s' : state) :
  runParser fuel p = (Ok vs, s') ->
  ~ 0x70 <= byteZ b <= 0x7e ->
  (fuel < fuel')%nat ->
  runParser fuel' (p ++ b :: q)
  = (Err (New (UnknownTag (byteZ b))), advance 1 (extend (b :: q) s')).
Proof.
  intros Hrun Hnt Hf. unfold runParser, bind in *.
  destruct (magic (newParser p)) as [[[] | e] s1] eqn:Hm; [| discriminate Hrun].
  destruct (stable_magic _ _ _ (inBounds_newParser p) Hm) as [Hb1 Hm'].
  destruct (version s1) as [[[] | e] s2] eqn:Hv; [| discriminate Hrun].
  destruct (stable_version _ _ _ Hb1 Hv) as [Hb2 Hv'].
  rewrite <- extend_newParser, Hm', Hv'.
  apply (parseLoop_then_unknown_tag fuel fuel [] vs s2 s' Hb2 Hrun);
    [exact Hnt | lia | lia | lia].
Qed.

(** A stream that parses starts with the byte 0xAC of STREAM_MAGIC. *)
Lemma runParser_magic (fuel : nat) (q : list byte) (vs : list Value) (s' : state) :
  runParser fuel q = (Ok vs, s') ->
  exists b q', q = b :: q' /\ byteZ b = 0xac.
Proof.
  intros Hrun. unfold runParser, bind in Hrun.
  destruct (magic (newParser q)) as [[[] | e] s1] eqn:Hm; [| discriminate Hrun].
  clear Hrun. unfold magic, bind, readUInt16, readBE, bind, bufSlice, ret in Hm.
  destruct (step 2 (newParser q)) as [[p0 | e] s0] eqn:Hstep; [| discriminate Hm].
  apply step_inv in Hstep. destruct Hstep as (-> & -> & Hle).
  destruct (Z.eqb_spec (beUint (slice (pos (newParser q)) (pos (newParser q) + 2)
                                  (buf (advance 2 (newParser q))))) 0xaced)
    as [Heq | Hne]; [| discriminate Hm].
  simpl in Heq, Hle. unfold len in Hle.
  destruct q as [| b0 [| b1 q']]; simpl in Hle; try lia.
  exists b0, (b1 :: q'). split; [reflexivity |].
  unfold slice in Heq. simpl in Heq. unfold beUint in Heq. simpl in Heq.
  pose proof (byteZ_range b0). pose proof (byteZ_range b1). lia.
Qed.

(** C3 (as the code has it).  The stream header is read once, at the start
    of the input; everything after it is parsed as content.  So for two
    valid complete streams [p] and [q] the concatenation does not parse to
    the two value sequences: after the values of [p] the parser meets the
    header byte 0xAC of [q] where a tag is expected and fails with
    UnknownTag.  ([fp] and [fq] are any amounts of fuel with which the two
    streams parse, [fuel] any larger amount than [fp].) *)
Theorem concat_second_header_rejected (fp fq fuel : nat) (p q : list byte)
    (vp vq : list Value) :
  ParseSerializedObjectFuel fp p = Ok vp ->
  ParseSerializedObjectFuel fq q = Ok vq ->
  (fp < fuel)%nat ->
  ParseSerializedObjectFuel fuel (p ++ q) = Err (New (UnknownTag 0xac)).
Proof.
  unfold ParseSerializedObjectFuel.
  intros Hp Hq Hfuel.
  destruct (runParser fp p) as [rp sp] eqn:Hrp. simpl in Hp. subst rp.
  destruct (runParser fq q) as [rq sq] eqn:Hrq. simpl in Hq. subst rq.
  destruct (runParser_magic _ _ _ _ Hrq) as (b & q' & -> & Hb).
  rewrite (runParser_then_unknown_tag fp fuel p q' b vp sp Hrp).
  - simpl. rewrite Hb. reflexivity.
  - rewrite Hb. lia.
  - exact Hfuel.
Qed.

Lemma concat_second_header_rejected_witness :
  ParseSerializedObjectFuel 3 (unhex "aced000574000161" ++ unhex "aced000570")
  = Err (New (UnknownTag 0xac)).
Proof.
  apply (concat_second_header_rejected 2 2 3
           (unhex "aced000574000161") (unhex "aced000570") [VString "a"] [VNil]);
    [vm_compute; reflexivity | vm_compute; reflexivity | lia].
Defined.

(** The same for the parser with the fuel it gives itself. *)
Corollary ParseSerializedObject_concat (p q : list byte) (vp vq : list Value) :
  ParseSerializedObject p = Ok vp ->
  ParseSerializedObject q = Ok vq ->
  ParseSerializedObject (p ++ q) = Err (New (UnknownTag 0xac)).
Proof.
  unfold ParseSerializedObject, ParseSerializedObjectFuel. intros Hp Hq.
  destruct (runParser (2 * length p + 1) p) as [rp sp] eqn:Hrp. simpl in Hp. subst rp.
  destruct (runParser (2 * length q + 1) q) as [rq sq] eqn:Hrq. simpl in Hq. subst rq.
  destruct (runParser_magic _ _ _ _ Hrq) as (b & q' & -> & Hb).
  rewrite (runParser_then_unknown_tag (2 * length p + 1) (2 * length (p ++ b :: q') + 1)
             p q' b vp sp Hrp).
  - simpl. rewrite Hb. reflexivity.
  - rewrite Hb. lia.
  - rewrite length_app. simpl. lia.
Qed.

(** C3 as stated fails already for two streams without content. *)
Lemma concat_counterexample :
  ParseSerializedObject (unhex "aced0005") = Ok [] /\
  ParseSerializedObject (unhex "aced0005" ++ unhex "aced0005") <> Ok ([] ++ []).
Proof. split; [reflexivity |]. vm_compute. intros H. discriminate H. Qed.

(** ** Fuel *)

Lemma extend_nil (s : state) : extend [] s = s.
Proof. destruct s. unfold extend. simpl. rewrite app_nil_r. reflexivity. Qed.

(** A successful run is the same run with more fuel. *)
Lemma content_fuel_mono (fuel fuel' : nat) (a : allowList) (s s' : state) (v : Value) :
  inBounds s -> (fuel <= fuel')%nat ->
  content fuel a s = (Ok v, s') -> content fuel' a s = (Ok v, s').
Proof.
  intros Hb Hle H.
  destruct (stable_content fuel fuel' a Hle s v s' Hb H) as [_ Hext].
  specialize (Hext []). rewrite !extend_nil in Hext. exact Hext.
Qed.

Lemma parseLoop_fuel_mono (n n' fuel fuel' : nat) (acc vs : list Value) (s s' : state) :
  inBounds s -> (n <= n')%nat -> (fuel <= fuel')%nat ->
  parseLoop n fuel acc s = (Ok vs, s') -> parseLoop n' fuel' acc s = (Ok vs, s').
Proof.
  revert n' acc s. induction n as [| n IH]; intros n' acc s Hb Hn Hf H.
  - simpl in H. destruct (pos s <? len (buf s)) eqn:Hc; [discriminate H |].
    destruct n'; simpl; rewrite Hc; exact H.
  - destruct n' as [| n']; [lia |]. cbn [parseLoop] in *.
    destruct (pos s <? len (buf s)); [| exact H].
    unfold bind in *.
    destruct (content fuel None s) as [[nxt | e] s1] eqn:Hc; [| discriminate H].
    destruct (stable_content fuel fuel' None Hf s nxt s1 Hb Hc) as [Hb1 _].
    rewrite (content_fuel_mono fuel fuel' None s s1 nxt Hb Hf Hc).
    apply IH; [exact Hb1 | lia | exact Hf | exact H].
Qed.

Lemma runParser_fuel_mono (fuel fuel' : nat) (b : list byte) (vs : list Value)
    (s : state) :
  (fuel <= fuel')%nat ->
  runParser fuel b = (Ok vs, s) -> runParser fuel' b = (Ok vs, s).
Proof.
  intros Hle H. unfold runParser, bind in *.
  destruct (magic (newParser b)) as [[[] | e] s1] eqn:Hm; [| discriminate H].
  destruct (stable_magic _ _ _ (inBounds_newParser b) Hm) as [Hb1 _].
  destruct (version s1) as [[[] | e] s2] eqn:Hv; [| discriminate H].
  destruct (stable_version _ _ _ Hb1 Hv) as [Hb2 _].
  apply (parseLoop_fuel_mono fuel fuel' fuel fuel' [] vs s2 s Hb2 Hle Hle H).
Qed.

(** ** The test suite *)

(** TestDeserializeArrayList: the list was written with the two elements
    "foo" and 123, and the test expects ["foo"]. *)
Example test_arrayList :
  match ParseSerializedObject arrayListStream with
  | Ok [_; VMap obj; _] =>
      obj !! "size" = Some (VInt32 2) /\ obj !! "value" = Some (VSlice [VString "foo"])
  | _ => False
  end.
Proof. vm_compute. split; reflexivity. Qed.

(** TestDeserializeHashSet: the set was written with the two members "foo"
    and 123, and the test expects {"foo": true}. *)
Example test_hashSet :
  match ParseSerializedObject hashSetStream with
  | Ok [_; VMap obj; _] => obj !! "value" = Some (VBoolMap {[ "foo" := true ]})
  | _ => False
  end.
Proof. vm_compute. reflexivity. Qed.

(** TestDeserializePrimitives. *)
Example test_primitives :
  match ParseSerializedObject primStream with
  | Ok [_; VMap obj; _] =>
      obj !! "i" = Some (VInt32 (-123)) /\ obj !! "s" = Some (VInt16 (-456)) /\
      obj !! "l" = Some (VInt64 (-789)) /\ obj !! "by" = Some (VInt8 (-21)) /\
      obj !! "bo" = Some (VBool true) /\
      obj !! "c" = Some (VString (runeString 0x1234))
  | _ => False
  end.
Proof. vm_compute. repeat split; reflexivity. Qed.

(** ** Counting handles against tags *)

Lemma bal_ret {A} (a : A) : Bal 0 (ret a).
Proof. intros s a' s' H. injection H as _ <-. lia. Qed.

Lemma bal_fail {A} (d : Z) (e : error) : Bal d (@fail A e).
Proof. intros s a s' H. discriminate H. Qed.

Lemma bal_errorf {A} (d : Z) (k : kind) : Bal d (@errorf A k).
Proof. apply bal_fail. Qed.

Lemma bal_bind {A B} (d1 d2 : Z) (m : M A) (k : A -> M B) :
  Bal d1 m -> (forall a, Bal d2 (k a)) -> Bal (d1 + d2) (bind m k).
Proof.
  intros Hm Hk s b s' H. unfold bind in H.
  destruct (m s) as [[a | e] s1] eqn:Hms; [| discriminate H].
  rewrite (Hk a s1 b s' H), (Hm s a s1 Hms). lia.
Qed.

Lemma bal_bind0 {A B} (d : Z) (m : M A) (k : A -> M B) :
  Bal 0 m -> (forall a, Bal d (k a)) -> Bal d (bind m k).
Proof. intros Hm Hk. replace d with (0 + d) by lia. apply bal_bind; assumption. Qed.

Lemma bal_wrap {A} (d : Z) (msg : string) (m : M A) : Bal d m -> Bal d (wrap msg m).
Proof.
  intros Hm s a s' H. apply wrap_ok_inv in H. exact (Hm s a s' H).
Qed.

Lemma same_ret {A} (a : A) : Same (ret a).
Proof. intros s a' s' H. injection H as _ <-. repeat split. Qed.

Lemma same_fail {A} (e : error) : Same (@fail A e).
Proof. intros s a s' H. discriminate H. Qed.

Lemma same_bind {A B} (m : M A) (k : A -> M B) :
  Same m -> (forall a, Same (k a)) -> Same (bind m k).
Proof.
  intros Hm Hk s b s' H. unfold bind in H.
  destruct (m s) as [[a | e] s1] eqn:Hms; [| discriminate H].
  destruct (Hm s a s1 Hms) as (H1 & H2 & H3).
  destruct (Hk a s1 b s' H) as (H1' & H2' & H3').
  repeat split; congruence.
Qed.

Lemma same_wrap {A} (msg : string) (m : M A) : Same m -> Same (wrap msg m).
Proof. intros Hm s a s' H. apply wrap_ok_inv in H. exact (Hm s a s' H). Qed.

Lemma same_step (cnt : Z) : Same (step cnt).
Proof.
  intros s a s' H. apply step_inv in H. destruct H as (_ & -> & _). repeat split.
Qed.

Lemma same_bufSlice (lo hi : Z) : Same (bufSlice lo hi).
Proof. intros s a s' H. injection H as _ <-. repeat split. Qed.

Lemma same_readBE (n : Z) : Same (readBE n).
Proof.
  unfold readBE. apply same_bind; [apply same_step |]. intros p.
  apply same_bind; [apply same_bufSlice |]. intros b. apply same_ret.
Qed.

Lemma same_readString (cnt : Z) (asHex : bool) : Same (readString cnt asHex).
Proof.
  unfold readString. apply same_bind; [apply same_wrap, same_step |]. intros p.
  apply same_bind; [apply same_bufSlice |]. intros b.
  destruct asHex; apply same_ret.
Qed.

Lemma same_utf : Same utf.
Proof.
  unfold utf. apply same_bind; [apply same_wrap, same_readBE |]. intros n.
  apply same_wrap, same_readString.
Qed.

Lemma same_utfLong : Same utfLong.
Proof.
  unfold utfLong. apply same_bind; [apply same_wrap, same_readBE |]. intros hi.
  destruct (negb (hi =? 0)); [apply same_fail |].
  apply same_bind; [apply same_wrap, same_readBE |]. intros lo.
  apply same_wrap, same_readString.
Qed.

Lemma bal_same {A} (m : M A) : Same m -> Bal 0 m.
Proof.
  intros Hsame s a s' H. destruct (Hsame s a s' H) as (H1 & H2 & H3).
  unfold surplus. rewrite H1, H2, H3. lia.
Qed.

Lemma bal_readBE (n : Z) : Bal 0 (readBE n).
Proof. apply bal_same, same_readBE. Qed.

Lemma bal_signed (n w : Z) : Bal 0 (x <- readBE n ;; ret (signed w x)).
Proof.
  apply bal_same, same_bind; [apply same_readBE | intros; apply same_ret].
Qed.

Lemma bal_readString (cnt : Z) (asHex : bool) : Bal 0 (readString cnt asHex).
Proof. apply bal_same, same_readString. Qed.

Lemma bal_utf : Bal 0 utf.
Proof. apply bal_same, same_utf. Qed.

Lemma bal_utfLong : Bal 0 utfLong.
Proof. apply bal_same, same_utfLong. Qed.

Lemma bal_step (cnt : Z) : Bal 0 (step cnt).
Proof. apply bal_same, same_step. Qed.

Lemma bal_bufSlice (lo hi : Z) : Bal 0 (bufSlice lo hi).
Proof. apply bal_same, same_bufSlice. Qed.

Lemma bal_getHandles : Bal 0 getHandles.
Proof. apply bal_same. intros s a s' H. injection H as _ <-. repeat split. Qed.

Lemma bal_deref (p : nat) : Bal 0 (deref p).
Proof.
  apply bal_same. intros s a s' H. unfold deref in H.
  destruct (classes s !! p); [| discriminate H]. injection H as _ <-. repeat split.
Qed.

Lemma bal_liftR {A} (r : result A) : Bal 0 (liftR r).
Proof.
  apply bal_same. intros s a s' H. injection H as _ <-. repeat split.
Qed.

Lemma bal_newHandle (v : Value) : Bal (-1) (newHandle v).
Proof.
  intros s a s' H. injection H as _ <-. unfold surplus. simpl.
  rewrite length_app. simpl. lia.
Qed.

Lemma bal_newDeferredHandle : Bal (-1) newDeferredHandle.
Proof.
  intros s a s' H. injection H as _ <-. unfold surplus. simpl.
  rewrite length_app. simpl. lia.
Qed.

Lemma bal_setHandle (idx : nat) (v : Value) : Bal 0 (setHandle idx v).
Proof.
  intros s a s' H. unfold setHandle in H.
  destruct (decide (idx < length (handles s))%nat); [| discriminate H].
  injection H as _ <-. unfold surplus. simpl. rewrite length_insert. lia.
Qed.

Lemma bal_fillHandle (idx : nat) (v : Value) : Bal 0 (fillHandle idx v).
Proof.
  intros s a s' H. unfold fillHandle in H.
  destruct (decide (idx < length (handles s))%nat); [| discriminate H].
  injection H as _ <-. unfold surplus. simpl. rewrite length_insert. lia.
Qed.

Lemma countHandleTags_app (l : list TypeName) (n : TypeName) :
  countHandleTags (l ++ [n]) = (countHandleTags l + (if producesHandle n then 1 else 0))%nat.
Proof.
  unfold countHandleTags. rewrite list.filter_app, length_app.
  destruct n; reflexivity.
Qed.

Lemma bal_logTag (n : TypeName) : Bal (if producesHandle n then 1 else 0) (logTag n).
Proof.
  intros s a s' H. injection H as _ <-. unfold surplus. simpl.
  rewrite countHandleTags_app. destruct (producesHandle n); lia.
Qed.

(** Assignments to members other than the name do not change which
    descriptors have a short name. *)
Lemma shortClasses_alter (f : clazz -> clazz) (p : nat) (cs : list clazz) :
  (forall c, name (f c) = name c) ->
  shortClasses (alter f p cs) = shortClasses cs.
Proof.
  intros Hf. unfold shortClasses. revert p.
  induction cs as [| c cs IH]; intros p; [reflexivity |].
  destruct p as [| p]; simpl.
  - rewrite !list.filter_cons, Hf.
    destruct (decide (strlen (name c) < 2)); reflexivity.
  - rewrite !list.filter_cons. specialize (IH p).
    destruct (decide (strlen (name c) < 2));
      [rewrite !length_cons; f_equal |]; apply IH.
Qed.

Lemma bal_setClazz (p : nat) (f : clazz -> clazz) :
  (forall c, name (f c) = name c) -> Bal 0 (setClazz p f).
Proof.
  intros Hf s a s' H. injection H as _ <-. unfold surplus. simpl.
  rewrite shortClasses_alter by exact Hf. lia.
Qed.

Lemma bal_bind_handle {A B} (m : M A) (k : A -> M B) :
  Bal (-1) m -> (forall a, Bal 0 (k a)) -> Bal (-1) (bind m k).
Proof. intros Hm Hk. exact (bal_bind (-1) 0 m k Hm Hk). Qed.

Lemma bal_forLoop {A} (fuel : nat) (i n : Z) (body : A -> M A) (acc : A) :
  (forall acc, Bal 0 (body acc)) -> Bal 0 (forLoop fuel i n body acc).
Proof.
  intros Hbody. revert i acc. induction fuel as [| fuel IH]; intros i acc; simpl.
  - destruct (i <? n); [apply bal_errorf | apply bal_ret].
  - destruct (i <? n); [| apply bal_ret].
    apply bal_bind0; [apply Hbody |]. intros acc'. apply IH.
Qed.

Create HintDb bal.
#[export] Hint Resolve bal_ret bal_fail bal_errorf bal_newHandle
  bal_newDeferredHandle bal_setHandle bal_fillHandle bal_getHandles bal_deref
  bal_liftR bal_logTag bal_readBE bal_signed bal_readString bal_utf bal_utfLong
  bal_step bal_bufSlice : bal.
#[export] Hint Extern 1 (Bal 0 (setClazz _ _)) =>
  apply bal_setClazz; intros []; reflexivity : bal.
#[export] Hint Extern 1 (Bal 0 readUInt8) => apply bal_readBE : bal.
#[export] Hint Extern 1 (Bal 0 readUInt16) => apply bal_readBE : bal.
#[export] Hint Extern 1 (Bal 0 readUInt32) => apply bal_readBE : bal.
#[export] Hint Extern 1 (Bal 0 readFloat32) => apply bal_readBE : bal.
#[export] Hint Extern 1 (Bal 0 readFloat64) => apply bal_readBE : bal.
#[export] Hint Extern 1 (Bal 0 readInt8) => apply bal_signed : bal.
#[export] Hint Extern 1 (Bal 0 readInt16) => apply bal_signed : bal.
#[export] Hint Extern 1 (Bal 0 readInt32) => apply bal_signed : bal.
#[export] Hint Extern 1 (Bal 0 readInt64) => apply bal_signed : bal.

(** Decompose a goal along the shape of the computation; in a sequence the
    handle is registered by the first part or by the rest. *)
Ltac bal_step :=
  match goal with
  | |- Bal _ (bind _ _) =>
      first [ apply bal_bind0; [solve [bal] | intros ?]
            | apply bal_bind_handle; [solve [bal] | intros ?] ]
  | |- Bal _ (wrap _ _) => apply bal_wrap
  | |- Bal _ (forLoop _ _ _ _ _) => apply bal_forLoop; intros ?
  | |- Bal _ (if ?b then _ else _) => destruct b
  | |- Bal _ (match primitiveHandlers _ _ with _ => _ end) => fail 1
  | |- Bal _ (match ?x with _ => _ end) => destruct x
  | |- Bal _ _ => solve [auto with bal]
  end
with bal := repeat bal_step.

Lemma bal_parseReference : Bal 0 parseReference.
Proof. unfold parseReference. bal. Qed.

Lemma bal_parseBlockData : Bal 0 parseBlockData.
Proof. unfold parseBlockData. bal. Qed.

Lemma bal_parseBlockDataLong : Bal 0 parseBlockDataLong.
Proof. unfold parseBlockDataLong. bal. Qed.

Lemma bal_parseString : Bal (-1) parseString.
Proof. unfold parseString. bal. Qed.

Lemma bal_parseLongString : Bal (-1) parseLongString.
Proof. unfold parseLongString. bal. Qed.

#[export] Hint Resolve bal_parseReference bal_parseBlockData bal_parseBlockDataLong
  bal_parseString bal_parseLongString : bal.

Lemma shortClasses_app (cs : list clazz) (c : clazz) :
  shortClasses (cs ++ [c])
  = (shortClasses cs + (if decide (strlen (name c) < 2)%Z then 1 else 0))%nat.
Proof.
  unfold shortClasses. rewrite list.filter_app, length_app.
  rewrite list.filter_cons, list.filter_nil.
  destruct (decide (strlen (name c) < 2)); reflexivity.
Qed.

Lemma alter_last {A} (f : A -> A) (l : list A) (x : A) :
  alter f (length l) (l ++ [x]) = l ++ [f x].
Proof.
  replace (length l) with (length l + 0)%nat by lia.
  rewrite alter_app_r. reflexivity.
Qed.

Section Balance.

Variable content : allowList -> M Value.
Variable fuel : nat.
Hypothesis Hcontent : forall a, Bal 0 (content a).

Hint Resolve Hcontent : bal.

Lemma bal_primitiveHandlers (t : Z) : BalOpt 0 (primitiveHandlers content t).
Proof.
  unfold primitiveHandlers, BalOpt.
  repeat match goal with
         | |- context [if ?b then _ else _] => destruct b
         end; try exact I; bal.
Qed.

(** Case analysis on a primitive handler, keeping what is known of it. *)
Ltac bal_handler :=
  match goal with
  | |- context [primitiveHandlers content ?t] =>
      let H := fresh "Hh" in
      pose proof (bal_primitiveHandlers t) as H; unfold BalOpt in H;
      destruct (primitiveHandlers content t)
  end.

Lemma bal_fieldDesc : Bal 0 (fieldDesc content).
Proof. unfold fieldDesc. bal. Qed.

Lemma bal_annotationsLoop (n : nat) (a : allowList) (anns : list Value) :
  Bal 0 (annotationsLoop content n a anns).
Proof.
  revert anns. induction n as [| n IH]; intros anns; simpl; [bal |].
  apply bal_bind0; [bal |]. intros ann. destruct ann; try apply IH. bal.
Qed.

Lemma bal_annotations (a : allowList) : Bal 0 (annotations content fuel a).
Proof. apply bal_annotationsLoop. Qed.

Lemma bal_classDesc : Bal 0 (classDesc content).
Proof. unfold classDesc. bal. Qed.

Hint Resolve bal_fieldDesc bal_annotations bal_classDesc : bal.

(** A class descriptor with a name of two bytes or more registers its
    handle; one with a shorter name is given up on, without a handle, and
    stays in the store. *)
Lemma bal_parseClassDesc : Bal (-1) (parseClassDesc content fuel).
Proof.
  intros s a s' H. unfold parseClassDesc in H. unfold bind at 1 2 3 in H.
  unfold newClazz at 1 in H. cbv beta iota in H.
  set (s0 := mkState (buf s) (pos s) (handles s) (classes s ++ [emptyClazz]) (tags s)) in H.
  destruct (wrap "error reading class name" utf s0) as [[nm | e] s1] eqn:Hutf;
    [| discriminate H].
  apply wrap_ok_inv in Hutf. destruct (same_utf s0 nm s1 Hutf) as (Hh & Hc & Ht).
  unfold setClazz at 1 in H. cbv beta iota in H.
  set (s2 := mkState (buf s1) (pos s1) (handles s1)
               (alter (setName nm) (length (classes s)) (classes s1)) (tags s1)) in H.
  assert (Hs2 : surplus s2
                = surplus s - (if decide (strlen nm < 2) then 1 else 0)).
  { unfold surplus, s2. simpl. rewrite Hh, Hc, Ht. unfold s0. simpl.
    rewrite alter_last, shortClasses_app. simpl.
    destruct (decide (strlen nm < 2)); lia. }
  destruct (Z.ltb_spec (strlen nm) 2) as [Hshort | Hlong].
  - simpl in H. injection H as _ <-. rewrite Hs2.
    destruct (decide (strlen nm < 2)); lia.
  - match type of H with
    | ?rest s2 = _ => assert (Hrest : Bal (-1) rest) by bal
    end.
    rewrite (Hrest s2 a s' H), Hs2.
    destruct (decide (strlen nm < 2)); lia.
Qed.

Lemma bal_parseClass : Bal (-1) (parseClass content).
Proof. unfold parseClass. bal. Qed.

Lemma bal_parseArray : Bal (-1) (parseArray content fuel).
Proof.
  unfold parseArray. bal. bal_handler; bal.
Qed.

Lemma bal_parseEnum : Bal (-1) (parseEnum content).
Proof. unfold parseEnum. bal. Qed.

Lemma bal_valuesLoop (fs : list field) (vals : gmap string Value) :
  Bal 0 (valuesLoop content fs vals).
Proof.
  revert vals. induction fs as [| f fs IH]; intros vals; simpl; [bal |].
  bal_handler; [| bal].
  apply bal_bind0; [bal |]. intros v. apply IH.
Qed.

Lemma bal_values (cls : nat) : Bal 0 (values content cls).
Proof.
  unfold values. apply bal_bind0; [bal |]. intros c. apply bal_valuesLoop.
Qed.

Hint Resolve bal_values : bal.

Lemma bal_annotationsAsMap (cls : nat) (isBlock : bool) :
  Bal 0 (annotationsAsMap content fuel cls isBlock).
Proof. unfold annotationsAsMap. bal. Qed.

Hint Resolve bal_annotationsAsMap : bal.

Lemma bal_classData (cls : option nat) : Bal 0 (classData content fuel cls).
Proof. unfold classData. bal. Qed.

Hint Resolve bal_classData : bal.

Lemma bal_recursiveClassData (n : nat) (cls : option nat)
    (obj : gmap string Value) (seen : gset nat) :
  Bal 0 (recursiveClassData content fuel n cls obj seen).
Proof.
  revert cls obj seen. induction n as [| n IH]; intros cls obj seen.
  - destruct cls; simpl; bal.
  - destruct cls as [p |]; simpl; [| bal].
    apply bal_bind0; [bal |]. intros c.
    apply bal_bind0.
    + destruct (super c) as [sp |]; [| bal].
      destruct (decide (sp ∈ {[p]} ∪ seen)); [bal | apply IH].
    + intros os. bal.
Qed.

Hint Resolve bal_recursiveClassData : bal.

Lemma bal_parseObject : Bal (-1) (parseObject content fuel).
Proof. unfold parseObject. bal. Qed.

(** Each parser registers one handle when its tag is handle-producing, and
    none otherwise. *)
Lemma bal_knownParsers (n : TypeName) :
  BalOpt (if producesHandle n then -1 else 0) (knownParsers content fuel n).
Proof.
  destruct n; unfold knownParsers, BalOpt, producesHandle;
    first [ exact I
          | apply bal_parseEnum | apply bal_parseClassDesc | apply bal_parseClass
          | apply bal_parseArray | apply bal_parseObject
          | unfold parseNull, parseEndBlockData; bal ].
Qed.

Lemma bal_contentBody (a : allowList) : Bal 0 (contentBody content fuel a).
Proof.
  unfold contentBody. apply bal_bind0; [bal |]. intros tc.
  destruct (typeNameMax <? (tc - 112) mod 256); [bal |].
  destruct (typeNames !! Z.to_nat ((tc - 112) mod 256)) as [n |]; [| bal].
  destruct (match a with Some allowed => negb (allowed n) | None => false end); [bal |].
  pose proof (bal_knownParsers n) as Hk. unfold BalOpt in Hk.
  destruct (knownParsers content fuel n) as [parse |]; [| bal].
  replace 0 with ((if producesHandle n then 1 else 0)
                  + (if producesHandle n then -1 else 0))
    by (destruct (producesHandle n); reflexivity).
  apply bal_bind; [apply bal_logTag | intros _; exact Hk].
Qed.

End Balance.

Lemma bal_content (fuel : nat) (a : allowList) : Bal 0 (content fuel a).
Proof.
  revert a. induction fuel as [| fuel IH]; intros a; simpl; [bal |].
  apply bal_contentBody. exact IH.
Qed.

Lemma bal_parseLoop (n fuel : nat) (acc : list Value) : Bal 0 (parseLoop n fuel acc).
Proof.
  revert acc. induction n as [| n IH]; intros acc s vs s' H; simpl in H.
  - destruct (pos s <? len (buf s)); [discriminate H |]. injection H as _ <-. lia.
  - destruct (pos s <? len (buf s)); [| injection H as _ <-; lia].
    revert H. apply bal_bind0; [apply bal_content | intros nxt; apply IH].
Qed.

Lemma bal_magic : Bal 0 magic.
Proof. unfold magic. bal. Qed.

Lemma bal_version : Bal 0 version.
Proof.
  intros s a s' H. unfold version in H.
  destruct (readUInt16 s) as [[ver | e] s1] eqn:Hrd; [| discriminate H].
  destruct (negb (ver =? 5)); [discriminate H |]. injection H as _ <-.
  exact (bal_readBE 2 s ver s1 Hrd).
Qed.

(** In every successful parse each handle-producing tag either registered
    one handle or was a ClassDesc given up on for its short name. *)
Theorem handle_count (fuel : nat) (b : list byte) (vs : list Value) (s : state) :
  runParser fuel b = (Ok vs, s) ->
  (length (handles s) + shortClasses (classes s))%nat = countHandleTags (tags s).
Proof.
  intros H.
  assert (Hbal : Bal 0 (magic ;;; version ;;; parseLoop fuel fuel [])).
  { apply bal_bind0; [apply bal_magic |]. intros _.
    apply bal_bind0; [apply bal_version |]. intros _. apply bal_parseLoop. }
  pose proof (Hbal (newParser b) vs s H) as Hs.
  change (surplus (newParser b)) with 0 in Hs.
  unfold surplus in Hs. lia.
Qed.

(** X20.  In every successful parse in which no class descriptor was given
    up on for a name shorter than two bytes, the handle table has one entry
    for every String, LongString, Class, ClassDesc, Array, Object and Enum
    tag dispatched on, and for nothing else. *)
Corollary handle_count_no_short_name (fuel : nat) (b : list byte) (vs : list Value)
    (s : state) :
  runParser fuel b = (Ok vs, s) ->
  shortClasses (classes s) = 0%nat ->
  length (handles s) = countHandleTags (tags s).
Proof. intros H H0. pose proof (handle_count fuel b vs s H). lia. Qed.

Lemma handle_count_no_short_name_witness :
  length (handles (snd (runParser 3 (unhex "aced000574000161"))))
  = countHandleTags (tags (snd (runParser 3 (unhex "aced000574000161")))).
Proof.
  apply (handle_count_no_short_name 3 (unhex "aced000574000161") [VString "a"]
           (snd (runParser 3 (unhex "aced000574000161")))).
  - vm_compute. reflexivity.
  - vm_compute. reflexivity.
Defined.

(** ** Termination *)

Lemma measure_nonneg (s : state) : inBounds s -> 0 <= measure s.
Proof. unfold inBounds, measure. pose proof (len_nonneg (classes s)). lia. Qed.

Lemma safe_ret {A} (N N' : Z) (a : A) : N <= N' -> Safe N N' (ret a).
Proof. intros Hle s Hb Hm. simpl. split; [exact Hb | lia]. Qed.

Lemma safe_fail {A} (N N' : Z) (e : error) :
  Cause e <> OutOfFuel -> Safe N N' (@fail A e).
Proof. intros He s Hb Hm. exact He. Qed.

Lemma safe_errorf {A} (N N' : Z) (k : kind) :
  k <> OutOfFuel -> Safe N N' (@errorf A k).
Proof. intros Hk. apply safe_fail. exact Hk. Qed.

Lemma safe_bind {A B} (N N1 N' : Z) (m : M A) (k : A -> M B) :
  Safe N N1 m -> (forall a, Safe N1 N' (k a)) -> Safe N N' (bind m k).
Proof.
  intros Hm Hk s Hb HN. unfold bind. specialize (Hm s Hb HN).
  destruct (m s) as [[a | e] s1]; [| exact Hm].
  destruct Hm as [Hb1 HN1]. exact (Hk a s1 Hb1 HN1).
Qed.

Lemma safe_bind_post {A B} (P : A -> Prop) (N N1 N' : Z) (m : M A) (k : A -> M B) :
  Safe N N1 m ->
  (forall s a s', m s = (Ok a, s') -> P a) ->
  (forall a, P a -> Safe N1 N' (k a)) ->
  Safe N N' (bind m k).
Proof.
  intros Hm HP Hk s Hb HN. unfold bind. specialize (Hm s Hb HN).
  destruct (m s) as [[a | e] s1] eqn:Hms; [| exact Hm].
  destruct Hm as [Hb1 HN1]. exact (Hk a (HP s a s1 Hms) s1 Hb1 HN1).
Qed.

Lemma safe_wrap {A} (N N' : Z) (msg : string) (m : M A) :
  Safe N N' m -> Safe N N' (wrap msg m).
Proof.
  intros Hm s Hb HN. unfold wrap. specialize (Hm s Hb HN).
  destruct (m s) as [[a | e] s1]; exact Hm.
Qed.

Lemma safe_weaken {A} (N1 N1' N N' : Z) (m : M A) :
  Safe N1 N1' m -> N <= N1 -> N1' <= N' -> Safe N N' m.
Proof.
  intros Hm H1 H2 s Hb HN. specialize (Hm s Hb ltac:(lia)).
  destruct (m s) as [[a | e] s1]; [| exact Hm].
  destruct Hm as [Hb1 HN1]. split; [exact Hb1 | lia].
Qed.

(** A computation that always comes back, and neither reads input nor adds
    to the store. *)
Lemma safe_pure {A} (N : Z) (m : M A) :
  (forall s, buf (snd (m s)) = buf s /\ pos (snd (m s)) = pos s /\
             length (classes (snd (m s))) = length (classes s)) ->
  (forall s e, fst (m s) = Err e -> Cause e <> OutOfFuel) ->
  Safe N N m.
Proof.
  intros Hsame Herr s Hb HN. destruct (Hsame s) as (H1 & H2 & H3).
  specialize (Herr s).
  destruct (m s) as [[a | e] s1]; simpl in *.
  - unfold inBounds, measure, len in *. rewrite H1, H2, H3. split; [exact Hb | exact HN].
  - apply Herr. reflexivity.
Qed.

Lemma safe_newHandle (N : Z) (v : Value) : Safe N N (newHandle v).
Proof. apply safe_pure; [intros s; repeat split | intros s e H; discriminate H]. Qed.

Lemma safe_newDeferredHandle (N : Z) : Safe N N newDeferredHandle.
Proof. apply safe_pure; [intros s; repeat split | intros s e H; discriminate H]. Qed.

Lemma safe_getHandles (N : Z) : Safe N N getHandles.
Proof. apply safe_pure; [intros s; repeat split | intros s e H; discriminate H]. Qed.

Lemma safe_logTag (N : Z) (n : TypeName) : Safe N N (logTag n).
Proof. apply safe_pure; [intros s; repeat split | intros s e H; discriminate H]. Qed.

Lemma safe_setHandle (N : Z) (idx : nat) (v : Value) : Safe N N (setHandle idx v).
Proof.
  apply safe_pure; intros s; unfold setHandle;
    destruct (decide (idx < length (handles s))%nat); simpl;
    first [ repeat split; reflexivity
          | intros e H; injection H as <-; discriminate
          | intros e H; discriminate H ].
Qed.

Lemma safe_fillHandle (N : Z) (idx : nat) (v : Value) : Safe N N (fillHandle idx v).
Proof.
  apply safe_pure; intros s; unfold fillHandle;
    destruct (decide (idx < length (handles s))%nat); simpl;
    first [ repeat split; reflexivity
          | intros e H; injection H as <-; discriminate
          | intros e H; discriminate H ].
Qed.

Lemma safe_deref (N : Z) (p : nat) : Safe N N (deref p).
Proof.
  apply safe_pure; intros s; unfold deref; destruct (classes s !! p); simpl;
    first [ repeat split; reflexivity
          | intros e H; injection H as <-; discriminate
          | intros e H; discriminate H ].
Qed.

Lemma safe_setClazz (N : Z) (p : nat) (f : clazz -> clazz) : Safe N N (setClazz p f).
Proof.
  apply safe_pure; [| intros s e H; discriminate H].
  intros s. simpl. rewrite length_alter. repeat split.
Qed.

Lemma safe_liftR {A} (N : Z) (r : result A) :
  (forall e, r = Err e -> Cause e <> OutOfFuel) -> Safe N N (liftR r).
Proof.
  intros Hr. apply safe_pure; [intros s; repeat split |].
  intros s e H. apply Hr. exact H.
Qed.

Lemma safe_newClazz (N : Z) : Safe N (N + 1) newClazz.
Proof.
  intros s Hb HN. simpl. split; [exact Hb |].
  unfold measure, len in *. simpl. rewrite length_app. simpl. lia.
Qed.

Lemma safe_step (N cnt : Z) : 0 <= cnt -> Safe N (N - 2 * cnt) (step cnt).
Proof.
  intros Hcnt s Hb HN. unfold step. simpl.
  destruct (Z.ltb_spec (len (buf s)) (pos s + cnt)); [simpl; discriminate |].
  unfold inBounds, measure in *. simpl. lia.
Qed.

Lemma safe_readBytes {A} (N cnt : Z) (f : list byte -> A) :
  0 <= cnt -> Safe N (N - 2 * cnt) (readBytes cnt f).
Proof.
  intros Hcnt. unfold readBytes.
  apply safe_bind with (N1 := N - 2 * cnt); [apply safe_step; exact Hcnt |].
  intros p. apply safe_bind with (N1 := N - 2 * cnt).
  - apply safe_pure; [intros s; repeat split | intros s e H; discriminate H].
  - intros b. apply safe_ret. lia.
Qed.

Lemma safe_readBE (N n : Z) : 0 <= n -> Safe N (N - 2 * n) (readBE n).
Proof. intros Hn. exact (safe_readBytes N n beUint Hn). Qed.

Lemma safe_signed (N n w : Z) :
  0 <= n -> Safe N (N - 2 * n) (x <- readBE n ;; ret (signed w x)).
Proof.
  intros Hn. apply safe_bind with (N1 := N - 2 * n); [apply safe_readBE; exact Hn |].
  intros x. apply safe_ret. lia.
Qed.

Lemma safe_readString (N cnt : Z) (asHex : bool) :
  0 <= cnt -> Safe N (N - 2 * cnt) (readString cnt asHex).
Proof.
  intros Hcnt. unfold readString.
  apply safe_bind with (N1 := N - 2 * cnt); [apply safe_wrap, safe_step; exact Hcnt |].
  intros p. apply safe_bind with (N1 := N - 2 * cnt).
  - apply safe_pure; [intros s; repeat split | intros s e H; discriminate H].
  - intros b. destruct asHex; apply safe_ret; lia.
Qed.

Lemma safe_utf (N : Z) : Safe N (N - 4) utf.
Proof.
  unfold utf.
  apply safe_bind_post with (P := fun a => 0 <= a) (N1 := N - 4).
  - apply safe_wrap. apply (safe_readBE N 2). lia.
  - apply wrap_readBE_nonneg.
  - intros a Ha. apply safe_wrap.
    apply safe_weaken with (N1 := N - 4) (N1' := N - 4 - 2 * a);
      [apply safe_readString; exact Ha | lia | lia].
Qed.

Lemma safe_utfLong (N : Z) : Safe N (N - 8) utfLong.
Proof.
  unfold utfLong.
  apply safe_bind with (N1 := N - 8); [apply safe_wrap; apply (safe_readBE N 4); lia |].
  intros hi. destruct (negb (hi =? 0)); [apply safe_errorf; discriminate |].
  apply safe_bind_post with (P := fun a => 0 <= a) (N1 := N - 8).
  - apply safe_wrap.
    apply safe_weaken with (N1 := N - 8) (N1' := N - 8 - 2 * 4);
      [apply safe_readBE; lia | lia | lia].
  - apply wrap_readBE_nonneg.
  - intros a Ha. apply safe_wrap.
    apply safe_weaken with (N1 := N - 8) (N1' := N - 8 - 2 * a);
      [apply safe_readString; exact Ha | lia | lia].
Qed.

(** The post-processors report shapes and never anything else. *)
Lemma postProcSize_error (data : list Value) (offset : Z) (e : error) :
  postProcSize data offset = Err e -> Cause e <> OutOfFuel.
Proof.
  unfold postProcSize, shapeError. destruct data as [| [] ?]; try (intros H; injection H as <-; discriminate).
  destruct (len b <? offset + 4); intros H; [injection H as <-; discriminate | discriminate H].
Qed.

Lemma mapPairs_error (data : list Value) (n i : nat) (m : gmap string Value) (e : error) :
  mapPairs data n i m = Err e -> Cause e <> OutOfFuel.
Proof.
  revert i m. induction n as [| n IH]; intros i m; simpl; [discriminate |].
  destruct (data !! (i + (i + 0) + 1)%nat); [| intros H; injection H as <-; discriminate].
  destruct (data !! (i + (i + 0) + 2)%nat); [| intros H; injection H as <-; discriminate].
  apply IH.
Qed.

Lemma enumPairs_error (data : list Value) (n i : nat) (m : gmap string Value) (e : error) :
  enumPairs data n i m = Err e -> Cause e <> OutOfFuel.
Proof.
  revert i m. induction n as [| n IH]; intros i m; simpl; [discriminate |].
  destruct (data !! (i + (i + 0) + 1)%nat); [| intros H; injection H as <-; discriminate].
  destruct (data !! (i + (i + 0) + 2)%nat); [| intros H; injection H as <-; discriminate].
  apply IH.
Qed.

Lemma setKeys_error (data : list Value) (n idx : nat) (m : gmap string bool) (e : error) :
  setKeys data n idx m = Err e -> Cause e <> OutOfFuel.
Proof.
  revert idx m. induction n as [| n IH]; intros idx m; simpl; [discriminate |].
  destruct (data !! (idx + 1)%nat); [| intros H; injection H as <-; discriminate].
  apply IH.
Qed.

Lemma listPostProc_error (fields : gmap string Value) (data : list Value) (e : error) :
  listPostProc fields data = Err e -> Cause e <> OutOfFuel.
Proof.
  unfold listPostProc, shapeError.
  destruct (postProcSize data 0) as [size | e'] eqn:Hs.
  - destruct (negb (len data =? size + 1)); [intros H; injection H as <-; discriminate |].
    destruct (1 <? size); discriminate.
  - intros H. injection H as <-. exact (postProcSize_error _ _ _ Hs).
Qed.

Lemma mapPostProc_error (fields : gmap string Value) (data : list Value) (e : error) :
  mapPostProc fields data = Err e -> Cause e <> OutOfFuel.
Proof.
  unfold mapPostProc, shapeError.
  destruct (postProcSize data 4) as [size | e'] eqn:Hs.
  - destruct (len data <? size * 2 + 1); [intros H; injection H as <-; discriminate |].
    destruct (mapPairs data (Z.to_nat size) 0 ∅) eqn:Hp; [discriminate |].
    intros H. injection H as <-. exact (mapPairs_error _ _ _ _ _ Hp).
  - intros H. injection H as <-. exact (postProcSize_error _ _ _ Hs).
Qed.

Lemma enumMapPostProc_error (fields : gmap string Value) (data : list Value) (e : error) :
  enumMapPostProc fields data = Err e -> Cause e <> OutOfFuel.
Proof.
  unfold enumMapPostProc, shapeError.
  destruct (postProcSize data 0) as [size | e'] eqn:Hs.
  - destruct (len data <? size * 2 + 1); [intros H; injection H as <-; discriminate |].
    destruct (enumPairs data (Z.to_nat size) 0 ∅) eqn:Hp; [discriminate |].
    intros H. injection H as <-. exact (enumPairs_error _ _ _ _ _ Hp).
  - intros H. injection H as <-. exact (postProcSize_error _ _ _ Hs).
Qed.

Lemma hashSetPostProc_error (fields : gmap string Value) (data : list Value) (e : error) :
  hashSetPostProc fields data = Err e -> Cause e <> OutOfFuel.
Proof.
  unfold hashSetPostProc, shapeError.
  destruct (postProcSize data 8) as [size | e'] eqn:Hs.
  - destruct (negb (len data =? size + 1)); [intros H; injection H as <-; discriminate |].
    destruct (1 <? size); [| discriminate].
    destruct (setKeys data (length (slice 1 size data)) 0 ∅) eqn:Hp; [discriminate |].
    intros H. injection H as <-. exact (setKeys_error _ _ _ _ _ Hp).
  - intros H. injection H as <-. exact (postProcSize_error _ _ _ Hs).
Qed.

Lemma datePostProc_error (fields : gmap string Value) (data : list Value) (e : error) :
  datePostProc fields data = Err e -> Cause e <> OutOfFuel.
Proof.
  unfold datePostProc, shapeError.
  destruct data as [| [] ?]; try (intros H; injection H as <-; discriminate).
  destruct (len b <? 8); intros H; [injection H as <-; discriminate | discriminate H].
Qed.

Lemma KnownPostProcs_error (sig : string) (postproc : PostProc)
    (fields : gmap string Value) (data : list Value) (e : error) :
  KnownPostProcs !! sig = Some postproc ->
  postproc fields data = Err e -> Cause e <> OutOfFuel.
Proof.
  intros Hsig. unfold KnownPostProcs in Hsig.
  apply elem_of_list_to_map_2 in Hsig.
  repeat (apply elem_of_cons in Hsig; destruct Hsig as [Heq | Hsig];
          [injection Heq as _ ->;
           first [ apply listPostProc_error | apply mapPostProc_error
                 | apply enumMapPostProc_error | apply hashSetPostProc_error
                 | apply datePostProc_error ] |]).
  apply elem_of_nil in Hsig. contradiction.
Qed.

(** The same with the bounds left open. *)
Lemma safe_readBE' (N N' n : Z) : 0 <= n -> N - 2 * n <= N' -> Safe N N' (readBE n).
Proof.
  intros Hn Hle.
  apply safe_weaken with (N1 := N) (N1' := N - 2 * n); [apply safe_readBE | |]; lia.
Qed.

Lemma safe_signed' (N N' n w : Z) :
  0 <= n -> N - 2 * n <= N' -> Safe N N' (x <- readBE n ;; ret (signed w x)).
Proof.
  intros Hn Hle.
  apply safe_weaken with (N1 := N) (N1' := N - 2 * n); [apply safe_signed | |]; lia.
Qed.

Lemma safe_utf' (N N' : Z) : N - 4 <= N' -> Safe N N' utf.
Proof.
  intros Hle. apply safe_weaken with (N1 := N) (N1' := N - 4); [apply safe_utf | |]; lia.
Qed.

Lemma safe_utfLong' (N N' : Z) : N - 8 <= N' -> Safe N N' utfLong.
Proof.
  intros Hle. apply safe_weaken with (N1 := N) (N1' := N - 8); [apply safe_utfLong | |]; lia.
Qed.

Lemma safe_pure' {A} (N N' : Z) (m : M A) : Safe N N m -> N <= N' -> Safe N N' m.
Proof. intros Hm Hle. apply safe_weaken with (N1 := N) (N1' := N); [exact Hm | |]; lia. Qed.

Lemma safe_vacuous {A} (N N' : Z) (m : M A) : N < 0 -> Safe N N' m.
Proof. intros HN s Hb Hm. pose proof (measure_nonneg s Hb). lia. Qed.

Lemma safe_forLoop {A} (fuel : nat) (N i n : Z) (body : A -> M A) (acc : A) :
  N < Z.of_nat fuel ->
  (forall M acc, M <= N -> Safe M (M - 1) (body acc)) ->
  Safe N N (forLoop fuel i n body acc).
Proof.
  revert N i acc. induction fuel as [| fuel IH]; intros N i acc HN Hbody.
  - apply safe_vacuous. lia.
  - simpl. destruct (i <? n); [| apply safe_ret; lia].
    apply safe_bind with (N1 := N - 1); [apply Hbody; lia |].
    intros acc'. apply safe_pure'; [| lia].
    apply IH; [lia |]. intros M acc0 HM. apply Hbody. lia.
Qed.

Lemma safe_parseReference (N : Z) : Safe N N parseReference.
Proof.
  unfold parseReference.
  apply safe_bind with (N1 := N).
  - apply safe_wrap. apply safe_signed'; lia.
  - intros refIdx. apply safe_bind with (N1 := N); [apply safe_getHandles |].
    intros hs. destruct ((-1 <? int32_sub refIdx 8257536) && (int32_sub refIdx 8257536 <? len hs)).
    + destruct (hs !! Z.to_nat (int32_sub refIdx 8257536));
        [apply safe_ret; lia | apply safe_errorf; discriminate].
    + apply safe_ret. lia.
Qed.

Lemma safe_blockData (N n : Z) (msg : string) :
  0 <= n ->
  Safe N N (size <- wrap msg (readBE n) ;;
            startPos <- step size ;;
            bd <- bufSlice startPos (startPos + size) ;;
            ret (VBytes bd)).
Proof.
  intros Hn.
  apply safe_bind_post with (P := fun a => 0 <= a) (N1 := N).
  - apply safe_wrap. apply safe_readBE'; lia.
  - apply wrap_readBE_nonneg.
  - intros a Ha.
    apply safe_weaken with (N1 := N) (N1' := N - 2 * a);
      [exact (safe_readBytes N a VBytes Ha) | lia | lia].
Qed.

Create HintDb safe.
#[export] Hint Extern 1 (Safe _ _ (newHandle _)) =>
  apply safe_pure'; [apply safe_newHandle | lia] : safe.
#[export] Hint Extern 1 (Safe _ _ newDeferredHandle) =>
  apply safe_pure'; [apply safe_newDeferredHandle | lia] : safe.
#[export] Hint Extern 1 (Safe _ _ getHandles) =>
  apply safe_pure'; [apply safe_getHandles | lia] : safe.
#[export] Hint Extern 1 (Safe _ _ (logTag _)) =>
  apply safe_pure'; [apply safe_logTag | lia] : safe.
#[export] Hint Extern 1 (Safe _ _ (setHandle _ _)) =>
  apply safe_pure'; [apply safe_setHandle | lia] : safe.
#[export] Hint Extern 1 (Safe _ _ (fillHandle _ _)) =>
  apply safe_pure'; [apply safe_fillHandle | lia] : safe.
#[export] Hint Extern 1 (Safe _ _ (deref _)) =>
  apply safe_pure'; [apply safe_deref | lia] : safe.
#[export] Hint Extern 1 (Safe _ _ (setClazz _ _)) =>
  apply safe_pure'; [apply safe_setClazz | lia] : safe.
#[export] Hint Extern 1 (Safe ?N _ (readString ?cnt _)) =>
  apply (safe_weaken N (N - 2 * cnt)); [apply safe_readString; lia | lia | lia] : safe.
#[export] Hint Extern 1 (Safe _ _ readUInt8) => apply safe_readBE'; lia : safe.
#[export] Hint Extern 1 (Safe _ _ readUInt16) => apply safe_readBE'; lia : safe.
#[export] Hint Extern 1 (Safe _ _ readUInt32) => apply safe_readBE'; lia : safe.
#[export] Hint Extern 1 (Safe _ _ readFloat32) => apply safe_readBE'; lia : safe.
#[export] Hint Extern 1 (Safe _ _ readFloat64) => apply safe_readBE'; lia : safe.
#[export] Hint Extern 1 (Safe _ _ readInt8) => apply safe_signed'; lia : safe.
#[export] Hint Extern 1 (Safe _ _ readInt16) => apply safe_signed'; lia : safe.
#[export] Hint Extern 1 (Safe _ _ readInt32) => apply safe_signed'; lia : safe.
#[export] Hint Extern 1 (Safe _ _ readInt64) => apply safe_signed'; lia : safe.
#[export] Hint Extern 1 (Safe _ _ utf) => apply safe_utf'; lia : safe.
#[export] Hint Extern 1 (Safe _ _ utfLong) => apply safe_utfLong'; lia : safe.
#[export] Hint Extern 1 (Safe _ _ parseReference) =>
  apply safe_pure'; [apply safe_parseReference | lia] : safe.
#[export] Hint Extern 1 (Safe _ _ parseBlockData) =>
  apply safe_pure'; [apply safe_blockData; lia | lia] : safe.
#[export] Hint Extern 1 (Safe _ _ parseBlockDataLong) =>
  apply safe_pure'; [apply safe_blockData; lia | lia] : safe.

(** Decompose a goal along the shape of the computation, keeping the bound
    on what is left to do. *)
Ltac safe_step :=
  match goal with
  | |- Safe ?N _ (bind _ _) => apply safe_bind with (N1 := N); [solve [safe] | intros ?]
  | |- Safe _ _ (wrap _ _) => apply safe_wrap
  | |- Safe _ _ (ret _) => apply safe_ret; lia
  | |- Safe _ _ (errorf _) => apply safe_errorf; discriminate
  | |- Safe _ _ (match Wrap None _ with _ => _ end) => cbn [Wrap]
  | |- Safe _ _ (if ?b then _ else _) => destruct b
  | |- Safe _ _ (match primitiveHandlers _ _ with _ => _ end) => fail 1
  | |- Safe _ _ (match ?x with _ => _ end) => destruct x
  | |- Safe _ _ _ => solve [auto with safe]
  end
with safe := repeat safe_step.

Lemma safe_parseString (N : Z) : Safe N N parseString.
Proof. unfold parseString. safe. Qed.

Lemma safe_parseLongString (N : Z) : Safe N N parseLongString.
Proof. unfold parseLongString. safe. Qed.

Lemma safe_magic (N : Z) : Safe N N magic.
Proof. unfold magic. safe. Qed.

Lemma safe_version (N : Z) : Safe N N version.
Proof.
  intros s Hb HN. unfold version.
  pose proof (safe_readBE' N N 2 ltac:(lia) ltac:(lia) s Hb HN) as H.
  change (readBE 2) with readUInt16 in H.
  destruct (readUInt16 s) as [[ver | e] s1]; [| simpl; discriminate].
  destruct (negb (ver =? 5)); [simpl; discriminate | exact H].
Qed.

Lemma filter_length_lt {A} (P Q : A -> Prop) `{forall x, Decision (P x)}
    `{forall x, Decision (Q x)} (l : list A) (p : A) :
  (forall x, P x -> Q x) -> p ∈ l -> Q p -> ~ P p ->
  (length (filter P l) < length (filter Q l))%nat.
Proof.
  intros HPQ Hin HQ HnP.
  assert (Hle : forall l', (length (filter P l') <= length (filter Q l'))%nat).
  { induction l' as [| x l' IH]; [reflexivity |].
    rewrite !list.filter_cons.
    destruct (decide (P x)) as [HP | HP].
    - destruct (decide (Q x)) as [_ | HnQ]; [simpl; lia | destruct HnQ; auto].
    - destruct (decide (Q x)); simpl; lia. }
  induction l as [| x l IH]; [inversion Hin |].
  rewrite !list.filter_cons.
  apply elem_of_cons in Hin. destruct Hin as [<- | Hin].
  - destruct (decide (P p)); [contradiction |].
    destruct (decide (Q p)); [| contradiction]. simpl. specialize (Hle l). lia.
  - specialize (IH Hin).
    destruct (decide (P x)) as [HP | HP].
    + destruct (decide (Q x)) as [_ | HnQ]; [simpl; lia | destruct HnQ; auto].
    + destruct (decide (Q x)); simpl; lia.
Qed.

(** A descriptor of the store that is seen for the first time leaves fewer
    to be seen. *)
Lemma unseen_insert (seen : gset nat) (s : state) (p : nat) :
  (p < length (classes s))%nat -> p ∉ seen ->
  (unseen ({[ p ]} ∪ seen) s < unseen seen s)%nat.
Proof.
  intros Hp Hnew. unfold unseen.
  apply (filter_length_lt _ _ _ p).
  - intros x Hx. set_solver.
  - apply elem_of_seq. lia.
  - exact Hnew.
  - set_solver.
Qed.

Lemma unseen_le (seen : gset nat) (s : state) :
  (unseen seen s <= length (classes s))%nat.
Proof.
  unfold unseen. etransitivity; [apply list.length_filter |].
  rewrite length_seq. reflexivity.
Qed.

Section SafeParsers.

Variable content : allowList -> M Value.
Variable fuel : nat.
Hypothesis Hcontent :
  forall a N, N < Z.of_nat fuel -> Safe N (N - 1) (content a).

Hint Extern 1 (Safe ?N _ (content _)) =>
  apply (safe_weaken N (N - 1)); [apply Hcontent; lia | lia | lia] : safe.

(** A goal whose computation makes progress with its first step. *)
Ltac safe_prog :=
  match goal with
  | |- Safe ?N _ (bind _ _) =>
      apply safe_bind with (N1 := N - 1); [solve [safe] | intros ?; safe]
  | |- Safe _ _ (wrap _ _) => apply safe_wrap; safe_prog
  | |- Safe _ _ _ => solve [safe]
  end.

Lemma safe_primitiveHandlers (t N : Z) :
  N < Z.of_nat fuel -> SafeOpt N (N - 1) (primitiveHandlers content t).
Proof.
  intros HN. unfold primitiveHandlers, SafeOpt.
  repeat match goal with
         | |- context [if ?b then _ else _] => destruct b
         end; try exact I; safe_prog.
Qed.

Ltac safe_handler :=
  match goal with
  | |- Safe ?N ?N' _ =>
      match goal with
      | |- context [primitiveHandlers content ?t] =>
          let H := fresh "Hh" in
          pose proof (safe_primitiveHandlers t) as H; unfold SafeOpt in H;
          destruct (primitiveHandlers content t)
      end
  end.

Lemma safe_fieldDesc (N : Z) :
  N < Z.of_nat fuel -> Safe N (N - 1) (fieldDesc content).
Proof. intros HN. unfold fieldDesc. safe_prog. Qed.

Lemma safe_annotationsLoop (n : nat) (N : Z) (a : allowList) (anns : list Value) :
  N < Z.of_nat n -> N < Z.of_nat fuel ->
  Safe N N (annotationsLoop content n a anns).
Proof.
  revert N anns. induction n as [| n IH]; intros N anns Hn HN.
  - apply safe_vacuous. lia.
  - simpl. apply safe_bind with (N1 := N - 1); [safe |].
    intros ann.
    destruct ann; try (apply safe_pure'; [apply IH; lia | lia]).
    apply safe_ret. lia.
Qed.

Lemma safe_annotations (N : Z) (a : allowList) :
  N < Z.of_nat fuel -> Safe N N (annotations content fuel a).
Proof. intros HN. apply safe_annotationsLoop; exact HN. Qed.

Lemma safe_classDesc (N : Z) :
  N < Z.of_nat fuel -> Safe N (N - 1) (classDesc content).
Proof. intros HN. unfold classDesc. safe_prog. Qed.

Hint Extern 1 (Safe ?N _ (fieldDesc _)) =>
  apply (safe_weaken N (N - 1)); [apply safe_fieldDesc; lia | lia | lia] : safe.
Hint Extern 1 (Safe _ _ (annotations _ _ _)) =>
  apply safe_pure'; [apply safe_annotations; lia | lia] : safe.
Hint Extern 1 (Safe ?N _ (classDesc _)) =>
  apply (safe_weaken N (N - 1)); [apply safe_classDesc; lia | lia | lia] : safe.
Hint Extern 1 (Safe _ _ (forLoop _ _ _ _ _)) =>
  apply safe_pure'; [apply safe_forLoop; [lia | intros ? ? ?; safe_prog] | lia] : safe.

Lemma safe_parseClassDesc (N : Z) :
  N + 1 < Z.of_nat fuel -> Safe N (N + 1) (parseClassDesc content fuel).
Proof.
  intros HN. unfold parseClassDesc.
  apply safe_bind with (N1 := N + 1); [apply safe_newClazz |]. intros cls. safe.
Qed.

Lemma safe_parseClass (N : Z) :
  N < Z.of_nat fuel -> Safe N N (parseClass content).
Proof. intros HN. unfold parseClass. safe. Qed.

Lemma safe_parseArray (N : Z) :
  N < Z.of_nat fuel -> Safe N N (parseArray content fuel).
Proof.
  intros HN. unfold parseArray. safe. safe_handler; safe.
  apply safe_bind with (N1 := N); [| intros ?; safe].
  apply safe_forLoop; [lia |]. intros M acc HM.
  apply safe_bind with (N1 := M - 1); [| intros ?; safe].
  apply safe_wrap. apply Hh; lia.
Qed.

Lemma safe_parseEnum (N : Z) :
  N < Z.of_nat fuel -> Safe N N (parseEnum content).
Proof. intros HN. unfold parseEnum. safe. Qed.

Lemma safe_valuesLoop (N : Z) (fs : list field) (vals : gmap string Value) :
  N < Z.of_nat fuel -> Safe N N (valuesLoop content fs vals).
Proof.
  intros HN. revert vals. induction fs as [| f fs IH]; intros vals; simpl; [safe |].
  safe_handler; [| safe].
  apply safe_bind with (N1 := N).
  - apply safe_wrap. apply (safe_weaken N (N - 1)); [apply Hh; lia | lia | lia].
  - intros v. apply IH.
Qed.

Lemma safe_values (N : Z) (cls : nat) :
  N < Z.of_nat fuel -> Safe N N (values content cls).
Proof.
  intros HN. unfold values.
  apply safe_bind with (N1 := N); [safe |]. intros c. apply safe_valuesLoop. exact HN.
Qed.

Hint Extern 1 (Safe _ _ (values _ _)) =>
  apply safe_pure'; [apply safe_values; lia | lia] : safe.

Lemma safe_annotationsAsMap (N : Z) (cls : nat) (isBlock : bool) :
  N < Z.of_nat fuel ->
  Safe N N (annotationsAsMap content fuel cls isBlock).
Proof.
  intros HN. unfold annotationsAsMap.
  apply safe_bind with (N1 := N); [safe |]. intros data.
  apply safe_bind with (N1 := N); [safe |]. intros anns.
  destruct (negb isBlock); [| safe].
  apply safe_bind with (N1 := N); [safe |]. intros c.
  destruct (KnownPostProcs !! (name c +:+ "@" +:+ serialVersionUID c)) as [postproc |] eqn:Hpp;
    [| safe].
  apply safe_liftR.
  intros e He. exact (KnownPostProcs_error _ _ _ _ _ Hpp He).
Qed.

Hint Extern 1 (Safe _ _ (annotationsAsMap _ _ _ _)) =>
  apply safe_pure'; [apply safe_annotationsAsMap; lia | lia] : safe.

Lemma safe_classData (N : Z) (cls : option nat) :
  N < Z.of_nat fuel -> Safe N N (classData content fuel cls).
Proof. intros HN. unfold classData. safe. Qed.

Hint Extern 1 (Safe _ _ (classData _ _ _)) =>
  apply safe_pure'; [apply safe_classData; lia | lia] : safe.

(** The walk up the super chain has fuel for every descriptor of the store
    it has not seen. *)
Lemma safe_recursiveClassData (n : nat) (N : Z) :
  N < Z.of_nat fuel ->
  forall (cls : option nat) (obj : gmap string Value) (seen : gset nat) (s : state),
    inBounds s -> measure s <= N ->
    match cls with
    | Some p => (p < length (classes s))%nat -> (unseen ({[ p ]} ∪ seen) s < n)%nat
    | None => True
    end ->
    match recursiveClassData content fuel n cls obj seen s with
    | (Ok _, s') => inBounds s' /\ measure s' <= N
    | (Err e, _) => Cause e <> OutOfFuel
    end.
Proof.
  intros HN. induction n as [| n IH]; intros cls obj seen s Hb Hm Hn.
  - destruct cls as [p |]; simpl; [| split; [exact Hb | exact Hm]].
    unfold bind, deref. destruct (classes s !! p) eqn:Hp; [| simpl; discriminate].
    apply lookup_lt_Some in Hp. specialize (Hn Hp). lia.
  - destruct cls as [p |]; simpl; [| split; [exact Hb | exact Hm]].
    unfold bind at 1. unfold deref at 1.
    destruct (classes s !! p) as [c |] eqn:Hp; [| simpl; discriminate].
    apply lookup_lt_Some in Hp. specialize (Hn Hp).
    unfold bind at 1.
    assert (Hup :
      match (match super c with
             | Some sp =>
                 if decide (sp ∈ {[p]} ∪ seen) then ret (obj, {[p]} ∪ seen)
                 else recursiveClassData content fuel n (Some sp) obj ({[sp]} ∪ ({[p]} ∪ seen))
             | None => ret (obj, {[p]} ∪ seen)
             end) s with
      | (Ok _, s') => inBounds s' /\ measure s' <= N
      | (Err e, _) => Cause e <> OutOfFuel
      end).
    { destruct (super c) as [sp |]; [| simpl; split; [exact Hb | exact Hm]].
      destruct (decide (sp ∈ {[p]} ∪ seen)) as [Hseen | Hnew];
        [simpl; split; [exact Hb | exact Hm] |].
      apply IH; [exact Hb | exact Hm |]. intros Hsp.
      assert (Hsame : {[sp]} ∪ ({[sp]} ∪ ({[p]} ∪ seen)) = {[sp]} ∪ ({[p]} ∪ seen))
        by (apply set_eq; intros x; rewrite !elem_of_union; tauto).
      rewrite Hsame.
      pose proof (unseen_insert ({[p]} ∪ seen) s sp Hsp Hnew). lia. }
    destruct ((match super c with
               | Some sp =>
                   if decide (sp ∈ {[p]} ∪ seen) then ret (obj, {[p]} ∪ seen)
                   else recursiveClassData content fuel n (Some sp) obj ({[sp]} ∪ ({[p]} ∪ seen))
               | None => ret (obj, {[p]} ∪ seen)
               end) s) as [[os | e] s1]; [| exact Hup].
    destruct Hup as [Hb1 Hm1].
    assert (Hrest : Safe N N
      (match os.1 !! "extends" with
       | Some (VMap extends) =>
           fields <- wrap "error reading recursive class data"
                       (classData content fuel (Some p)) ;;
           c0 <- deref p ;;
           ret (fields ∪ <["extends" := VMap (<[name c0 := VMap fields]> extends)]> os.1,
                os.2)
       | _ => errorf UnexpectedExtends
       end)) by safe.
    exact (Hrest s1 Hb1 Hm1).
Qed.

Lemma safe_parseObject (N : Z) :
  N < Z.of_nat fuel -> Safe N N (parseObject content fuel).
Proof.
  intros HN. unfold parseObject.
  apply safe_bind with (N1 := N); [safe |]. intros cls.
  apply safe_bind with (N1 := N); [safe |]. intros idx.
  apply safe_bind with (N1 := N); [| intros os; safe].
  apply safe_wrap. intros s Hb Hm.
  apply safe_recursiveClassData; [exact HN | exact Hb | exact Hm |].
  destruct cls as [p |]; [| exact I]. intros _.
  pose proof (unseen_le ({[p]} ∪ ∅) s) as Hu.
  unfold measure, inBounds, len in *. lia.
Qed.

Lemma safe_knownParsers (n : TypeName) (N : Z) :
  N + 1 < Z.of_nat fuel ->
  SafeOpt N (N + 1) (knownParsers content fuel n).
Proof.
  intros HN.
  destruct n; unfold knownParsers, SafeOpt;
    first [ exact I
          | apply safe_parseClassDesc; exact HN
          | apply safe_pure'; [| lia];
            first [ apply safe_parseEnum | apply safe_parseClass | apply safe_parseArray
                  | apply safe_parseObject | apply safe_parseString
                  | apply safe_parseLongString | apply safe_parseReference
                  | apply safe_blockData ]; lia
          | unfold parseNull, parseEndBlockData; safe ].
Qed.

Lemma safe_contentBody (a : allowList) (N : Z) :
  N < Z.of_nat (S fuel) -> Safe N (N - 1) (contentBody content fuel a).
Proof.
  intros HN. unfold contentBody.
  apply safe_bind with (N1 := N - 2); [apply (safe_readBE N 1); lia |]. intros tc.
  destruct (typeNameMax <? (tc - 112) mod 256); [safe |].
  destruct (typeNames !! Z.to_nat ((tc - 112) mod 256)) as [n |]; [| safe].
  destruct (match a with Some allowed => negb (allowed n) | None => false end); [safe |].
  pose proof (safe_knownParsers n (N - 2)) as Hk. unfold SafeOpt in Hk.
  destruct (knownParsers content fuel n) as [parse |]; [| safe].
  apply safe_bind with (N1 := N - 2); [safe |]. intros _.
  apply safe_weaken with (N1 := N - 2) (N1' := N - 2 + 1); [apply Hk; lia | lia | lia].
Qed.

End SafeParsers.

(** With more fuel than there is left to do, [content] does not run out of
    fuel, and a successful call leaves less to do. *)
Lemma safe_content (fuel : nat) (a : allowList) (N : Z) :
  N < Z.of_nat fuel -> Safe N (N - 1) (content fuel a).
Proof.
  revert a N. induction fuel as [| fuel IH]; intros a N HN.
  - apply safe_vacuous. lia.
  - simpl. apply safe_contentBody; [| exact HN]. intros a' N' HN'. apply IH. exact HN'.
Qed.

Lemma safe_parseLoop (n fuel : nat) (N : Z) (acc : list Value) :
  N < Z.of_nat n -> N < Z.of_nat fuel -> Safe N N (parseLoop n fuel acc).
Proof.
  revert N acc. induction n as [| n IH]; intros N acc Hn HN.
  - apply safe_vacuous. lia.
  - intros s Hb Hm. cbn [parseLoop].
    destruct (pos s <? len (buf s)); [| split; [exact Hb | exact Hm]].
    revert s Hb Hm. fold (Safe N N (nxt <- content fuel None ;; parseLoop n fuel (acc ++ [nxt]))).
    apply safe_bind with (N1 := N - 1); [apply safe_content; exact HN |].
    intros nxt. apply safe_pure'; [apply IH; lia | lia].
Qed.

(** X21.  The parser terminates.  With [2 * len(buf) + 1] as the bound on
    the depth of the calls of [content] and on the iterations of every loop,
    no run reaches the bound: what is left of the input, counted twice, plus
    the number of class descriptors read so far, bounds what there is left
    to do, and the descriptors already seen stop the walk up a super chain
    that is cyclic.  So every result of ParseSerializedObject is a result of
    the Go function. *)
Theorem ParseSerializedObject_total (b : list byte) (e : error) :
  ParseSerializedObject b = Err e -> Cause e <> OutOfFuel.
Proof.
  unfold ParseSerializedObject, ParseSerializedObjectFuel, runParser.
  set (fuel := (2 * length b + 1)%nat).
  assert (Hsafe : Safe (2 * len b) (2 * len b)
                    (magic ;;; version ;;; parseLoop fuel fuel [])).
  { apply safe_bind with (N1 := 2 * len b); [apply safe_magic |]. intros _.
    apply safe_bind with (N1 := 2 * len b); [apply safe_version |]. intros _.
    apply safe_parseLoop; unfold fuel, len; lia. }
  specialize (Hsafe (newParser b) (inBounds_newParser b)).
  unfold measure in Hsafe. simpl in Hsafe.
  destruct ((magic ;;; version ;;; parseLoop fuel fuel []) (newParser b)) as [[vs | e'] s].
  - discriminate.
  - simpl. intros H. injection H as <-. apply Hsafe. unfold len. simpl. lia.
Qed.

Lemma ParseSerializedObject_total_witness :
  ParseSerializedObject [] = Err (New UnexpectedEnd) /\
  Cause (New UnexpectedEnd) <> OutOfFuel.
Proof.
  assert (H : ParseSerializedObject [] = Err (New UnexpectedEnd)) by reflexivity.
  split; [exact H |].
  exact (ParseSerializedObject_total [] (New UnexpectedEnd) H).
Defined.

(** ** The stream header *)

Lemma byteZ_inj (a b : byte) : byteZ a = byteZ b -> a = b.
Proof.
  unfold byteZ. intros H. apply N2Z.inj in H.
  apply (f_equal Byte.of_N) in H. rewrite !Byte.of_to_N in H. congruence.
Qed.

Lemma beUint_two (a b : byte) : beUint [a; b] = byteZ a * 256 + byteZ b.
Proof. unfold beUint. simpl. lia. Qed.

(** What [magic] and [version] make of the first bytes of the input. *)
Lemma header_run (b : list byte) :
  (magic ;;; version) (newParser b) =
  match b with
  | m1 :: m2 :: t =>
      if negb (byteZ m1 * 256 + byteZ m2 =? 0xaced)
      then (Err (New BadMagic), advance 2 (newParser b))
      else match t with
           | v1 :: v2 :: _ =>
               if negb (byteZ v1 * 256 + byteZ v2 =? 5)
               then (Err (New (BadVersion (byteZ v1 * 256 + byteZ v2))),
                     advance 4 (newParser b))
               else (Ok tt, advance 4 (newParser b))
           | _ => (Err (New (BadVersion 0)), advance 4 (newParser b))
           end
  | _ => (Err (New UnexpectedEnd), advance 2 (newParser b))
  end.
Proof.
  destruct b as [| m1 [| m2 t]]; try reflexivity.
  unfold bind at 1. unfold magic, bind, readUInt16.
  rewrite readBE_ok by (unfold len; simpl; lia).
  change (peek 2 (newParser (m1 :: m2 :: t))) with [m1; m2].
  rewrite beUint_two.
  destruct (negb (byteZ m1 * 256 + byteZ m2 =? 44269)); [reflexivity |].
  cbv beta iota. unfold ret. cbv beta iota. unfold version, readUInt16.
  destruct t as [| v1 [| v2 t]]; try reflexivity.
  rewrite readBE_ok by (unfold len; simpl; lia).
  change (peek 2 (advance 2 (newParser (m1 :: m2 :: v1 :: v2 :: t)))) with [v1; v2].
  rewrite beUint_two.
  destruct (negb (byteZ v1 * 256 + byteZ v2 =? 5)); reflexivity.
Qed.

Lemma runParser_header (fuel : nat) (b : list byte) :
  runParser fuel b =
  match (magic ;;; version) (newParser b) with
  | (Ok _, s) => parseLoop fuel fuel [] s
  | (Err e, s) => (Err e, s)
  end.
Proof.
  unfold runParser, bind.
  destruct (magic (newParser b)) as [[[] | e] s1]; [| reflexivity].
  destruct (version s1) as [[[] | e] s2]; reflexivity.
Qed.

(** X1.  The header is checked before anything else: an input that does not
    start with the four bytes AC ED 00 05 fails, with premature end of input
    when it has fewer than two bytes, with the magic error when the first
    two are not AC ED, and otherwise with the version error: for the
    version found, or for version 0 when fewer than two bytes follow the
    magic value (the read error is replaced). *)
Theorem header_errors (b : list byte) :
  match b with
  | m1 :: m2 :: t =>
      if (byteZ m1 =? 0xac) && (byteZ m2 =? 0xed)
      then match t with
           | v1 :: v2 :: _ =>
               if (byteZ v1 =? 0) && (byteZ v2 =? 5) then True
               else ParseSerializedObject b
                    = Err (New (BadVersion (byteZ v1 * 256 + byteZ v2)))
           | _ => ParseSerializedObject b = Err (New (BadVersion 0))
           end
      else ParseSerializedObject b = Err (New BadMagic)
  | _ => ParseSerializedObject b = Err (New UnexpectedEnd)
  end.
Proof.
  unfold ParseSerializedObject, ParseSerializedObjectFuel.
  rewrite runParser_header, header_run.
  destruct b as [| m1 [| m2 t]]; try reflexivity.
  pose proof (byteZ_range m1) as H1. pose proof (byteZ_range m2) as H2.
  destruct (Z.eqb_spec (byteZ m1) 0xac) as [E1 | N1];
    [destruct (Z.eqb_spec (byteZ m2) 0xed) as [E2 | N2] |]; simpl andb; cbv iota.
  - rewrite E1, E2. simpl negb. cbv iota.
    destruct t as [| v1 [| v2 t]]; try reflexivity.
    pose proof (byteZ_range v1) as H3. pose proof (byteZ_range v2) as H4.
    destruct (Z.eqb_spec (byteZ v1) 0) as [E3 | N3];
      [destruct (Z.eqb_spec (byteZ v2) 5) as [E4 | N4] |]; simpl andb; cbv iota.
    + exact I.
    + destruct (Z.eqb_spec (byteZ v1 * 256 + byteZ v2) 5); [lia | reflexivity].
    + destruct (Z.eqb_spec (byteZ v1 * 256 + byteZ v2) 5); [lia | reflexivity].
  - destruct (Z.eqb_spec (byteZ m1 * 256 + byteZ m2) 0xaced); [lia | reflexivity].
  - destruct (Z.eqb_spec (byteZ m1 * 256 + byteZ m2) 0xaced); [lia | reflexivity].
Qed.

(** X2.  So an input that is accepted starts with the stream header. *)
Theorem accepted_input_has_header (b : list byte) (vs : list Value) :
  ParseSerializedObject b = Ok vs ->
  exists rest, b = unhex "aced0005" ++ rest.
Proof.
  unfold ParseSerializedObject, ParseSerializedObjectFuel.
  rewrite runParser_header, header_run. intros H.
  destruct b as [| m1 [| m2 t]]; try discriminate H.
  pose proof (byteZ_range m1) as H1. pose proof (byteZ_range m2) as H2.
  destruct (Z.eqb_spec (byteZ m1 * 256 + byteZ m2) 0xaced) as [Em | Nm];
    [| discriminate H].
  simpl negb in H. cbv iota in H.
  destruct t as [| v1 [| v2 t]]; try discriminate H.
  pose proof (byteZ_range v1) as H3. pose proof (byteZ_range v2) as H4.
  destruct (Z.eqb_spec (byteZ v1 * 256 + byteZ v2) 5) as [Ev | Nv];
    [| discriminate H].
  exists t.
  assert (Hm1 : m1 = xac) by (apply byteZ_inj; change (byteZ xac) with 172; lia).
  assert (Hm2 : m2 = xed) by (apply byteZ_inj; change (byteZ xed) with 237; lia).
  assert (Hv1 : v1 = x00) by (apply byteZ_inj; change (byteZ x00) with 0; lia).
  assert (Hv2 : v2 = x05) by (apply byteZ_inj; change (byteZ x05) with 5; lia).
  subst. reflexivity.
Qed.

Lemma accepted_input_has_header_witness :
  exists rest, unhex "aced000570" = unhex "aced0005" ++ rest.
Proof.
  apply (accepted_input_has_header (unhex "aced000570") [VNil]).
  vm_compute. reflexivity.
Defined.

(** ** Input after the stream *)

(** X3.  Nothing may follow a stream but more content: a complete stream
    followed by a byte that is not a tag is rejected, whatever comes after
    that byte. *)
Theorem trailing_byte_rejected (p q : list byte) (b : byte) (vs : list Value) :
  ParseSerializedObject p = Ok vs ->
  ~ 0x70 <= byteZ b <= 0x7e ->
  ParseSerializedObject (p ++ b :: q) = Err (New (UnknownTag (byteZ b))).
Proof.
  unfold ParseSerializedObject, ParseSerializedObjectFuel. intros Hp Hb.
  destruct (runParser (2 * length p + 1) p) as [rp sp] eqn:Hrp. simpl in Hp. subst rp.
  rewrite (runParser_then_unknown_tag (2 * length p + 1) (2 * length (p ++ b :: q) + 1)
             p q b vs sp Hrp Hb).
  - reflexivity.
  - rewrite length_app. simpl. lia.
Qed.

Lemma trailing_byte_rejected_witness :
  ParseSerializedObject (unhex "aced000570" ++ x00 :: unhex "70")
  = Err (New (UnknownTag 0)).
Proof.
  apply (trailing_byte_rejected (unhex "aced000570") (unhex "70") x00 [VNil]).
  - vm_compute. reflexivity.
  - vm_compute. intros [H _]. apply H. reflexivity.
Defined.

(** X4.  A value that has been read is read again, to the same value and
    consuming the same bytes, whatever is appended to the input. *)
Theorem content_ignores_what_follows (fuel : nat) (a : allowList) (s s' : state)
    (v : Value) (q : list byte) :
  inBounds s ->
  content fuel a s = (Ok v, s') ->
  content fuel a (extend q s) = (Ok v, extend q s').
Proof.
  intros Hb H.
  destruct (stable_content fuel fuel a (Nat.le_refl fuel) s v s' Hb H) as [_ Hext].
  apply Hext.
Qed.

Lemma content_ignores_what_follows_witness :
  content 1 None (extend (unhex "ff") (mkState (unhex "70") 0 [] [] []))
  = (Ok VNil, extend (unhex "ff") (mkState (unhex "70") 1 [] [] [Null])).
Proof.
  apply (content_ignores_what_follows 1 None (mkState (unhex "70") 0 [] [] [])
           (mkState (unhex "70") 1 [] [] [Null]) VNil (unhex "ff")).
  - by_compute.
  - reflexivity.
Defined.

(** ** Tags that are refused *)

(** X5.  After the range check, [content] consults the allow-list, and only
    then looks for a parser: a tag that is not allowed where it stands fails
    with TagNotAllowedHere, an allowed Reset, Exception or ProxyClassDesc
    tag fails with Unsupported.  Either way the tag byte is consumed and
    nothing else. *)
Theorem content_refusals (fuel : nat) (allowedNames : allowList) (s : state)
    (tc : nat) (n : TypeName) :
  pos s + 1 <= len (buf s) ->
  beUint (peek 1 s) = 0x70 + Z.of_nat tc ->
  typeNames !! tc = Some n ->
  (permits allowedNames n = false ->
     content (S fuel) allowedNames s = (Err (New (TagNotAllowedHere n)), advance 1 s)) /\
  (permits allowedNames n = true ->
     In n [Reset; Exception; ProxyClassDesc] ->
     content (S fuel) allowedNames s = (Err (New (Unsupported n)), advance 1 s)).
Proof.
  intros Hlen Htc Hname.
  assert (Hrange : (tc < 15)%nat).
  { apply lookup_lt_Some in Hname. exact Hname. }
  assert (Hrun : content (S fuel) allowedNames s =
                 (if negb (permits allowedNames n)
                  then errorf (TagNotAllowedHere n)
                  else match knownParsers (content fuel) fuel n with
                       | None => errorf (Unsupported n)
                       | Some parse => logTag n ;;; parse
                       end) (advance 1 s)).
  { simpl. unfold contentBody. unfold bind at 1. unfold readUInt8.
    rewrite readBE_ok by exact Hlen. rewrite Htc.
    replace ((0x70 + Z.of_nat tc - 0x70) mod 256) with (Z.of_nat tc)
      by (rewrite Z.mod_small; lia).
    destruct (Z.ltb_spec typeNameMax (Z.of_nat tc)) as [Hbig | _].
    { change typeNameMax with 14 in Hbig. lia. }
    rewrite Nat2Z.id, Hname. destruct allowedNames; reflexivity. }
  rewrite Hrun. split.
  - intros ->. reflexivity.
  - intros -> Hin. simpl in Hin.
    destruct Hin as [<- | [<- | [<- | []]]]; reflexivity.
Qed.

Lemma content_refusals_witness :
  content 1 (Some allowedClazzNames) (mkState (unhex "7d") 0 [] [] [])
  = (Err (New (Unsupported ProxyClassDesc)), mkState (unhex "7d") 1 [] [] []).
Proof.
  assert (H1 : pos (mkState (unhex "7d") 0 [] [] []) + 1
               <= len (buf (mkState (unhex "7d") 0 [] [] []))) by by_compute.
  assert (H2 : beUint (peek 1 (mkState (unhex "7d") 0 [] [] [])) = 0x70 + Z.of_nat 13)
    by by_compute.
  assert (H3 : typeNames !! 13%nat = Some ProxyClassDesc) by reflexivity.
  destruct (content_refusals 0 (Some allowedClazzNames) (mkState (unhex "7d") 0 [] [] [])
              13 ProxyClassDesc H1 H2 H3) as [_ H].
  apply H; [reflexivity | simpl; tauto].
Defined.

(** ** Strings and block data *)

(** X6.  [utf] reads a big-endian 16-bit length [n] and then [n] bytes, which
    are the string.  It succeeds exactly when those bytes are there; when
    they are not it reports the premature end, and the cursor has moved
    past the end of the input all the same. *)
Theorem utf_reads (s : state) :
  0 <= pos s ->
  pos s + 2 <= len (buf s) ->
  let n := beUint (peek 2 s) in
  (pos s + 2 + n <= len (buf s) ->
     let str := string_of_list_byte (peek n (advance 2 s)) in
     strlen str = n /\ utf s = (Ok str, advance (2 + n) s)) /\
  (len (buf s) < pos s + 2 + n ->
     exists e, utf s = (Err e, advance (2 + n) s) /\ Cause e = UnexpectedEnd).
Proof.
  intros Hpos H2 n.
  assert (Hn : 0 <= n) by apply beUint_range.
  split.
  - intros Hle str. split.
    + unfold str, strlen. rewrite length_string_of_list_byte.
      apply (peek_exact n (advance 2 s)); simpl; lia.
    + unfold utf, bind, wrap, readUInt16. rewrite readBE_ok by exact H2. fold n.
      rewrite readString_ok by (simpl; lia). rewrite advance_advance. reflexivity.
  - intros Hgt. eexists. split.
    + unfold utf, bind, wrap, readUInt16. rewrite readBE_ok by exact H2. fold n.
      unfold readString, bind, wrap. rewrite step_end by (simpl; lia).
      rewrite advance_advance. reflexivity.
    + reflexivity.
Qed.

Lemma utf_reads_witness :
  utf (mkState (unhex "00026869") 0 [] [] []) = (Ok "hi", mkState (unhex "00026869") 4 [] [] []).
Proof.
  assert (H0 : 0 <= pos (mkState (unhex "00026869") 0 [] [] [])) by by_compute.
  assert (H2 : pos (mkState (unhex "00026869") 0 [] [] []) + 2
               <= len (buf (mkState (unhex "00026869") 0 [] [] []))) by by_compute.
  destruct (utf_reads (mkState (unhex "00026869") 0 [] [] []) H0 H2) as [Hok _].
  apply Hok. by_compute.
Defined.

(** The sixteen digits, one by one. *)
Lemma digit_cases (P : Z -> Prop) :
  (forall k : nat, (k < 16)%nat -> P (Z.of_nat k)) ->
  forall n, 0 <= n < 16 -> P n.
Proof.
  intros H n Hn. rewrite <- (Z2Nat.id n) by lia. apply H. lia.
Qed.

Lemma hexDigit_lower (n : Z) : 0 <= n < 16 -> isLowerHex (hexDigit n) = true.
Proof.
  revert n. apply digit_cases. intros k Hk.
  do 16 (destruct k as [| k]; [reflexivity |]). lia.
Qed.

Lemma hexVal_hexDigit (n : Z) : 0 <= n < 16 -> hexVal (hexDigit n) = n.
Proof.
  revert n. apply digit_cases. intros k Hk.
  do 16 (destruct k as [| k]; [reflexivity |]). lia.
Qed.

Lemma byteOf_byteZ (b : byte) : byteOf (byteZ b) = b.
Proof.
  unfold byteOf, byteZ. rewrite N2Z.id, Byte.of_to_N. reflexivity.
Qed.

Lemma hexString_spec (bs : list byte) :
  String.length (hexString bs) = (2 * length bs)%nat /\
  Forall (fun a => isLowerHex a = true) (list_ascii_of_string (hexString bs)) /\
  unhex (hexString bs) = bs.
Proof.
  induction bs as [| b bs (IHl & IHf & IHu)]; [repeat split; constructor |].
  pose proof (byteZ_range b) as Hb.
  assert (Hq : 0 <= byteZ b / 16 < 16).
  { split; [apply Z.div_pos; lia | apply Z.div_lt_upper_bound; lia]. }
  assert (Hr : 0 <= byteZ b mod 16 < 16) by (apply Z.mod_pos_bound; lia).
  simpl. split; [| split].
  - rewrite IHl. lia.
  - constructor; [apply hexDigit_lower; exact Hq |].
    constructor; [apply hexDigit_lower; exact Hr | exact IHf].
  - rewrite !hexVal_hexDigit by assumption. rewrite IHu. f_equal.
    rewrite <- (byteOf_byteZ b) at 3. f_equal.
    pose proof (Z.div_mod (byteZ b) 16 ltac:(lia)). lia.
Qed.

(** X7.  Read as hexadecimal, [cnt] bytes give a string of [2 * cnt]
    lower-case hexadecimal digits that decodes to the bytes read: a
    serialVersionUID is sixteen such digits. *)
Theorem readString_hex (cnt : Z) (s : state) :
  0 <= pos s -> 0 <= cnt -> pos s + cnt <= len (buf s) ->
  exists str,
    readString cnt true s = (Ok str, advance cnt s) /\
    strlen str = 2 * cnt /\
    Forall (fun a => isLowerHex a = true) (list_ascii_of_string str) /\
    unhex str = peek cnt s.
Proof.
  intros Hpos Hcnt Hle. exists (hexString (peek cnt s)).
  destruct (hexString_spec (peek cnt s)) as (Hl & Hf & Hu).
  split; [| split; [| split; assumption]].
  - unfold readString, bind, wrap. rewrite step_ok by exact Hle. reflexivity.
  - unfold strlen. rewrite Hl.
    pose proof (peek_exact cnt s Hpos Hcnt Hle) as Hp. unfold len in Hp. lia.
Qed.

Lemma readString_hex_witness :
  exists str,
    readString 8 true (mkState (unhex "7881d21d99c7619d") 0 [] [] [])
    = (Ok str, advance 8 (mkState (unhex "7881d21d99c7619d") 0 [] [] [])) /\
    strlen str = 2 * 8 /\
    Forall (fun a => isLowerHex a = true) (list_ascii_of_string str) /\
    unhex str = peek 8 (mkState (unhex "7881d21d99c7619d") 0 [] [] []).
Proof.
  apply (readString_hex 8 (mkState (unhex "7881d21d99c7619d") 0 [] [] [])); by_compute.
Defined.

(** X8.  A BlockData tag carries an 8-bit length and a BlockDataLong tag a
    32-bit one; the value is that many bytes, no handle is registered, and
    when the bytes are not all there the premature end is reported as it is,
    without context. *)
Theorem blockData_reads (s : state) :
  0 <= pos s ->
  (pos s + 1 <= len (buf s) ->
     let n := beUint (peek 1 s) in
     (pos s + 1 + n <= len (buf s) ->
        len (peek n (advance 1 s)) = n /\
        parseBlockData s = (Ok (VBytes (peek n (advance 1 s))), advance (1 + n) s)) /\
     (len (buf s) < pos s + 1 + n ->
        parseBlockData s = (Err (New UnexpectedEnd), advance (1 + n) s))) /\
  (pos s + 4 <= len (buf s) ->
     let n := beUint (peek 4 s) in
     (pos s + 4 + n <= len (buf s) ->
        len (peek n (advance 4 s)) = n /\
        parseBlockDataLong s = (Ok (VBytes (peek n (advance 4 s))), advance (4 + n) s)) /\
     (len (buf s) < pos s + 4 + n ->
        parseBlockDataLong s = (Err (New UnexpectedEnd), advance (4 + n) s))).
Proof.
  intros Hpos. split.
  - intros H1 n. assert (Hn : 0 <= n) by apply beUint_range. split.
    + intros Hle. split; [apply (peek_exact n (advance 1 s)); simpl; lia |].
      unfold parseBlockData, bind, wrap, readUInt8. rewrite readBE_ok by exact H1. fold n.
      rewrite step_ok by (simpl; lia). rewrite advance_advance. reflexivity.
    + intros Hgt.
      unfold parseBlockData, bind, wrap, readUInt8. rewrite readBE_ok by exact H1. fold n.
      rewrite step_end by (simpl; lia). rewrite advance_advance. reflexivity.
  - intros H4 n. assert (Hn : 0 <= n) by apply beUint_range. split.
    + intros Hle. split; [apply (peek_exact n (advance 4 s)); simpl; lia |].
      unfold parseBlockDataLong, bind, wrap, readUInt32. rewrite readBE_ok by exact H4. fold n.
      rewrite step_ok by (simpl; lia). rewrite advance_advance. reflexivity.
    + intros Hgt.
      unfold parseBlockDataLong, bind, wrap, readUInt32. rewrite readBE_ok by exact H4. fold n.
      rewrite step_end by (simpl; lia). rewrite advance_advance. reflexivity.
Qed.

Lemma blockData_reads_witness :
  parseBlockData (mkState (unhex "02cafe") 0 [] [] [])
  = (Ok (VBytes (unhex "cafe")), mkState (unhex "02cafe") 3 [] [] []).
Proof.
  assert (H0 : 0 <= pos (mkState (unhex "02cafe") 0 [] [] [])) by by_compute.
  destruct (blockData_reads (mkState (unhex "02cafe") 0 [] [] []) H0) as [Hshort _].
  destruct Hshort as [Hok _]; [by_compute |].
  apply Hok. by_compute.
Defined.

(** ** Handles that are reserved *)



(** ** Fields and arrays of primitive type *)

Lemma primWidth_pos (t w : Z) : primWidth t = Some w -> 0 < w.
Proof.
  unfold primWidth.
  repeat match goal with
         | |- context [if ?b then _ else _] => destruct b
         end; intros H; try discriminate H; injection H as <-; lia.
Qed.

Lemma fieldsWidth_nonneg (fs : list field) : 0 <= fieldsWidth fs.
Proof.
  induction fs as [| f fs IH]; simpl; [lia |].
  destruct (primWidth (f_typeName f)) as [w |] eqn:Hw; simpl; [| lia].
  apply primWidth_pos in Hw. lia.
Qed.

Lemma read_then (n : Z) (msg : string) (f : Z -> Value) (s : state) :
  (pos s + n <= len (buf s) ->
     exists v, (x <- wrap msg (readBE n) ;; ret (f x)) s = (Ok v, advance n s)) /\
  (len (buf s) < pos s + n ->
     exists e, (x <- wrap msg (readBE n) ;; ret (f x)) s = (Err e, advance n s) /\
               Cause e = UnexpectedEnd).
Proof.
  split; intros H; unfold bind, wrap.
  - rewrite readBE_ok by exact H. eexists. reflexivity.
  - rewrite readBE_end by exact H. eexists. split; reflexivity.
Qed.

Lemma read_signed_then (n w : Z) (msg : string) (f : Z -> Value) (s : state) :
  (pos s + n <= len (buf s) ->
     exists v, (x <- wrap msg (y <- readBE n ;; ret (signed w y)) ;; ret (f x)) s
               = (Ok v, advance n s)) /\
  (len (buf s) < pos s + n ->
     exists e, (x <- wrap msg (y <- readBE n ;; ret (signed w y)) ;; ret (f x)) s
               = (Err e, advance n s) /\
               Cause e = UnexpectedEnd).
Proof.
  split; intros H; unfold bind, wrap.
  - rewrite readBE_ok by exact H. eexists. reflexivity.
  - rewrite readBE_end by exact H. eexists. split; reflexivity.
Qed.

(** The handler of a primitive type reads the bytes of one value. *)
Lemma primitiveHandlers_width (content : allowList -> M Value) (t w : Z) :
  primWidth t = Some w ->
  exists h, primitiveHandlers content t = Some h /\
    forall s,
      (pos s + w <= len (buf s) -> exists v, h s = (Ok v, advance w s)) /\
      (len (buf s) < pos s + w ->
         exists e, h s = (Err e, advance w s) /\ Cause e = UnexpectedEnd).
Proof.
  unfold primWidth, primitiveHandlers.
  repeat match goal with
         | |- context [if ?b then _ else _] => destruct b
         end; intros H; try discriminate H; injection H as <-;
    eexists; (split; [reflexivity |]); intros s;
    first [ apply read_then | apply read_signed_then ].
Qed.

Lemma valuesLoop_primitive (content : allowList -> M Value) (fs : list field)
    (vals : gmap string Value) (s : state) :
  Forall (fun f => is_Some (primWidth (f_typeName f))) fs ->
  pos s <= len (buf s) ->
  (pos s + fieldsWidth fs <= len (buf s) ->
     exists vals',
       valuesLoop content fs vals s = (Ok vals', advance (fieldsWidth fs) s) /\
       forall k, is_Some (vals' !! k) <-> is_Some (vals !! k) \/ In k (map f_name fs)) /\
  (len (buf s) < pos s + fieldsWidth fs ->
     exists e s', valuesLoop content fs vals s = (Err e, s') /\ Cause e = UnexpectedEnd).
Proof.
  intros Hprim. revert vals s.
  induction Hprim as [| f fs [w Hw] _ IH]; intros vals s Hin.
  - change (fieldsWidth []) with 0. simpl. split; [| lia]. intros _. exists vals. split.
    + unfold ret, advance. destruct s. simpl. rewrite Z.add_0_r. reflexivity.
    + intros k. tauto.
  - pose proof (primWidth_pos _ _ Hw) as Hwpos.
    pose proof (fieldsWidth_nonneg fs) as Hrest.
    destruct (primitiveHandlers_width content (f_typeName f) w Hw) as (h & Hh & Hrun).
    cbn [valuesLoop fieldsWidth fold_right]. fold (fieldsWidth fs).
    rewrite Hh, Hw. cbn [default from_option id]. unfold bind, wrap.
    destruct (Hrun s) as [Hok Hend]. split.
    + intros Hle. destruct Hok as (v & Hv); [lia |]. rewrite Hv.
      destruct (IH (<[f_name f := v]> vals) (advance w s)) as [IHok _]; [simpl; lia |].
      destruct IHok as (vals' & Hvals & Hkeys); [simpl; lia |].
      exists vals'. rewrite advance_advance in Hvals. split; [exact Hvals |].
      intros k. rewrite Hkeys. simpl. destruct (decide (f_name f = k)) as [-> | Hne].
      * rewrite lookup_insert_eq. split; [tauto |]. intros _. left. eexists; reflexivity.
      * rewrite lookup_insert_ne by exact Hne. tauto.
    + intros Hgt. destruct (Z_le_gt_dec (pos s + w) (len (buf s))) as [Hfit | Hnofit].
      * destruct Hok as (v & Hv); [exact Hfit |]. rewrite Hv.
        destruct (IH (<[f_name f := v]> vals) (advance w s)) as [_ IHend]; [simpl; lia |].
        apply IHend. simpl. lia.
      * destruct Hend as (e & He & Hc); [lia |]. rewrite He.
        eexists _, _. split; [reflexivity | exact Hc].
Qed.

(** X10.  The values of a class whose declared fields are all of primitive
    type lie back to back, in the order of declaration, each in the width of
    its type: reading them consumes exactly the sum of the widths, the
    record has an entry for every field name and for nothing else, and the
    read fails with a premature end exactly when the input is shorter. *)
Theorem values_primitive_fields (content : allowList -> M Value) (p : nat) (c : clazz)
    (s : state) :
  classes s !! p = Some c ->
  Forall (fun f => is_Some (primWidth (f_typeName f))) (fields c) ->
  pos s <= len (buf s) ->
  let width := fieldsWidth (fields c) in
  (pos s + width <= len (buf s) ->
     exists vals,
       values content p s = (Ok vals, advance width s) /\
       forall k, is_Some (vals !! k) <-> In k (map f_name (fields c))) /\
  (len (buf s) < pos s + width ->
     exists e s', values content p s = (Err e, s') /\ Cause e = UnexpectedEnd).
Proof.
  intros Hc Hprim Hin width.
  unfold values, bind. rewrite (deref_ok p c s Hc).
  destruct (valuesLoop_primitive content (fields c) ∅ s Hprim Hin) as [Hok Hend].
  split; [| exact Hend].
  intros Hle. destruct (Hok Hle) as (vals & Hv & Hkeys).
  exists vals. split; [exact Hv |].
  intros k. rewrite Hkeys. rewrite lookup_empty. split; [| tauto].
  intros [[x Hx] | H]; [discriminate Hx | exact H].
Qed.


Lemma values_primitive_fields_witness :
  exists vals,
    values (content 0) 0 (mkState (unhex "0000000a0014") 0 [] [pointClazz] [])
    = (Ok vals, advance 6 (mkState (unhex "0000000a0014") 0 [] [pointClazz] [])) /\
    forall k, is_Some (vals !! k) <-> In k ["x"; "y"].
Proof.
  assert (Hc : classes (mkState (unhex "0000000a0014") 0 [] [pointClazz] []) !! 0%nat
               = Some pointClazz) by reflexivity.
  assert (Hp : Forall (fun f => is_Some (primWidth (f_typeName f))) (fields pointClazz)).
  { repeat constructor; eexists; reflexivity. }
  assert (Hin : pos (mkState (unhex "0000000a0014") 0 [] [pointClazz] [])
                <= len (buf (mkState (unhex "0000000a0014") 0 [] [pointClazz] [])))
    by by_compute.
  destruct (values_primitive_fields (content 0) 0 pointClazz
              (mkState (unhex "0000000a0014") 0 [] [pointClazz] []) Hc Hp Hin) as [Hok _].
  apply Hok. by_compute.
Defined.

Lemma forLoop_done {A} (fuel : nat) (i n : Z) (body : A -> M A) (acc : A) :
  n <= i -> forLoop fuel i n body acc = ret acc.
Proof.
  intros H. destruct fuel; simpl; destruct (Z.ltb_spec i n); try lia; reflexivity.
Qed.

(** A loop whose body reads one value of [w] bytes and appends it. *)
Lemma forLoop_reads (h : M Value) (w : Z) (msg : string) :
  (forall s, pos s + w <= len (buf s) -> exists v, h s = (Ok v, advance w s)) ->
  0 < w ->
  forall (k fuel : nat) (i : Z) (acc : list Value) (s : state),
    (k <= fuel)%nat ->
    pos s + Z.of_nat k * w <= len (buf s) ->
    exists acc',
      forLoop fuel i (i + Z.of_nat k)
        (fun array => nxt <- wrap msg h ;; ret (array ++ [nxt])) acc s
      = (Ok acc', advance (Z.of_nat k * w) s) /\
      length acc' = (length acc + k)%nat.
Proof.
  intros Hh Hw. induction k as [| k IH]; intros fuel i acc s Hfuel Hle.
  - rewrite forLoop_done by lia. exists acc. split; [| lia].
    unfold ret, advance. destruct s. simpl. rewrite Z.add_0_r. reflexivity.
  - destruct fuel as [| fuel]; [lia |]. cbn [forLoop].
    destruct (Z.ltb_spec i (i + Z.of_nat (S k))); [| lia].
    destruct (Hh s) as (v & Hv); [nia |].
    assert (Hbody : (nxt <- wrap msg h ;; ret (acc ++ [nxt])) s
                    = (Ok (acc ++ [v]), advance w s)).
    { unfold bind, wrap. rewrite Hv. reflexivity. }
    unfold bind at 1. rewrite Hbody.
    destruct (IH fuel (i + 1) (acc ++ [v]) (advance w s)) as (acc' & Hrun & Hlen);
      [lia | simpl; nia |].
    replace (i + 1 + Z.of_nat k) with (i + Z.of_nat (S k)) in Hrun by lia.
    exists acc'. rewrite Hrun, advance_advance. split.
    + f_equal. f_equal. lia.
    + rewrite Hlen, length_app. simpl. lia.
Qed.

(** X11.  An array of a primitive element type.  After the class descriptor
    the record [{class, length}] is registered as the array's handle, the
    32-bit length is read, and then [length] values of the element type, each
    in the width of the type; the result is the sequence of these values.  A
    length below zero is not an error: the result is the empty sequence.
    (The element type is the second byte of the class name; [fuel] bounds the
    number of iterations.) *)
Theorem parseArray_primitive (content : allowList -> M Value) (fuel : nat)
    (s s1 : state) (p : nat) (c : clazz) (t w : Z) :
  classDesc content s = (Ok (Some p), s1) ->
  classes s1 !! p = Some c ->
  byteAt 1 (name c) = Some t ->
  primWidth t = Some w ->
  pos s1 + 4 <= len (buf s1) ->
  let size := signed 32 (beUint (peek 4 s1)) in
  let n := Z.max size 0 in
  let res : gmap string Value :=
    <["length" := VInt32 size]> {[ "class" := VClazz (Some p) ]} in
  n <= Z.of_nat fuel ->
  pos s1 + 4 + n * w <= len (buf s1) ->
  exists array,
    parseArray content fuel s
    = (Ok (VSlice array), advance (4 + n * w) (register (VMap res) s1)) /\
    len array = n.
Proof.
  intros Hcls Hc Ht Hw Hlen size n res Hfuel Hfit.
  pose proof (primWidth_pos t w Hw) as Hwpos.
  destruct (primitiveHandlers_width content t w Hw) as (h & Hh & Hrun).
  unfold parseArray. unfold bind at 1. unfold wrap at 1. rewrite Hcls.
  cbv beta iota zeta. unfold bind at 1. unfold getHandles at 1. cbv beta iota.
  unfold bind at 1. unfold newHandle at 1. cbv beta iota.
  fold (register (VMap {[ "class" := VClazz (Some p) ]}) s1).
  unfold bind at 1. unfold wrap at 1. unfold readInt32, bind at 1.
  rewrite readBE_ok by exact Hlen. unfold ret at 1. cbv beta iota.
  change (peek 4 (register (VMap {[ "class" := VClazz (Some p) ]}) s1)) with (peek 4 s1).
  fold size.
  unfold bind at 1. unfold setHandle at 1.
  cbn [handles advance register].
  destruct (decide (length (handles s1)
                    < length (handles s1 ++ [VMap {[ "class" := VClazz (Some p) ]}]))%nat)
    as [_ | Hge].
  2:{ rewrite length_app in Hge. simpl in Hge. lia. }
  rewrite insert_last. cbn [buf pos classes tags].
  fold res.
  set (s2 := mkState (buf s1) (pos s1 + 4) (handles s1 ++ [VMap res]) (classes s1) (tags s1)).
  assert (Hs2 : s2 = advance 4 (register (VMap res) s1)) by reflexivity.
  match goal with
  | |- exists array, ?m ?st = _ /\ _ => change st with s2
  end.
  unfold bind at 1. rewrite (deref_ok p c s2) by exact Hc.
  rewrite Ht, Hh.
  destruct (Z_le_gt_dec size 0) as [Hneg | Hpos].
  - (* no element *)
    assert (Hn : n = 0) by (unfold n; lia).
    unfold bind. rewrite forLoop_done by exact Hneg. unfold ret.
    exists []. rewrite Hn. split; [| reflexivity].
    rewrite Hs2. reflexivity.
  - assert (Hn : n = size) by (unfold n; lia).
    destruct (forLoop_reads h w "error reading primitive array member"
                (fun s => proj1 (Hrun s)) Hwpos (Z.to_nat size) fuel 0 [] s2)
      as (array & Harr & Hlen').
    { lia. }
    { rewrite Z2Nat.id by lia. simpl. lia. }
    rewrite Z2Nat.id in Harr by lia. change (0 + size) with size in Harr.
    unfold bind at 1. rewrite Harr. unfold ret.
    exists array. rewrite Hn. split.
    + rewrite Hs2, advance_advance. reflexivity.
    + unfold len. simpl in Hlen'. lia.
Qed.


Lemma parseArray_primitive_witness :
  exists array,
    parseArray (content 1) 2 intArrayState
    = (Ok (VSlice array),
       advance (4 + 2 * 4)
         (register (VMap (<["length" := VInt32 2]> {[ "class" := VClazz (Some 0%nat) ]}))
            (logged Reference (advance 5 intArrayState)))) /\
    len array = 2.
Proof.
  assert (Hcls : classDesc (content 1) intArrayState
                 = (Ok (Some 0%nat), logged Reference (advance 5 intArrayState)))
    by reflexivity.
  assert (Hc : classes (logged Reference (advance 5 intArrayState)) !! 0%nat
               = Some intArrayClazz) by reflexivity.
  assert (Ht : byteAt 1 (name intArrayClazz) = Some 73) by reflexivity.
  assert (Hw : primWidth 73 = Some 4) by reflexivity.
  assert (Hlen : pos (logged Reference (advance 5 intArrayState)) + 4
                 <= len (buf (logged Reference (advance 5 intArrayState)))) by by_compute.
  apply (parseArray_primitive (content 1) 2 intArrayState
           (logged Reference (advance 5 intArrayState)) 0 intArrayClazz 73 4
           Hcls Hc Ht Hw Hlen); by_compute.
Defined.

(** ** What the post-processors return *)

Lemma postProcSize_cases (data : list Value) (offset : Z) :
  (exists size, postProcSize data offset = Ok size /\ 1 <= len data) \/
  (exists why, postProcSize data offset = Err (New (UnexpectedShape why))).
Proof.
  unfold postProcSize, shapeError.
  destruct data as [| v rest]; [right; eexists; reflexivity |].
  assert (Hlen : 1 <= len (v :: rest)) by (unfold len; simpl; lia).
  destruct v; try (right; eexists; reflexivity).
  destruct (len b <? offset + 4); [right | left]; eexists; [reflexivity |].
  split; [reflexivity | exact Hlen].
Qed.

Lemma enumPairs_ok (data : list Value) (n i : nat) (m0 : gmap string Value) :
  (2 * (i + n) + 1 <= length data)%nat ->
  exists m, enumPairs data n i m0 = Ok m.
Proof.
  revert i m0. induction n as [| n IH]; intros i m0 Hlen.
  - exists m0. reflexivity.
  - simpl.
    destruct (data !! (i + (i + 0) + 1)%nat) as [key |] eqn:Hkey.
    2:{ apply lookup_ge_None in Hkey. lia. }
    destruct (data !! (i + (i + 0) + 2)%nat) as [value |] eqn:Hval.
    2:{ apply lookup_ge_None in Hval. lia. }
    apply IH. lia.
Qed.

Lemma listPostProc_setsValue (fields : gmap string Value) (data : list Value) :
  setsValue fields (listPostProc fields data).
Proof.
  unfold listPostProc, shapeError.
  destruct (postProcSize_cases data 0) as [(size & -> & _) | (why & ->)];
    [| right; eexists; reflexivity].
  destruct (negb (len data =? size + 1)); [right; eexists; reflexivity |].
  destruct (1 <? size); left; eexists; reflexivity.
Qed.

Lemma mapPostProc_setsValue (fields : gmap string Value) (data : list Value) :
  setsValue fields (mapPostProc fields data).
Proof.
  unfold mapPostProc, shapeError.
  destruct (postProcSize_cases data 4) as [(size & -> & Hlen) | (why & ->)];
    [| right; eexists; reflexivity].
  destruct (Z.ltb_spec (len data) (size * 2 + 1)); [right; eexists; reflexivity |].
  destruct (mapPairs_spec data (Z.to_nat size) 0 ∅) as (m & -> & _).
  { unfold len in *. lia. }
  left. eexists. reflexivity.
Qed.

Lemma enumMapPostProc_setsValue (fields : gmap string Value) (data : list Value) :
  setsValue fields (enumMapPostProc fields data).
Proof.
  unfold enumMapPostProc, shapeError.
  destruct (postProcSize_cases data 0) as [(size & -> & Hlen) | (why & ->)];
    [| right; eexists; reflexivity].
  destruct (Z.ltb_spec (len data) (size * 2 + 1)); [right; eexists; reflexivity |].
  destruct (enumPairs_ok data (Z.to_nat size) 0 ∅) as (m & ->).
  { unfold len in *. lia. }
  left. eexists. reflexivity.
Qed.

Lemma hashSetPostProc_setsValue (fields : gmap string Value) (data : list Value) :
  setsValue fields (hashSetPostProc fields data).
Proof.
  unfold hashSetPostProc, shapeError.
  destruct (postProcSize_cases data 8) as [(size & -> & Hlen) | (why & ->)];
    [| right; eexists; reflexivity].
  destruct (Z.eqb_spec (len data) (size + 1)) as [Hcount | _];
    [| right; eexists; reflexivity].
  simpl. destruct (Z.ltb_spec 1 size) as [Hgt | _]; [| left; eexists; reflexivity].
  assert (Hn : length (slice 1 size data) = Z.to_nat (size - 1)).
  { pose proof (slice_length 1 size data) as H. unfold len in H at 2. lia. }
  rewrite Hn.
  destruct (setKeys_spec data (Z.to_nat (size - 1)) 0 ∅) as (m & -> & _).
  { unfold len in Hcount. lia. }
  left. eexists. reflexivity.
Qed.

Lemma datePostProc_setsValue (fields : gmap string Value) (data : list Value) :
  setsValue fields (datePostProc fields data).
Proof.
  unfold datePostProc, shapeError.
  destruct data as [| v rest]; [right; eexists; reflexivity |].
  destruct v; try (right; eexists; reflexivity).
  destruct (len b <? 8); [right | left]; eexists; reflexivity.
Qed.

Lemma KnownPostProcs_elem (sig : string) (postproc : PostProc) :
  KnownPostProcs !! sig = Some postproc -> In postproc postProcs.
Proof.
  intros Hsig. unfold KnownPostProcs in Hsig.
  apply elem_of_list_to_map_2 in Hsig. unfold postProcs.
  repeat (apply elem_of_cons in Hsig; destruct Hsig as [Heq | Hsig];
          [injection Heq as _ ->; simpl; tauto |]).
  apply elem_of_nil in Hsig. contradiction.
Qed.

Lemma postProcs_setsValue (postproc : PostProc) (fields : gmap string Value)
    (data : list Value) :
  In postproc postProcs -> setsValue fields (postproc fields data).
Proof.
  unfold postProcs. simpl.
  intros [<- | [<- | [<- | [<- | [<- | []]]]]].
  - apply listPostProc_setsValue.
  - apply mapPostProc_setsValue.
  - apply enumMapPostProc_setsValue.
  - apply hashSetPostProc_setsValue.
  - apply datePostProc_setsValue.
Qed.

(** X12.  Every registered post-processor, on any fields and any annotations,
    either returns the fields with [value] set, or fails with
    UnexpectedShape: it indexes no element that is not there, changes no
    other field, and reports nothing else. *)
Theorem KnownPostProcs_setsValue (sig : string) (postproc : PostProc)
    (fields : gmap string Value) (data : list Value) :
  KnownPostProcs !! sig = Some postproc ->
  setsValue fields (postproc fields data).
Proof.
  intros Hsig. apply postProcs_setsValue. exact (KnownPostProcs_elem sig postproc Hsig).
Qed.

(** X13.  Without annotations, or with a first annotation that is not block
    data, every registered post-processor fails. *)
Theorem KnownPostProcs_need_block_data (sig : string) (postproc : PostProc)
    (fields : gmap string Value) (data : list Value) :
  KnownPostProcs !! sig = Some postproc ->
  match data with
  | [] => postproc fields data = Err (New (UnexpectedShape NoElements))
  | VBytes _ :: _ => True
  | _ :: _ => postproc fields data = Err (New (UnexpectedShape NotByteSlice))
  end.
Proof.
  intros Hsig. apply KnownPostProcs_elem in Hsig. unfold postProcs in Hsig. simpl in Hsig.
  destruct Hsig as [<- | [<- | [<- | [<- | [<- | []]]]]];
    destruct data as [| [] rest]; try exact I; reflexivity.
Qed.

Lemma KnownPostProcs_setsValue_witness :
  setsValue ∅ (datePostProc ∅ [VBytes (unhex "0000000000000001")]).
Proof.
  apply (KnownPostProcs_setsValue "java.util.Date@686a81014b597419" datePostProc).
  reflexivity.
Defined.

Lemma KnownPostProcs_need_block_data_witness :
  listPostProc ∅ [VString "a"] = Err (New (UnexpectedShape NotByteSlice)).
Proof.
  apply (KnownPostProcs_need_block_data "java.util.ArrayList@7881d21d99c7619d"
           listPostProc ∅ [VString "a"]).
  reflexivity.
Defined.

Lemma enumPairs_step (data : list Value) (n i : nat) (m : gmap string Value)
    (key value : Value) :
  data !! (2 * i + 1)%nat = Some key ->
  data !! (2 * i + 2)%nat = Some value ->
  enumPairs data (S n) i m
  = enumPairs data n (S i)
      (match enumKey key with Some s => <[s := value]> m | None => m end).
Proof.
  intros Hk Hv. simpl.
  replace (i + (i + 0) + 1)%nat with (2 * i + 1)%nat by lia.
  replace (i + (i + 0) + 2)%nat with (2 * i + 2)%nat by lia.
  rewrite Hk, Hv. f_equal.
  destruct key; try reflexivity. simpl.
  destruct (m0 !! "value") as [[] |]; reflexivity.
Qed.

(** The pair loop of enumMapPostProc, as mapPairs_spec has it for
    mapPostProc. *)
Lemma enumPairs_spec (data : list Value) (n i : nat) (m0 : gmap string Value) :
  (2 * (i + n) + 1 <= length data)%nat ->
  exists m, enumPairs data n i m0 = Ok m /\
    (forall k v, m !! k = Some v ->
       m0 !! k = Some v \/
       exists (j : nat) (key : Value), (i <= j < i + n)%nat /\
                 data !! (2 * j + 1)%nat = Some key /\ enumKey key = Some k /\
                 data !! (2 * j + 2)%nat = Some v) /\
    (forall k, is_Some (m0 !! k) \/
               (exists (j : nat) (key : Value), (i <= j < i + n)%nat /\
                  data !! (2 * j + 1)%nat = Some key /\ enumKey key = Some k) ->
               is_Some (m !! k)).
Proof.
  revert i m0. induction n as [| n IH]; intros i m0 Hlen.
  - exists m0. split; [reflexivity |]. split.
    + intros k v H. left. exact H.
    + intros k [H | (j & key & Hj & _)]; [exact H | lia].
  - destruct (data !! (2 * i + 1)%nat) as [key |] eqn:Hkey.
    2:{ apply lookup_ge_None in Hkey. lia. }
    destruct (data !! (2 * i + 2)%nat) as [value |] eqn:Hval.
    2:{ apply lookup_ge_None in Hval. lia. }
    rewrite (enumPairs_step data n i m0 key value Hkey Hval).
    destruct (IH (S i) (match enumKey key with Some s => <[s := value]> m0 | None => m0 end))
      as (m & Hm & Hin & Hkeys); [lia |].
    exists m. split; [exact Hm |]. split.
    + intros k v H. destruct (Hin k v H) as [H0 | (j & key' & Hj & Hk & He & Hv)].
      * destruct (enumKey key) as [s |] eqn:He; [| left; exact H0].
        destruct (decide (s = k)) as [-> | Hne].
        -- rewrite lookup_insert_eq in H0. injection H0 as <-.
           right. exists i, key. split; [lia |]. repeat split; assumption.
        -- rewrite lookup_insert_ne in H0 by exact Hne. left. exact H0.
      * right. exists j, key'. split; [lia |]. repeat split; assumption.
    + intros k H. apply Hkeys. destruct H as [H | (j & key' & Hj & Hk & He)].
      * left. destruct (enumKey key) as [s |]; [| exact H].
        destruct (decide (s = k)) as [-> | Hne].
        -- rewrite lookup_insert_eq. eexists; reflexivity.
        -- rewrite lookup_insert_ne by exact Hne. exact H.
      * destruct (decide (j = i)) as [-> | Hne].
        -- left. rewrite Hkey in Hk. injection Hk as <-. rewrite He.
           rewrite lookup_insert_eq. eexists; reflexivity.
        -- right. exists j, key'. split; [lia |]. split; assumption.
Qed.

(** X14.  enumMapPostProc is the post-processor of the EnumMap signature.
    With [size] the big-endian int32 in the first four bytes of annotation
    element 0, it fails when there are fewer than [2*size + 1] annotation
    elements.  Otherwise the entries of [value] are the pairs whose key is an
    enum constant (a record whose [value] is a string, the constant's name):
    every entry comes from such a pair, and every such pair among the first
    [size] has an entry under the constant's name. *)
Theorem enumMapPostProc_pairs (fields : gmap string Value) (b : list byte)
    (rest : list Value) :
  4 <= len b ->
  let data := VBytes b :: rest in
  let size := signed 32 (beUint (slice 0 4 b)) in
  KnownPostProcs !! "java.util.EnumMap@065d7df7be907ca1" = Some enumMapPostProc /\
  (len data < 2 * size + 1 ->
     enumMapPostProc fields data = shapeError (WrongCount size (len data - 1))) /\
  (2 * size + 1 <= len data ->
     exists m,
       enumMapPostProc fields data = Ok (<["value" := VMap m]> fields) /\
       (forall k v, m !! k = Some v ->
          exists (j : nat) (key : Value), Z.of_nat j < size /\
            data !! (2 * j + 1)%nat = Some key /\ enumKey key = Some k /\
            data !! (2 * j + 2)%nat = Some v) /\
       (forall (j : nat) key k, Z.of_nat j < size ->
          data !! (2 * j + 1)%nat = Some key -> enumKey key = Some k ->
          is_Some (m !! k))).
Proof.
  intros Hb data size.
  assert (Hsz : postProcSize data 0 = Ok size).
  { apply postProcSize_bytes. exact Hb. }
  split; [reflexivity |]. split.
  - intros Hshort. unfold enumMapPostProc. rewrite Hsz.
    destruct (Z.ltb_spec (len data) (size * 2 + 1)); [reflexivity | lia].
  - intros Henough.
    assert (Hlen : (2 * (0 + Z.to_nat size) + 1 <= length data)%nat).
    { unfold len in Henough. simpl in *. lia. }
    destruct (enumPairs_spec data (Z.to_nat size) 0 ∅ Hlen) as (m & Hm & Hin & Hkeys).
    exists m. split; [| split].
    + unfold enumMapPostProc. rewrite Hsz.
      destruct (Z.ltb_spec (len data) (size * 2 + 1)); [lia |].
      rewrite Hm. reflexivity.
    + intros k v H. destruct (Hin k v H) as [H0 | (j & key & Hj & Hk & He & Hv)].
      * rewrite lookup_empty in H0. discriminate.
      * exists j, key. split; [lia |]. repeat split; assumption.
    + intros j key k Hj Hk He. apply Hkeys. right. exists j, key.
      split; [lia |]. split; assumption.
Qed.

Lemma enumMapPostProc_pairs_witness :
  exists m,
    enumMapPostProc ∅
      [VBytes (unhex "00000001"); VMap {[ "value" := VString "RED" ]}; VInt32 1]
    = Ok (<["value" := VMap m]> ∅) /\
    is_Some (m !! "RED").
Proof.
  assert (Hb : 4 <= len (unhex "00000001")) by by_compute.
  destruct (enumMapPostProc_pairs ∅ (unhex "00000001")
              [VMap {[ "value" := VString "RED" ]}; VInt32 1] Hb)
    as (_ & _ & Hok).
  destruct Hok as (m & Hm & _ & Hkeys); [by_compute |].
  exists m. split; [exact Hm |].
  apply (Hkeys 0%nat (VMap {[ "value" := VString "RED" ]}) "RED");
    [by_compute | reflexivity | reflexivity].
Defined.

(** X15.  A size below zero.  The two post-processors that loop over pairs
    compare [2*size + 1] with the element count and accept: their loops do
    not run and [value] is the empty map.  The two that compare [size + 1]
    with the element count for equality reject. *)
Theorem negative_size (fields : gmap string Value) (b : list byte) (rest : list Value) :
  12 <= len b ->
  let data := VBytes b :: rest in
  (signed 32 (beUint (slice 4 8 b)) < 0 ->
     mapPostProc fields data = Ok (<["value" := VMap ∅]> fields)) /\
  (signed 32 (beUint (slice 0 4 b)) < 0 ->
     enumMapPostProc fields data = Ok (<["value" := VMap ∅]> fields) /\
     listPostProc fields data
     = shapeError (WrongCount (signed 32 (beUint (slice 0 4 b))) (len data - 1))) /\
  (signed 32 (beUint (slice 8 12 b)) < 0 ->
     hashSetPostProc fields data
     = shapeError (WrongCount (signed 32 (beUint (slice 8 12 b))) (len data - 1))).
Proof.
  intros Hb data. subst data.
  assert (Hlen : 1 <= len (VBytes b :: rest)) by (unfold len; simpl; lia).
  split; [| split].
  - intros Hneg. unfold mapPostProc.
    rewrite (postProcSize_bytes b rest 4) by lia.
    destruct (Z.ltb_spec (len (VBytes b :: rest)) (signed 32 (beUint (slice 4 (4 + 4) b)) * 2 + 1));
      [change (4 + 4) with 8 in *; lia |].
    change (4 + 4) with 8. rewrite Z2Nat.nonpos by lia. reflexivity.
  - intros Hneg. split.
    + unfold enumMapPostProc. rewrite (postProcSize_bytes b rest 0) by lia.
      destruct (Z.ltb_spec (len (VBytes b :: rest)) (signed 32 (beUint (slice 0 (0 + 4) b)) * 2 + 1));
        [change (0 + 4) with 4 in *; lia |].
      change (0 + 4) with 4. rewrite Z2Nat.nonpos by lia. reflexivity.
    + unfold listPostProc. rewrite (postProcSize_bytes b rest 0) by lia.
      change (0 + 4) with 4.
      destruct (Z.eqb_spec (len (VBytes b :: rest)) (signed 32 (beUint (slice 0 4 b)) + 1));
        [lia | reflexivity].
  - intros Hneg. unfold hashSetPostProc. rewrite (postProcSize_bytes b rest 8) by lia.
    change (8 + 4) with 12.
    destruct (Z.eqb_spec (len (VBytes b :: rest)) (signed 32 (beUint (slice 8 12 b)) + 1));
      [lia | reflexivity].
Qed.

Lemma negative_size_witness :
  mapPostProc ∅ [VBytes (unhex "00000010ffffffff00000000"); VString "k"; VString "v"]
  = Ok (<["value" := VMap ∅]> ∅).
Proof.
  assert (Hb : 12 <= len (unhex "00000010ffffffff00000000")) by by_compute.
  destruct (negative_size ∅ (unhex "00000010ffffffff00000000") [VString "k"; VString "v"] Hb)
    as (Hmap & _).
  apply Hmap. by_compute.
Defined.

(** ** The minimal representation *)

Lemma jsonFriendlyObject_map (m : gmap string Value) :
  jsonFriendlyObject (VMap m)
  = let jsonMap := jsonFriendlyMap m in
    match jsonMap !! "value" with
    | Some mVal =>
        if bool_decide (is_Some (jsonMap !! "@")) || bool_decide (size jsonMap = 1%nat)
        then mVal
        else VMap jsonMap
    | None => VMap jsonMap
    end.
Proof. reflexivity. Qed.

Lemma jsonFriendlyObject_slice (arr : list Value) :
  jsonFriendlyObject (VSlice arr) = VSlice (jsonFriendlyArray arr).
Proof. reflexivity. Qed.

Lemma Value_size_lookup (m : gmap string Value) (k : string) (v : Value) :
  m !! k = Some v -> (Value_size v < Value_size (VMap m))%nat.
Proof.
  intros H. simpl.
  rewrite (map_fold_delete_L (fun _ v' n => Value_size v' + n)%nat 0%nat k v m); [lia | | exact H].
  intros. lia.
Qed.

Lemma Value_size_In (l : list Value) (v : Value) :
  In v l -> (Value_size v < Value_size (VSlice l))%nat.
Proof.
  intros H. simpl. induction l as [| x l IH]; [destruct H |].
  simpl. destruct H as [-> | H]; [lia |]. specialize (IH H). lia.
Qed.

Lemma Value_ind' (P : Value -> Prop) :
  (forall m, (forall k v, m !! k = Some v -> P v) -> P (VMap m)) ->
  (forall l, (forall v, In v l -> P v) -> P (VSlice l)) ->
  (forall v, match v with VMap _ | VSlice _ => False | _ => True end -> P v) ->
  forall v, P v.
Proof.
  intros Hmap Hslice Hleaf v.
  remember (Value_size v) as n eqn:Hn. revert v Hn.
  induction n as [n IH] using lt_wf_ind. intros v ->.
  destruct v; try (apply Hleaf; exact I).
  - apply Hslice. intros v Hin. apply (IH (Value_size v)); [| reflexivity].
    apply Value_size_In. exact Hin.
  - apply Hmap. intros k v Hk. apply (IH (Value_size v)); [| reflexivity].
    apply (Value_size_lookup m k). exact Hk.
Qed.

Lemma jsonFriendlyMap_lookup (m : gmap string Value) (k : string) :
  jsonFriendlyMap m !! k
  = if decide (k = "extends") then None
    else match m !! k with
         | Some v => if isClazz v then None else Some (jsonFriendlyObject v)
         | None => None
         end.
Proof.
  unfold jsonFriendlyMap. destruct (decide (k = "extends")) as [-> | Hne].
  - apply lookup_delete_eq.
  - rewrite lookup_delete_ne by congruence. rewrite lookup_omap.
    destruct (m !! k); reflexivity.
Qed.

(** Leaving out "extends" before the values are formatted, as the source
    does, gives the same map. *)
Lemma jsonFriendlyMap_skips_extends (m : gmap string Value) :
  jsonFriendlyMap m
  = omap (fun v => if isClazz v then None else Some (jsonFriendlyObject v))
      (delete "extends" m).
Proof.
  apply map_eq. intros k. rewrite jsonFriendlyMap_lookup, lookup_omap.
  destruct (decide (k = "extends")) as [-> | Hne].
  - rewrite lookup_delete_eq. reflexivity.
  - rewrite lookup_delete_ne by congruence. destruct (m !! k); reflexivity.
Qed.

(** What jsonFriendlyObject returns has the dynamic type of a class
    definition only if its argument has. *)
Lemma jsonFriendlyObject_isClazz (v : Value) :
  isClazz v = false -> isClazz (jsonFriendlyObject v) = false.
Proof.
  induction v as [m IH | l IH | v Hleaf] using Value_ind'; intros Hv.
  - rewrite jsonFriendlyObject_map. cbv zeta.
    destruct (jsonFriendlyMap m !! "value") as [mVal |] eqn:Hval; [| reflexivity].
    destruct (bool_decide (is_Some (jsonFriendlyMap m !! "@"))
              || bool_decide (size (jsonFriendlyMap m) = 1%nat)); [| reflexivity].
    rewrite jsonFriendlyMap_lookup in Hval.
    destruct (decide ("value" = "extends")); [discriminate |].
    destruct (m !! "value") as [v0 |] eqn:Hm; [| discriminate].
    destruct (isClazz v0) eqn:Hc; [discriminate |].
    injection Hval as <-. apply (IH "value" v0 Hm Hc).
  - reflexivity.
  - destruct v; try reflexivity; try destruct Hleaf; discriminate Hv.
Qed.

Lemma jsonFriendlyMap_idempotent (m : gmap string Value) :
  (forall k v, m !! k = Some v ->
     jsonFriendlyObject (jsonFriendlyObject v) = jsonFriendlyObject v) ->
  jsonFriendlyMap (jsonFriendlyMap m) = jsonFriendlyMap m.
Proof.
  intros IH. apply map_eq. intros k.
  rewrite (jsonFriendlyMap_lookup (jsonFriendlyMap m)).
  rewrite (jsonFriendlyMap_lookup m).
  destruct (decide (k = "extends")); [reflexivity |].
  destruct (m !! k) as [v |] eqn:Hk; [| reflexivity].
  destruct (isClazz v) eqn:Hc; [reflexivity |].
  rewrite (jsonFriendlyObject_isClazz v Hc). rewrite (IH k v Hk). reflexivity.
Qed.

(** X16.  jsonFriendlyObject is idempotent: formatting what it returns changes
    nothing. *)
Theorem jsonFriendlyObject_idempotent (v : Value) :
  jsonFriendlyObject (jsonFriendlyObject v) = jsonFriendlyObject v.
Proof.
  induction v as [m IH | l IH | v Hleaf] using Value_ind'.
  - pose proof (jsonFriendlyMap_idempotent m IH) as Hmap.
    rewrite (jsonFriendlyObject_map m). cbv zeta.
    destruct (jsonFriendlyMap m !! "value") as [mVal |] eqn:Hval.
    + destruct (bool_decide (is_Some (jsonFriendlyMap m !! "@"))
                || bool_decide (size (jsonFriendlyMap m) = 1%nat)) eqn:Hp.
      * rewrite jsonFriendlyMap_lookup in Hval.
        destruct (decide ("value" = "extends")); [discriminate |].
        destruct (m !! "value") as [v0 |] eqn:Hm; [| discriminate].
        destruct (isClazz v0); [discriminate |].
        injection Hval as <-. apply (IH "value" v0 Hm).
      * rewrite (jsonFriendlyObject_map (jsonFriendlyMap m)). cbv zeta.
        rewrite Hmap, Hval, Hp. reflexivity.
    + rewrite (jsonFriendlyObject_map (jsonFriendlyMap m)). cbv zeta.
      rewrite Hmap, Hval. reflexivity.
  - rewrite !jsonFriendlyObject_slice. f_equal. unfold jsonFriendlyArray.
    rewrite map_map. apply map_ext_in. exact IH.
  - destruct v; try reflexivity; destruct Hleaf.
Qed.


(** X18.  An object collapses to its [value] (formatted) in two cases: when it
    has raw annotations under ["@"], as every post-processed object has, and
    when [value] is the only entry that is left once "extends" and the class
    definitions are filtered out, as for the boxed numbers.  The filter
    comes first: a [value] or an ["@"] that is a class definition does not
    count. *)
Theorem jsonFriendlyObject_promotes (m : gmap string Value) (v : Value) :
  m !! "value" = Some v ->
  isClazz v = false ->
  (exists a, m !! "@" = Some a /\ isClazz a = false) \/
  (forall k v', m !! k = Some v' -> k = "value" \/ k = "extends" \/ isClazz v' = true) ->
  jsonFriendlyObject (VMap m) = jsonFriendlyObject v.
Proof.
  intros Hv Hc Hcase. rewrite jsonFriendlyObject_map. cbv zeta.
  assert (Hval : jsonFriendlyMap m !! "value" = Some (jsonFriendlyObject v)).
  { rewrite jsonFriendlyMap_lookup, Hv, Hc. reflexivity. }
  rewrite Hval.
  destruct Hcase as [(a & Ha & Hca) | Honly].
  - assert (Hraw : jsonFriendlyMap m !! "@" = Some (jsonFriendlyObject a)).
    { rewrite jsonFriendlyMap_lookup, Ha, Hca. reflexivity. }
    rewrite Hraw. rewrite bool_decide_eq_true_2 by (eexists; reflexivity). reflexivity.
  - assert (Hsingle : jsonFriendlyMap m = {[ "value" := jsonFriendlyObject v ]}).
    { apply map_eq. intros k. destruct (decide (k = "value")) as [-> | Hk].
      - rewrite Hval, lookup_singleton_eq. reflexivity.
      - rewrite lookup_singleton_ne by congruence.
        rewrite jsonFriendlyMap_lookup.
        destruct (decide (k = "extends")); [reflexivity |].
        destruct (m !! k) as [v' |] eqn:Hk'; [| reflexivity].
        destruct (Honly k v' Hk') as [-> | [-> | ->]]; [congruence | congruence | reflexivity]. }
    rewrite Hsingle, map_size_singleton.
    rewrite (bool_decide_eq_true_2 (1%nat = 1%nat)) by reflexivity.
    rewrite orb_true_r. reflexivity.
Qed.

Lemma jsonFriendlyObject_promotes_witness :
  jsonFriendlyObject
    (VMap (<["value" := VInt32 123]>
             (<["extends" := VMap ∅]> {[ "class" := VClazz (Some 0%nat) ]})))
  = jsonFriendlyObject (VInt32 123).
Proof.
  apply jsonFriendlyObject_promotes.
  - reflexivity.
  - reflexivity.
  - right. intros k v' Hk.
    destruct (decide (k = "value")) as [-> | H1]; [left; reflexivity |].
    destruct (decide (k = "extends")) as [-> | H2]; [right; left; reflexivity |].
    right. right.
    rewrite lookup_insert_ne in Hk by congruence.
    rewrite lookup_insert_ne in Hk by congruence.
    apply lookup_singleton_Some in Hk. destruct Hk as [_ <-]. reflexivity.
Defined.

(** ** No panic *)

Lemma grows_refl (s : state) : grows s s.
Proof. split; [lia | auto]. Qed.

Lemma grows_trans (s1 s2 s3 : state) : grows s1 s2 -> grows s2 s3 -> grows s1 s3.
Proof. intros [H1 G1] [H2 G2]. split; [lia | auto]. Qed.

Lemma good_same (s s' : state) (p : nat) :
  classes s' = classes s -> good s p -> good s' p.
Proof. intros Hc (c & Hl & Hn). exists c. rewrite Hc. split; assumption. Qed.

Lemma wf_same (s s' : state) :
  handles s' = handles s -> classes s' = classes s -> wf s -> wf s' /\ grows s s'.
Proof.
  intros Hh Hc [Hw1 Hw2].
  assert (Hg : forall p, good s p -> good s' p) by (intros p; apply good_same; exact Hc).
  split; [split |].
  - intros i v Hi. rewrite Hh in Hi. specialize (Hw1 i v Hi).
    destruct v as [| | | | | | | | | | | | | | [p |] |]; simpl in *; auto.
  - intros q c Hq. rewrite Hc in Hq. specialize (Hw2 q c Hq).
    destruct (super c); simpl in *; auto.
  - split; [rewrite Hh; lia | exact Hg].
Qed.

Lemma mono_true : Mono (fun _ => True).
Proof. intros s s' _ _. exact I. Qed.

Lemma mono_const (C : Prop) : Mono (fun _ => C).
Proof. intros s s' _ H. exact H. Qed.

Lemma mono_and (P Q : state -> Prop) : Mono P -> Mono Q -> Mono (fun s => P s /\ Q s).
Proof. intros HP HQ s s' Hg [H1 H2]. split; [apply (HP s) | apply (HQ s)]; assumption. Qed.

Lemma mono_good (p : nat) : Mono (fun s => good s p).
Proof. intros s s' [_ Hg]. apply Hg. Qed.

Lemma mono_goodOpt (o : option nat) : Mono (fun s => goodOpt s o).
Proof. destruct o; simpl; [apply mono_good | apply mono_true]. Qed.

Lemma mono_okValue (v : Value) : Mono (fun s => okValue s v).
Proof.
  destruct v as [| | | | | | | | | | | | | | [p |] |]; simpl;
    first [apply mono_good | apply mono_true].
Qed.

Lemma mono_lt_handles (n : nat) : Mono (fun s => (n < length (handles s))%nat).
Proof. intros s s' [Hl _] H. lia. Qed.

Lemma mono_le_handles (n : nat) : Mono (fun s => (n <= length (handles s))%nat).
Proof. intros s s' [Hl _] H. lia. Qed.

Ltac mono :=
  cbv beta;
  repeat first
    [ apply mono_and | apply mono_true | apply mono_good | apply mono_goodOpt
    | apply mono_okValue | apply mono_lt_handles | apply mono_le_handles
    | apply mono_const ].

Ltac np_side :=
  cbv beta; intros; cbv beta in *;
  repeat match goal with
         | H : _ /\ _ |- _ => destruct H
         | H : exists _, _ |- _ => destruct H
         end;
  subst; simpl okValue in *; simpl goodOpt in *;
  repeat split;
  first [ exact I | assumption | reflexivity | lia | discriminate | idtac ].

Lemma np_ret {A} (P : state -> Prop) (Q : A -> state -> Prop) (a : A) :
  (forall s, wf s -> P s -> Q a s) -> NoPanic P Q (ret a).
Proof.
  intros H s Hwf HP. simpl. split; [exact Hwf |]. split; [apply grows_refl | auto].
Qed.

Lemma np_fail {A} (P : state -> Prop) (Q : A -> state -> Prop) (e : error) :
  Cause e <> Panic -> NoPanic P Q (fail e).
Proof. intros H s _ _. exact H. Qed.

Lemma np_errorf {A} (P : state -> Prop) (Q : A -> state -> Prop) (k : kind) :
  k <> Panic -> NoPanic P Q (errorf k).
Proof. intros H. apply np_fail. exact H. Qed.

Lemma np_absurd {A} (P : state -> Prop) (Q : A -> state -> Prop) (m : M A) :
  (forall s, P s -> False) -> NoPanic P Q m.
Proof. intros H s _ HP. destruct (H s HP). Qed.

Lemma np_bind {A B} (P : state -> Prop) (Q1 : A -> state -> Prop)
    (Q2 : B -> state -> Prop) (m : M A) (k : A -> M B) :
  Mono P ->
  NoPanic P Q1 m ->
  (forall a, NoPanic (fun s => P s /\ Q1 a s) Q2 (k a)) ->
  NoPanic P Q2 (bind m k).
Proof.
  intros HP Hm Hk s Hwf Hs. unfold bind. specialize (Hm s Hwf Hs).
  destruct (m s) as [[a | e] s1]; [| exact Hm].
  destruct Hm as (Hwf1 & Hg1 & Hq1).
  specialize (Hk a s1 Hwf1 (conj (HP s s1 Hg1 Hs) Hq1)).
  destruct (k a s1) as [[b | e] s2]; [| exact Hk].
  destruct Hk as (Hwf2 & Hg2 & Hq2).
  split; [exact Hwf2 |]. split; [exact (grows_trans _ _ _ Hg1 Hg2) | exact Hq2].
Qed.

Lemma np_wrap {A} (P : state -> Prop) (Q : A -> state -> Prop) (msg : string) (m : M A) :
  NoPanic P Q m -> NoPanic P Q (wrap msg m).
Proof.
  intros Hm s Hwf Hs. unfold wrap. specialize (Hm s Hwf Hs).
  destruct (m s) as [[a | e] s1]; exact Hm.
Qed.

Lemma np_conseq {A} (P0 P : state -> Prop) (Q0 Q : A -> state -> Prop) (m : M A) :
  NoPanic P0 Q0 m ->
  (forall s, wf s -> P s -> P0 s) ->
  (forall s a s', wf s -> P s -> wf s' -> grows s s' -> Q0 a s' -> Q a s') ->
  NoPanic P Q m.
Proof.
  intros Hm Hpre Hpost s Hwf Hs. specialize (Hm s Hwf (Hpre s Hwf Hs)).
  destruct (m s) as [[a | e] s1]; [| exact Hm].
  destruct Hm as (Hwf1 & Hg1 & Hq1).
  split; [exact Hwf1 |]. split; [exact Hg1 |]. eapply Hpost; eassumption.
Qed.

Lemma np_pre {A} (P0 P : state -> Prop) (Q : A -> state -> Prop) (m : M A) :
  NoPanic P0 Q m -> (forall s, wf s -> P s -> P0 s) -> NoPanic P Q m.
Proof. intros Hm Hpre. apply (np_conseq P0 P Q Q m Hm Hpre). auto. Qed.

Lemma np_quiet {A} (m : M A) : Quiet m -> NoPanic (fun _ => True) (fun _ _ => True) m.
Proof.
  intros Hq s Hwf _. specialize (Hq s).
  destruct (m s) as [[a | e] s1]; [| exact Hq].
  destruct Hq as [Hh Hc]. destruct (wf_same s s1 Hh Hc Hwf) as [Hwf1 Hg].
  split; [exact Hwf1 |]. split; [exact Hg | exact I].
Qed.

(** *** The byte reader is quiet *)

Lemma quiet_ret {A} (a : A) : Quiet (ret a).
Proof. intros s. simpl. split; reflexivity. Qed.

Lemma quiet_errorf {A} (k : kind) : k <> Panic -> Quiet (@errorf A k).
Proof. intros H s. exact H. Qed.

Lemma quiet_bind {A B} (m : M A) (k : A -> M B) :
  Quiet m -> (forall a, Quiet (k a)) -> Quiet (bind m k).
Proof.
  intros Hm Hk s. unfold bind. specialize (Hm s).
  destruct (m s) as [[a | e] s1]; [| exact Hm].
  destruct Hm as [Hh Hc]. specialize (Hk a s1).
  destruct (k a s1) as [[b | e] s2]; [| exact Hk].
  destruct Hk as [Hh2 Hc2]. split; congruence.
Qed.

Lemma quiet_wrap {A} (msg : string) (m : M A) : Quiet m -> Quiet (wrap msg m).
Proof.
  intros Hm s. unfold wrap. specialize (Hm s).
  destruct (m s) as [[a | e] s1]; exact Hm.
Qed.

Lemma quiet_step (cnt : Z) : Quiet (step cnt).
Proof.
  intros s. unfold step.
  destruct (len (buf s) <? pos (advance cnt s)); simpl; [discriminate | split; reflexivity].
Qed.

Lemma quiet_bufSlice (lo hi : Z) : Quiet (bufSlice lo hi).
Proof. intros s. simpl. split; reflexivity. Qed.

Ltac quiet :=
  repeat first
    [ apply quiet_bind; [| intros ?]
    | apply quiet_wrap
    | apply quiet_ret
    | apply quiet_step
    | apply quiet_bufSlice
    | apply quiet_errorf; discriminate
    | match goal with
      | |- Quiet (if ?b then _ else _) => destruct b
      end ].

Lemma quiet_readBE (n : Z) : Quiet (readBE n).
Proof. unfold readBE. quiet. Qed.

Lemma quiet_signed (n w : Z) : Quiet (x <- readBE n ;; ret (signed w x)).
Proof. apply quiet_bind; [apply quiet_readBE | intros ?; apply quiet_ret]. Qed.

Lemma quiet_readString (cnt : Z) (asHex : bool) : Quiet (readString cnt asHex).
Proof. unfold readString. quiet. Qed.

Lemma quiet_utf : Quiet utf.
Proof.
  unfold utf. apply quiet_bind; [apply quiet_wrap, quiet_readBE |].
  intros ?. apply quiet_wrap, quiet_readString.
Qed.

Lemma quiet_utfLong : Quiet utfLong.
Proof.
  unfold utfLong. apply quiet_bind; [apply quiet_wrap, quiet_readBE |].
  intros ?. destruct (negb (a =? 0)); [apply quiet_errorf; discriminate |].
  apply quiet_bind; [apply quiet_wrap, quiet_readBE |].
  intros ?. apply quiet_wrap, quiet_readString.
Qed.

Lemma quiet_parseBlockData : Quiet parseBlockData.
Proof.
  unfold parseBlockData. apply quiet_bind; [apply quiet_wrap, quiet_readBE |].
  intros ?. quiet.
Qed.

Lemma quiet_parseBlockDataLong : Quiet parseBlockDataLong.
Proof.
  unfold parseBlockDataLong. apply quiet_bind; [apply quiet_wrap, quiet_readBE |].
  intros ?. quiet.
Qed.

Lemma quiet_magic : Quiet magic.
Proof.
  unfold magic. apply quiet_bind; [apply quiet_readBE |]. intros ?. quiet.
Qed.

Lemma quiet_version : Quiet version.
Proof.
  intros s. unfold version. pose proof (quiet_readBE 2 s) as H.
  change (readBE 2) with readUInt16 in H.
  destruct (readUInt16 s) as [[ver | e] s1]; [| simpl; discriminate].
  destruct (negb (ver =? 5)); [simpl; discriminate | exact H].
Qed.

(** *** The handle table *)

Lemma okValue_good_mono (s s' : state) (v : Value) :
  (forall p, good s p -> good s' p) -> okValue s v -> okValue s' v.
Proof. intros Hg. destruct v as [| | | | | | | | | | | | | | [p |] |]; simpl; auto. Qed.

Lemma np_newHandle (n : nat) (v : Value) :
  NoPanic (fun s => okValue s v /\ (n <= length (handles s))%nat)
          (fun a s => a = v /\ (n < length (handles s))%nat)
          (newHandle v).
Proof.
  intros s [Hw1 Hw2] [Hv Hn]. simpl.
  assert (Hg : forall p, good s p -> good (mkState (buf s) (pos s) (handles s ++ [v]) (classes s) (tags s)) p).
  { intros p H. exact H. }
  split; [split |]; simpl.
  - intros i w Hi. apply lookup_app_Some in Hi.
    destruct Hi as [Hi | [_ Hi]].
    + exact (Hw1 i w Hi).
    + destruct (i - length (handles s))%nat; simpl in Hi; [| discriminate].
      injection Hi as <-. exact Hv.
  - exact Hw2.
  - split; [split; [simpl; rewrite length_app; simpl; lia | exact Hg] |].
    split; [reflexivity | rewrite length_app; simpl; lia].
Qed.

Lemma np_newDeferredHandle :
  NoPanic (fun _ => True) (fun idx s => (idx < length (handles s))%nat) newDeferredHandle.
Proof.
  intros s [Hw1 Hw2] _. simpl.
  split; [split |]; simpl.
  - intros i w Hi. apply lookup_app_Some in Hi.
    destruct Hi as [Hi | [_ Hi]].
    + exact (Hw1 i w Hi).
    + destruct (i - length (handles s))%nat; simpl in Hi; [| discriminate].
      injection Hi as <-. exact I.
  - exact Hw2.
  - split; [split; [simpl; rewrite length_app; simpl; lia | auto] |].
    rewrite length_app. simpl. lia.
Qed.

Lemma wf_insert_handle (s : state) (idx : nat) (v : Value) :
  wf s -> okValue s v ->
  wf (mkState (buf s) (pos s) (<[idx := v]> (handles s)) (classes s) (tags s)).
Proof.
  intros [Hw1 Hw2] Hv. split; simpl.
  - intros i w Hi. destruct (decide (i = idx)) as [-> | Hne].
    + apply list_lookup_insert_Some in Hi.
      destruct Hi as [(_ & <- & _) | (Hne & _)]; [exact Hv | congruence].
    + rewrite list_lookup_insert_ne in Hi by congruence. exact (Hw1 i w Hi).
  - exact Hw2.
Qed.

Lemma np_fillHandle (idx : nat) (v : Value) :
  NoPanic (fun s => (idx < length (handles s))%nat /\ okValue s v)
          (fun a s => okValue s a)
          (fillHandle idx v).
Proof.
  intros s Hwf [Hidx Hv]. unfold fillHandle.
  destruct (decide (idx < length (handles s))%nat) as [_ | Hn]; [| contradiction].
  split; [apply wf_insert_handle; assumption |].
  split; [split; [simpl; rewrite length_insert; lia | auto] | exact Hv].
Qed.

Lemma np_setHandle (idx : nat) (v : Value) :
  NoPanic (fun s => (idx < length (handles s))%nat /\ okValue s v)
          (fun _ _ => True)
          (setHandle idx v).
Proof.
  intros s Hwf [Hidx Hv]. unfold setHandle.
  destruct (decide (idx < length (handles s))%nat) as [_ | Hn]; [| contradiction].
  split; [apply wf_insert_handle; assumption |].
  split; [split; [simpl; rewrite length_insert; lia | auto] | exact I].
Qed.

Lemma np_getHandles :
  NoPanic (fun _ => True) (fun hs s => (length hs <= length (handles s))%nat) getHandles.
Proof.
  intros s Hwf _. simpl. split; [exact Hwf |]. split; [apply grows_refl | lia].
Qed.

Lemma np_logTag (n : TypeName) : NoPanic (fun _ => True) (fun _ _ => True) (logTag n).
Proof.
  intros s Hwf _. simpl.
  destruct (wf_same s (mkState (buf s) (pos s) (handles s) (classes s) (tags s ++ [n]))
              eq_refl eq_refl Hwf) as [H1 H2].
  split; [exact H1 |]. split; [exact H2 | exact I].
Qed.

Lemma np_liftR {A} (r : result A) :
  (forall e, r = Err e -> Cause e <> Panic) ->
  NoPanic (fun _ => True) (fun _ _ => True) (liftR r).
Proof.
  intros H s Hwf _. unfold liftR. destruct r as [a | e].
  - split; [exact Hwf |]. split; [apply grows_refl | exact I].
  - apply H. reflexivity.
Qed.

(** *** The class store *)

Lemma np_deref (p : nat) :
  NoPanic (fun s => good s p)
          (fun c s => 2 <= strlen (name c) /\ goodOpt s (super c))
          (deref p).
Proof.
  intros s Hwf (c & Hc & Hn). unfold deref. rewrite Hc.
  split; [exact Hwf |]. split; [apply grows_refl |].
  split; [exact Hn |]. destruct Hwf as [_ Hw2]. exact (Hw2 p c Hc).
Qed.

(** An assignment to a member other than the name keeps the good pointers
    good; one to [super] needs a good pointer. *)
Lemma good_alter (s : state) (p : nat) (f : clazz -> clazz) (q : nat) :
  (forall c, name (f c) = name c) ->
  good s q <->
  good (mkState (buf s) (pos s) (handles s) (alter f p (classes s)) (tags s)) q.
Proof.
  intros Hname. unfold good. simpl. split.
  - intros (c & Hc & Hn). destruct (decide (q = p)) as [-> | Hne].
    + exists (f c). rewrite list_lookup_alter_eq, Hc. simpl.
      split; [reflexivity | rewrite Hname; exact Hn].
    + exists c. rewrite list_lookup_alter_ne by congruence. split; assumption.
  - intros (c & Hc & Hn). destruct (decide (q = p)) as [-> | Hne].
    + rewrite list_lookup_alter_eq in Hc.
      destruct (classes s !! p) as [c0 |] eqn:Hc0; [| discriminate].
      simpl in Hc. injection Hc as <-. exists c0.
      split; [reflexivity | rewrite Hname in Hn; exact Hn].
    + rewrite list_lookup_alter_ne in Hc by congruence. exists c. split; assumption.
Qed.

Lemma np_setClazz_gen (p : nat) (f : clazz -> clazz) (P : state -> Prop) :
  (forall c, name (f c) = name c) ->
  (forall s c, P s -> goodOpt s (super c) -> goodOpt s (super (f c))) ->
  NoPanic P (fun _ _ => True) (setClazz p f).
Proof.
  intros Hname Hsuper s [Hw1 Hw2] HP. unfold setClazz.
  set (s' := mkState (buf s) (pos s) (handles s) (alter f p (classes s)) (tags s)).
  assert (Hg : forall q, good s q <-> good s' q) by (intros q; apply good_alter; exact Hname).
  assert (Hgo : forall o, goodOpt s o -> goodOpt s' o).
  { intros [q |]; simpl; [apply Hg | auto]. }
  split; [split |].
  - intros i v Hi. specialize (Hw1 i v Hi). simpl in Hi.
    apply (okValue_good_mono s s'); [intros q; apply Hg | exact Hw1].
  - intros q c Hq. simpl in Hq. destruct (decide (q = p)) as [-> | Hne].
    + rewrite list_lookup_alter_eq in Hq.
      destruct (classes s !! p) as [c0 |] eqn:Hc0; [| discriminate].
      simpl in Hq. injection Hq as <-. apply Hgo. apply (Hsuper s c0 HP).
      exact (Hw2 p c0 Hc0).
    + rewrite list_lookup_alter_ne in Hq by congruence. apply Hgo. exact (Hw2 q c Hq).
  - split; [| exact I]. split; [simpl; lia | intros q; apply Hg].
Qed.

Lemma np_setClazz (p : nat) (f : clazz -> clazz) :
  (forall c, name (f c) = name c) ->
  (forall c, super (f c) = super c) ->
  NoPanic (fun _ => True) (fun _ _ => True) (setClazz p f).
Proof.
  intros Hname Hsuper. apply np_setClazz_gen; [exact Hname |].
  intros s c _ H. rewrite Hsuper. exact H.
Qed.

Lemma np_setSuper (p : nat) (sup : option nat) :
  NoPanic (fun s => goodOpt s sup) (fun _ _ => True) (setClazz p (setSuper sup)).
Proof.
  apply np_setClazz_gen; [reflexivity |]. intros s c H _. exact H.
Qed.

(** *** Reading values *)

Lemma np_read {A} (P : state -> Prop) (m : M A) :
  Quiet m -> NoPanic P (fun _ _ => True) m.
Proof. intros H. apply (np_pre (fun _ => True)); [apply np_quiet; exact H | auto]. Qed.

Lemma np_parseReference (P : state -> Prop) :
  NoPanic P (fun v s => okValue s v) parseReference.
Proof.
  intros s Hwf _. unfold parseReference. unfold bind at 1.
  pose proof (quiet_wrap "error reading reference index" readInt32
                (quiet_signed 4 32) s) as Hq.
  destruct (wrap "error reading reference index" readInt32 s) as [[refIdx | e] s1];
    [| exact Hq].
  destruct Hq as [Hh Hc]. destruct (wf_same s s1 Hh Hc Hwf) as [Hwf1 Hg].
  unfold bind, getHandles.
  destruct ((-1 <? int32_sub refIdx 8257536) && (int32_sub refIdx 8257536 <? len (handles s1)))
    eqn:Hguard.
  - destruct (handles s1 !! Z.to_nat (int32_sub refIdx 8257536)) as [ref |] eqn:Href.
    + simpl. split; [exact Hwf1 |]. split; [exact Hg |].
      destruct Hwf1 as [Hw1 _]. exact (Hw1 _ _ Href).
    + apply andb_true_iff in Hguard. destruct Hguard as [H1 H2].
      apply Z.ltb_lt in H1, H2. apply lookup_ge_None in Href. unfold len in H2. lia.
  - simpl. split; [exact Hwf1 |]. split; [exact Hg | exact I].
Qed.


Lemma np_top {A} (P : state -> Prop) (Q : A -> state -> Prop) (m : M A) :
  NoPanic (fun _ => True) Q m -> NoPanic P Q m.
Proof. intros H. apply (np_pre (fun _ => True)); [exact H | auto]. Qed.

Lemma np_newHandle' (P : state -> Prop) (v : Value) :
  (forall s, wf s -> P s -> okValue s v) ->
  NoPanic P (fun a s => okValue s a) (newHandle v).
Proof.
  intros H. apply (np_conseq _ _ _ _ _ (np_newHandle 0 v)).
  - intros s Hwf HP. split; [apply H; assumption | lia].
  - intros s a s' Hwf HP _ [_ Hg] [-> _].
    apply (okValue_good_mono s s'); [exact Hg | apply H; assumption].
Qed.

Lemma np_fillHandle' (P : state -> Prop) (idx : nat) (v : Value) :
  (forall s, wf s -> P s -> (idx < length (handles s))%nat /\ okValue s v) ->
  NoPanic P (fun a s => okValue s a) (fillHandle idx v).
Proof. intros H. apply (np_pre _ _ _ _ (np_fillHandle idx v)). exact H. Qed.

Lemma np_setHandle' (P : state -> Prop) (idx : nat) (v : Value) :
  (forall s, wf s -> P s -> (idx < length (handles s))%nat /\ okValue s v) ->
  NoPanic P (fun _ _ => True) (setHandle idx v).
Proof. intros H. apply (np_pre _ _ _ _ (np_setHandle idx v)). exact H. Qed.

Lemma np_deref' (P : state -> Prop) (p : nat) :
  (forall s, wf s -> P s -> good s p) ->
  NoPanic P (fun c s => 2 <= strlen (name c) /\ goodOpt s (super c)) (deref p).
Proof. intros H. apply (np_pre _ _ _ _ (np_deref p)). exact H. Qed.

Lemma np_setSuper' (P : state -> Prop) (p : nat) (sup : option nat) :
  (forall s, wf s -> P s -> goodOpt s sup) ->
  NoPanic P (fun _ _ => True) (setClazz p (setSuper sup)).
Proof. intros H. apply (np_pre _ _ _ _ (np_setSuper p sup)). exact H. Qed.

Lemma np_forLoop {A} (P : state -> Prop) (fuel : nat) (i n : Z) (body : A -> M A) (acc : A) :
  Mono P ->
  (forall acc, NoPanic P (fun _ _ => True) (body acc)) ->
  NoPanic P (fun _ _ => True) (forLoop fuel i n body acc).
Proof.
  intros HP Hbody. revert i acc. induction fuel as [| fuel IH]; intros i acc; simpl.
  - destruct (i <? n); [apply np_errorf; discriminate | apply np_ret; auto].
  - destruct (i <? n); [| apply np_ret; auto].
    apply (np_bind P (fun _ _ => True)); [exact HP | apply Hbody |].
    intros acc'. apply (np_pre P); [apply IH | tauto].
Qed.

Create HintDb np.
#[export] Hint Resolve quiet_readBE quiet_signed quiet_readString quiet_utf quiet_utfLong
  quiet_parseBlockData quiet_parseBlockDataLong quiet_step quiet_bufSlice : np.
#[export] Hint Extern 1 (Quiet readUInt8) => apply quiet_readBE : np.
#[export] Hint Extern 1 (Quiet readUInt16) => apply quiet_readBE : np.
#[export] Hint Extern 1 (Quiet readUInt32) => apply quiet_readBE : np.
#[export] Hint Extern 1 (Quiet readFloat32) => apply quiet_readBE : np.
#[export] Hint Extern 1 (Quiet readFloat64) => apply quiet_readBE : np.
#[export] Hint Extern 1 (Quiet readInt8) => apply quiet_signed : np.
#[export] Hint Extern 1 (Quiet readInt16) => apply quiet_signed : np.
#[export] Hint Extern 1 (Quiet readInt32) => apply quiet_signed : np.
#[export] Hint Extern 1 (Quiet readInt64) => apply quiet_signed : np.
#[export] Hint Extern 1 (Quiet (wrap _ _)) => apply quiet_wrap : np.

(** Decompose a goal along the shape of the computation; the conditions
    established so far are carried along as the precondition. *)
Ltac np_step :=
  cbv beta;
  lazymatch goal with
  | |- NoPanic _ _ (bind _ _) => eapply np_bind; [solve [mono] | solve [np] | intros ?]
  | |- NoPanic _ _ (wrap _ _) => apply np_wrap
  | |- NoPanic _ _ (ret _) => apply np_ret; solve [np_side]
  | |- NoPanic _ _ (errorf _) => apply np_errorf; discriminate
  | |- NoPanic _ _ (match Wrap None _ with _ => _ end) => cbn [Wrap]
  | |- NoPanic _ _ (if ?b then _ else _) => destruct b
  | |- NoPanic _ _ (match primitiveHandlers _ _ with _ => _ end) => fail
  | |- NoPanic _ _ (match ?x with _ => _ end) => destruct x
  | |- NoPanic _ _ (newHandle _) => apply np_newHandle'; solve [np_side]
  | |- NoPanic _ _ (fillHandle _ _) => apply np_fillHandle'; solve [np_side]
  | |- NoPanic _ _ (setHandle _ _) => apply np_setHandle'; solve [np_side]
  | |- NoPanic _ _ (deref _) => apply np_deref'; solve [np_side]
  | |- NoPanic _ _ (setClazz _ (setSuper _)) => apply np_setSuper'; solve [np_side]
  | |- NoPanic _ _ (setClazz _ _) =>
      apply np_top; apply np_setClazz; intros ?; reflexivity
  | |- NoPanic _ _ newDeferredHandle => apply np_top; apply np_newDeferredHandle
  | |- NoPanic _ _ getHandles => apply np_top; apply np_getHandles
  | |- NoPanic _ _ (logTag _) => apply np_top; apply np_logTag
  | |- NoPanic _ _ parseReference => apply np_parseReference
  | |- NoPanic _ _ _ => first [ apply np_read; solve [auto with np] | solve [auto with np] ]
  end
with np := repeat np_step.


Lemma np_parseString : NoPanic (fun _ => True) (fun v s => okValue s v) parseString.
Proof. unfold parseString. np. Qed.

Lemma np_parseLongString : NoPanic (fun _ => True) (fun v s => okValue s v) parseLongString.
Proof. unfold parseLongString. np. Qed.

Lemma np_parseBlockData : NoPanic (fun _ => True) (fun v s => okValue s v) parseBlockData.
Proof. unfold parseBlockData. np. Qed.

Lemma np_parseBlockDataLong :
  NoPanic (fun _ => True) (fun v s => okValue s v) parseBlockDataLong.
Proof. unfold parseBlockDataLong. np. Qed.

Lemma setsValue_no_panic (fields : gmap string Value) (r : result (gmap string Value))
    (e : error) :
  setsValue fields r -> r = Err e -> Cause e <> Panic.
Proof.
  intros [(v & ->) | (why & ->)] H; [discriminate H |].
  injection H as <-. discriminate.
Qed.

Lemma byteAt_Some (i : nat) (s : string) :
  Z.of_nat i < strlen s -> exists t, byteAt i s = Some t.
Proof.
  unfold byteAt, strlen. revert i. induction s as [| a s IH]; intros i Hi; simpl in *.
  - lia.
  - destruct i as [| i]; simpl; [eexists; reflexivity |]. apply IH. lia.
Qed.

Section NoPanicParsers.

Variable content : allowList -> M Value.
Variable fuel : nat.
Hypothesis Hcontent :
  forall a, NoPanic (fun _ => True) (fun v s => okValue s v) (content a).

Hint Extern 1 (NoPanic _ _ (content _)) => apply np_top; apply Hcontent : np.

Lemma np_primitiveHandlers (t : Z) :
  NoPanicOpt (fun _ => True) (fun v s => okValue s v) (primitiveHandlers content t).
Proof.
  unfold primitiveHandlers, NoPanicOpt.
  repeat match goal with
         | |- context [if ?b then _ else _] => destruct b
         end; try exact I; np.
Qed.

Ltac np_handler :=
  match goal with
  | |- context [primitiveHandlers content ?t] =>
      let H := fresh "Hh" in
      pose proof (np_primitiveHandlers t) as H; unfold NoPanicOpt in H;
      destruct (primitiveHandlers content t)
  end.

Lemma np_fieldDesc : NoPanic (fun _ => True) (fun _ _ => True) (fieldDesc content).
Proof. unfold fieldDesc. np. Qed.

Lemma np_annotationsLoop (n : nat) (a : allowList) (anns : list Value) :
  NoPanic (fun _ => True) (fun _ _ => True) (annotationsLoop content n a anns).
Proof.
  revert anns. induction n as [| n IH]; intros anns; simpl; [np |].
  eapply np_bind; [mono | np |]. intros ann.
  destruct ann; try (apply np_top; apply IH). np.
Qed.

Lemma np_annotations (a : allowList) :
  NoPanic (fun _ => True) (fun _ _ => True) (annotations content fuel a).
Proof. apply np_annotationsLoop. Qed.

Lemma np_classDesc :
  NoPanic (fun _ => True) (fun o s => goodOpt s o) (classDesc content).
Proof. unfold classDesc. np. Qed.

Hint Extern 1 (NoPanic _ _ (fieldDesc _)) => apply np_top; apply np_fieldDesc : np.
Hint Extern 1 (NoPanic _ _ (annotations _ _ _)) => apply np_top; apply np_annotations : np.
Hint Extern 1 (NoPanic _ _ (classDesc _)) => apply np_top; apply np_classDesc : np.
Hint Extern 1 (NoPanic _ _ (forLoop _ _ _ _ _)) =>
  apply np_forLoop; [solve [mono] | intros ?; np] : np.



(** A new descriptor, once it is named: the store has one more entry, the
    pointers that were good stay good, and the new one is good when the
    name has two bytes. *)
Lemma wf_named (s s1 : state) (nm : string) :
  wf s ->
  handles s1 = handles s ->
  classes s1 = classes s ++ [emptyClazz] ->
  let s2 := mkState (buf s1) (pos s1) (handles s1)
              (alter (setName nm) (length (classes s)) (classes s1)) (tags s1) in
  wf s2 /\ grows s s2 /\ (2 <= strlen nm -> good s2 (length (classes s))).
Proof.
  intros [Hw1 Hw2] Hh Hc s2.
  assert (Hcl : classes s2 = classes s ++ [setName nm emptyClazz]).
  { unfold s2. simpl. rewrite Hc. apply alter_last. }
  assert (Hg : forall p, good s p -> good s2 p).
  { intros p (c & Hp & Hn). exists c. rewrite Hcl.
    rewrite lookup_app_l by (apply lookup_lt_Some in Hp; exact Hp). split; assumption. }
  assert (Hgo : forall o, goodOpt s o -> goodOpt s2 o).
  { intros [p |]; simpl; auto. }
  split; [split |].
  - intros i v Hi. unfold s2 in Hi. simpl in Hi. rewrite Hh in Hi.
    apply (okValue_good_mono s s2 v Hg). exact (Hw1 i v Hi).
  - intros q c Hq. rewrite Hcl in Hq. apply lookup_app_Some in Hq.
    destruct Hq as [Hq | [_ Hq]].
    + apply Hgo. exact (Hw2 q c Hq).
    + destruct (q - length (classes s))%nat; simpl in Hq; [| discriminate].
      injection Hq as <-. exact I.
  - split; [split; [unfold s2; simpl; rewrite Hh; lia | exact Hg] |].
    intros Hnm. exists (setName nm emptyClazz). rewrite Hcl. split; [| exact Hnm].
    rewrite lookup_app_r by lia. rewrite Nat.sub_diag. reflexivity.
Qed.

Lemma np_parseClassDesc :
  NoPanic (fun _ => True) (fun v s => okValue s v) (parseClassDesc content fuel).
Proof.
  intros s Hwf _. unfold parseClassDesc. unfold bind at 1 2 3.
  unfold newClazz at 1. cbv beta iota.
  set (s0 := mkState (buf s) (pos s) (handles s) (classes s ++ [emptyClazz]) (tags s)).
  pose proof (quiet_wrap "error reading class name" utf quiet_utf s0) as Hq.
  destruct (wrap "error reading class name" utf s0) as [[nm | e] s1]; [| exact Hq].
  destruct Hq as [Hh Hc]. unfold setClazz at 1. cbv beta iota.
  destruct (wf_named s s1 nm Hwf Hh Hc) as (Hwf2 & Hg2 & Hgood).
  set (s2 := mkState (buf s1) (pos s1) (handles s1)
               (alter (setName nm) (length (classes s)) (classes s1)) (tags s1)) in *.
  destruct (Z.ltb_spec (strlen nm) 2) as [Hshort | Hlong].
  - simpl. split; [exact Hwf2 |]. split; [exact Hg2 | exact I].
  - match goal with
    | |- match ?rest s2 with _ => _ end =>
        assert (Hrest : NoPanic (fun s' => good s' (length (classes s)))
                          (fun v s => okValue s v) rest)
    end.
    { generalize (length (classes s)). intros cls. np. }
    specialize (Hrest s2 Hwf2 (Hgood Hlong)).
    match goal with
    | |- match ?r with _ => _ end => destruct r as [[v | e] s3]
    end; [| exact Hrest].
    destruct Hrest as (Hwf3 & Hg3 & Hv).
    split; [exact Hwf3 |]. split; [exact (grows_trans _ _ _ Hg2 Hg3) | exact Hv].
Qed.

Lemma np_parseClass :
  NoPanic (fun _ => True) (fun v s => okValue s v) (parseClass content).
Proof. unfold parseClass. np. Qed.

Lemma np_parseArray :
  NoPanic (fun _ => True) (fun v s => okValue s v) (parseArray content fuel).
Proof.
  unfold parseArray.
  eapply np_bind; [mono | np |]. intros cls. cbv zeta.
  eapply np_bind; [mono | np |]. intros hs.
  eapply np_bind; [mono | |].
  { eapply np_pre; [apply (np_newHandle (length hs)) |]. np_side. }
  intros ?.
  eapply np_bind; [mono | np |]. intros size.
  eapply np_bind; [mono | np |]. intros ?.
  destruct cls as [p |]; [| np].
  eapply np_bind; [mono | np |]. intros c.
  destruct (byteAt 1 (name c)) as [t |] eqn:Ht.
  - np_handler; [| np].
    eapply np_bind; [mono | | intros ?; np].
    apply np_forLoop; [mono |]. intros acc.
    eapply np_bind; [mono | | intros ?; np].
    apply np_wrap. apply np_top. exact Hh.
  - apply np_absurd. intros s H. cbv beta in H.
    destruct H as (_ & Hn & _).
    destruct (byteAt_Some 1 (name c)) as (t & Ht'); [lia | congruence].
Qed.

Lemma np_parseEnum :
  NoPanic (fun _ => True) (fun v s => okValue s v) (parseEnum content).
Proof. unfold parseEnum. np. Qed.

Lemma np_valuesLoop (fs : list field) (vals : gmap string Value) :
  NoPanic (fun _ => True) (fun _ _ => True) (valuesLoop content fs vals).
Proof.
  revert vals. induction fs as [| f fs IH]; intros vals; simpl; [np |].
  np_handler; [| np].
  eapply np_bind; [mono | | intros v; apply np_top; apply IH].
  apply np_wrap. exact Hh.
Qed.

Lemma np_values (cls : nat) :
  NoPanic (fun s => good s cls) (fun _ _ => True) (values content cls).
Proof.
  unfold values. eapply np_bind; [mono | np |]. intros c.
  apply np_top. apply np_valuesLoop.
Qed.

Hint Extern 1 (NoPanic _ _ (values _ _)) =>
  eapply np_pre; [apply np_values | solve [np_side]] : np.

Lemma np_annotationsAsMap (cls : nat) (isBlock : bool) :
  NoPanic (fun s => good s cls) (fun _ _ => True)
    (annotationsAsMap content fuel cls isBlock).
Proof.
  unfold annotationsAsMap.
  eapply np_bind with (Q1 := fun _ _ => True); [mono | destruct isBlock; np |].
  intros data.
  eapply np_bind; [mono | np |]. intros anns. cbv zeta.
  destruct (negb isBlock); [| np].
  eapply np_bind; [mono | np |]. intros c.
  destruct (KnownPostProcs !! (name c +:+ "@" +:+ serialVersionUID c))
    as [postproc |] eqn:Hpp; [| np].
  apply np_top. apply np_liftR. intros e He.
  exact (setsValue_no_panic _ _ e
           (postProcs_setsValue postproc _ _ (KnownPostProcs_elem _ _ Hpp)) He).
Qed.

Hint Extern 1 (NoPanic _ _ (annotationsAsMap _ _ _ _)) =>
  eapply np_pre; [apply np_annotationsAsMap | solve [np_side]] : np.

Lemma np_classData (cls : option nat) :
  NoPanic (fun s => goodOpt s cls) (fun _ _ => True) (classData content fuel cls).
Proof. unfold classData. destruct cls as [p |]; np. Qed.

Hint Extern 1 (NoPanic _ _ (classData _ _ _)) =>
  eapply np_pre; [apply np_classData | solve [np_side]] : np.

Lemma np_recursiveClassData (n : nat) (cls : option nat)
    (obj : gmap string Value) (seen : gset nat) :
  NoPanic (fun s => goodOpt s cls) (fun _ _ => True)
    (recursiveClassData content fuel n cls obj seen).
Proof.
  revert cls obj seen. induction n as [| n IH]; intros cls obj seen;
    destruct cls as [p |]; simpl; try solve [np].
  eapply np_bind; [mono | np |]. intros c.
  eapply np_bind with (Q1 := fun _ _ => True); [mono | |].
  { destruct (super c) as [sp |] eqn:Hsup; [| np].
    destruct (decide (sp ∈ {[p]} ∪ seen)); [np |].
    eapply np_pre; [apply IH |]. np_side. }
  intros os. np.
Qed.

Hint Extern 1 (NoPanic _ _ (recursiveClassData _ _ _ _ _ _)) =>
  eapply np_pre; [apply np_recursiveClassData | solve [np_side]] : np.

Lemma np_parseObject :
  NoPanic (fun _ => True) (fun v s => okValue s v) (parseObject content fuel).
Proof. unfold parseObject. np. Qed.

Lemma np_knownParsers (n : TypeName) :
  NoPanicOpt (fun _ => True) (fun v s => okValue s v) (knownParsers content fuel n).
Proof.
  destruct n; simpl; try exact I.
  - unfold parseNull. np.
  - apply np_parseReference.
  - apply np_parseClassDesc.
  - apply np_parseObject.
  - apply np_parseString.
  - apply np_parseArray.
  - apply np_parseClass.
  - apply np_parseBlockData.
  - unfold parseEndBlockData. np.
  - apply np_parseBlockDataLong.
  - apply np_parseLongString.
  - apply np_parseEnum.
Qed.

Lemma np_contentBody (a : allowList) :
  NoPanic (fun _ => True) (fun v s => okValue s v) (contentBody content fuel a).
Proof.
  unfold contentBody. eapply np_bind; [mono | np |]. intros tc. cbv zeta.
  destruct (Z.ltb_spec typeNameMax ((tc - 112) mod 256)) as [| Hle]; [np |].
  destruct (typeNames !! Z.to_nat ((tc - 112) mod 256)) as [name |] eqn:Hname.
  - destruct (match a with Some allowed => negb (allowed name) | None => false end); [np |].
    pose proof (np_knownParsers name) as Hk. unfold NoPanicOpt in Hk.
    destruct (knownParsers content fuel name) as [parse |]; [| np].
    eapply np_bind; [mono | np |]. intros ?. apply np_top. exact Hk.
  - apply lookup_ge_None in Hname. change typeNameMax with 14 in Hle.
    pose proof (Z.mod_pos_bound (tc - 112) 256 ltac:(lia)).
    simpl length in Hname. lia.
Qed.

End NoPanicParsers.

Lemma np_content (fuel : nat) (a : allowList) :
  NoPanic (fun _ => True) (fun v s => okValue s v) (content fuel a).
Proof.
  revert a. induction fuel as [| fuel IH]; intros a; simpl.
  - apply np_errorf. discriminate.
  - apply np_contentBody. exact IH.
Qed.

Lemma np_parseLoop (n fuel : nat) (acc : list Value) :
  NoPanic (fun _ => True) (fun _ _ => True) (parseLoop n fuel acc).
Proof.
  revert acc. induction n as [| n IH]; intros acc s Hwf _; cbn [parseLoop].
  - destruct (pos s <? len (buf s)); [simpl; discriminate |].
    split; [exact Hwf |]. split; [apply grows_refl | exact I].
  - destruct (pos s <? len (buf s)).
    + assert (Hb : NoPanic (fun _ => True) (fun _ _ => True)
                     (nxt <- content fuel None ;; parseLoop n fuel (acc ++ [nxt]))).
      { eapply np_bind; [mono | apply np_content |]. intros nxt.
        apply np_top. apply IH. }
      exact (Hb s Hwf I).
    + split; [exact Hwf |]. split; [apply grows_refl | exact I].
Qed.

Lemma wf_newParser (b : list byte) : wf (newParser b).
Proof.
  split; simpl.
  - intros i v H. rewrite lookup_nil in H. discriminate.
  - intros q c H. rewrite lookup_nil in H. discriminate.
Qed.

(** X22.  The parser does not panic.  Every index it uses is within the slice or
    string it indexes and every class pointer it dereferences points at a
    class: the handle reserved for an object or enum is still there when it
    is filled, a reference is looked up only within the handle table, the
    post-processors index only elements they have counted, and the element
    type of an array is read from a class name of at least two bytes,
    because the descriptors with a shorter name are never registered nor
    returned. *)
Theorem ParseSerializedObject_no_panic (b : list byte) (e : error) :
  ParseSerializedObject b = Err e -> Cause e <> Panic.
Proof.
  unfold ParseSerializedObject, ParseSerializedObjectFuel, runParser.
  set (fuel := (2 * length b + 1)%nat).
  assert (Hnp : NoPanic (fun _ => True) (fun _ _ => True)
                  (magic ;;; version ;;; parseLoop fuel fuel [])).
  { eapply np_bind; [mono | apply np_read, quiet_magic |]. intros ?.
    eapply np_bind; [mono | apply np_read, quiet_version |]. intros ?.
    apply np_top. apply np_parseLoop. }
  specialize (Hnp (newParser b) (wf_newParser b) I).
  destruct ((magic ;;; version ;;; parseLoop fuel fuel []) (newParser b)) as [[vs | e'] s].
  - discriminate.
  - simpl. intros H. injection H as <-. exact Hnp.
Qed.

Lemma ParseSerializedObject_no_panic_witness :
  ParseSerializedObject (unhex "aced000575") = Err (Wrapped "error parsing array class"
    (Wrapped "error reading class description" (New UnexpectedEnd))) /\
  Cause (Wrapped "error parsing array class"
           (Wrapped "error reading class description" (New UnexpectedEnd))) <> Panic.
Proof.
  assert (H : ParseSerializedObject (unhex "aced000575")
              = Err (Wrapped "error parsing array class"
                       (Wrapped "error reading class description" (New UnexpectedEnd))))
    by (vm_compute; reflexivity).
  split; [exact H |].
  exact (ParseSerializedObject_no_panic _ _ H).
Defined.

(** ** More fuel *)

Lemma settled_refl {A} (m : M A) : Settled m m.
Proof. intros s r s' H _. exact H. Qed.

Lemma settled_oof {A} (m' : M A) : Settled (errorf OutOfFuel) m'.
Proof.
  intros s r s' H Hr. injection H as <- <-. destruct (Hr _ eq_refl). reflexivity.
Qed.

Lemma settled_bind {A B} (m m' : M A) (k k' : A -> M B) :
  Settled m m' -> (forall a, Settled (k a) (k' a)) ->
  Settled (bind m k) (bind m' k').
Proof.
  intros Hm Hk s r s' H Hr. unfold bind in *.
  destruct (m s) as [[a | e] s1] eqn:Hms.
  - rewrite (Hm s (Ok a) s1 Hms) by discriminate. exact (Hk a s1 r s' H Hr).
  - injection H as <- <-. rewrite (Hm s (Err e) s1 Hms); [reflexivity |].
    intros e' He'. injection He' as <-. apply Hr. reflexivity.
Qed.

Lemma settled_wrap {A} (msg : string) (m m' : M A) :
  Settled m m' -> Settled (wrap msg m) (wrap msg m').
Proof.
  intros Hm s r s' H Hr. unfold wrap in *.
  destruct (m s) as [[a | e] s1] eqn:Hms.
  - rewrite (Hm s (Ok a) s1 Hms) by discriminate. exact H.
  - injection H as <- <-. rewrite (Hm s (Err e) s1 Hms); [reflexivity |].
    intros e' He'. injection He' as <-. apply (Hr (Wrapped msg e)). reflexivity.
Qed.

Lemma settled_forLoop {A} (fuel fuel' : nat) (i n : Z) (body body' : A -> M A) (acc : A) :
  (fuel <= fuel')%nat ->
  (forall acc, Settled (body acc) (body' acc)) ->
  Settled (forLoop fuel i n body acc) (forLoop fuel' i n body' acc).
Proof.
  intros Hle Hbody. revert fuel' Hle i acc.
  induction fuel as [| fuel IH]; intros fuel' Hle i acc.
  - destruct fuel'; simpl; destruct (i <? n);
      first [apply settled_oof | apply settled_refl].
  - destruct fuel' as [| fuel']; [lia |]. simpl.
    destruct (i <? n); [| apply settled_refl].
    apply settled_bind; [apply Hbody |]. intros acc'. apply IH. lia.
Qed.

Create HintDb settled.

(** Decompose a goal along the shape of the two computations; where they
    are the same computation there is nothing to do. *)
Ltac settled_step :=
  match goal with
  | |- Settled ?m ?m => apply settled_refl
  | |- Settled (errorf OutOfFuel) _ => apply settled_oof
  | |- Settled (bind _ _) (bind _ _) => apply settled_bind; [| intros ?]
  | |- Settled (wrap _ _) (wrap _ _) => apply settled_wrap
  | |- Settled (forLoop _ _ _ _ _) (forLoop _ _ _ _ _) =>
      apply settled_forLoop; [assumption | intros ?]
  | |- Settled (if ?b then _ else _) (if ?b then _ else _) => destruct b
  | |- Settled (match ?x with _ => _ end) (match ?x with _ => _ end) => destruct x
  | |- Settled _ _ => solve [auto with settled]
  end.

Ltac settled := repeat settled_step.

Section SettledParsers.

Variables content content' : allowList -> M Value.
Variables fuel fuel' : nat.
Hypothesis Hcontent : forall a, Settled (content a) (content' a).
Hypothesis Hfuel : (fuel <= fuel')%nat.

Hint Resolve Hcontent : settled.

Lemma settled_primitiveHandlers (t : Z) :
  SettledOpt (primitiveHandlers content t) (primitiveHandlers content' t).
Proof.
  unfold primitiveHandlers, SettledOpt.
  repeat match goal with
         | |- context [if ?b then _ else _] => destruct b
         end; try exact I; settled.
Qed.

Lemma settled_fieldDesc : Settled (fieldDesc content) (fieldDesc content').
Proof. unfold fieldDesc. settled. Qed.

Lemma settled_annotationsLoop (n n' : nat) (a : allowList) (anns : list Value) :
  (n <= n')%nat ->
  Settled (annotationsLoop content n a anns) (annotationsLoop content' n' a anns).
Proof.
  revert n' anns. induction n as [| n IH]; intros n' anns Hle.
  - simpl. settled.
  - destruct n' as [| n']; [lia |]. simpl.
    apply settled_bind; [settled |]. intros ann.
    destruct ann; try (apply IH; lia). settled.
Qed.

Lemma settled_annotations (a : allowList) :
  Settled (annotations content fuel a) (annotations content' fuel' a).
Proof. apply settled_annotationsLoop. exact Hfuel. Qed.

Lemma settled_classDesc : Settled (classDesc content) (classDesc content').
Proof. unfold classDesc. settled. Qed.

Hint Resolve settled_fieldDesc settled_annotations settled_classDesc : settled.

Lemma settled_parseClassDesc :
  Settled (parseClassDesc content fuel) (parseClassDesc content' fuel').
Proof. unfold parseClassDesc. settled. Qed.

Lemma settled_parseClass : Settled (parseClass content) (parseClass content').
Proof. unfold parseClass. settled. Qed.

Lemma settled_parseArray :
  Settled (parseArray content fuel) (parseArray content' fuel').
Proof.
  unfold parseArray. settled.
  match goal with
  | |- context [primitiveHandlers content ?t] =>
      pose proof (settled_primitiveHandlers t) as Hh; unfold SettledOpt in Hh;
      destruct (primitiveHandlers content t) as [h |],
               (primitiveHandlers content' t) as [h' |]; try contradiction
  end; settled.
Qed.

Lemma settled_parseEnum : Settled (parseEnum content) (parseEnum content').
Proof. unfold parseEnum. settled. Qed.

Lemma settled_valuesLoop (fs : list field) (vals : gmap string Value) :
  Settled (valuesLoop content fs vals) (valuesLoop content' fs vals).
Proof.
  revert vals. induction fs as [| f fs IH]; intros vals; simpl; [settled |].
  pose proof (settled_primitiveHandlers (f_typeName f)) as Hh. unfold SettledOpt in Hh.
  destruct (primitiveHandlers content (f_typeName f)) as [h |],
           (primitiveHandlers content' (f_typeName f)) as [h' |];
    try contradiction; [| settled].
  apply settled_bind; [settled |]. intros v. apply IH.
Qed.

Lemma settled_values (cls : nat) : Settled (values content cls) (values content' cls).
Proof.
  unfold values. apply settled_bind; [settled |]. intros c. apply settled_valuesLoop.
Qed.

Hint Resolve settled_values : settled.

Lemma settled_annotationsAsMap (cls : nat) (isBlock : bool) :
  Settled (annotationsAsMap content fuel cls isBlock)
          (annotationsAsMap content' fuel' cls isBlock).
Proof. unfold annotationsAsMap. settled. Qed.

Hint Resolve settled_annotationsAsMap : settled.

Lemma settled_classData (cls : option nat) :
  Settled (classData content fuel cls) (classData content' fuel' cls).
Proof. unfold classData. settled. Qed.

Hint Resolve settled_classData : settled.

Lemma settled_recursiveClassData (n n' : nat) (cls : option nat)
    (obj : gmap string Value) (seen : gset nat) :
  (n <= n')%nat ->
  Settled (recursiveClassData content fuel n cls obj seen)
          (recursiveClassData content' fuel' n' cls obj seen).
Proof.
  revert n' cls obj seen. induction n as [| n IH]; intros n' cls obj seen Hle.
  - destruct cls, n'; simpl; settled.
  - destruct n' as [| n']; [lia |]. destruct cls as [p |]; simpl; [| settled].
    apply settled_bind; [settled |]. intros c.
    apply settled_bind.
    + destruct (super c) as [sp |]; [| settled].
      destruct (decide (sp ∈ {[p]} ∪ seen)); [settled |]. apply IH. lia.
    + intros os. settled.
Qed.

Lemma settled_parseObject :
  Settled (parseObject content fuel) (parseObject content' fuel').
Proof.
  unfold parseObject. settled.
  apply settled_recursiveClassData. exact Hfuel.
Qed.

Lemma settled_knownParsers (n : TypeName) :
  SettledOpt (knownParsers content fuel n) (knownParsers content' fuel' n).
Proof.
  destruct n; unfold knownParsers, SettledOpt;
    first [ exact I
          | apply settled_parseEnum | apply settled_parseClassDesc
          | apply settled_parseClass | apply settled_parseArray
          | apply settled_parseObject
          | apply settled_refl ].
Qed.

Lemma settled_contentBody (a : allowList) :
  Settled (contentBody content fuel a) (contentBody content' fuel' a).
Proof.
  unfold contentBody. settled.
  match goal with
  | |- context [knownParsers content fuel ?n] =>
      pose proof (settled_knownParsers n) as Hk; unfold SettledOpt in Hk;
      destruct (knownParsers content fuel n), (knownParsers content' fuel' n);
        try contradiction
  end; settled.
Qed.

End SettledParsers.

Lemma settled_content (fuel fuel' : nat) (a : allowList) :
  (fuel <= fuel')%nat -> Settled (content fuel a) (content fuel' a).
Proof.
  revert fuel' a. induction fuel as [| fuel IH]; intros fuel' a Hle.
  - simpl. apply settled_oof.
  - destruct fuel' as [| fuel']; [lia |]. simpl.
    apply settled_contentBody; [| lia]. intros a'. apply IH. lia.
Qed.

Lemma settled_parseLoop (n n' fuel fuel' : nat) (acc : list Value) :
  (n <= n')%nat -> (fuel <= fuel')%nat ->
  Settled (parseLoop n fuel acc) (parseLoop n' fuel' acc).
Proof.
  revert n' acc. induction n as [| n IH]; intros n' acc Hn Hf s r s' H Hr.
  - cbn [parseLoop] in H. destruct n'; cbn [parseLoop];
      destruct (pos s <? len (buf s)); try exact H;
      injection H as <- <-; destruct (Hr _ eq_refl); reflexivity.
  - destruct n' as [| n']; [lia |]. cbn [parseLoop] in *.
    destruct (pos s <? len (buf s)); [| exact H].
    revert H Hr. apply settled_bind.
    + apply settled_content. exact Hf.
    + intros nxt. apply IH; lia.
Qed.

(** X19.  The parse of an input of [n] bytes does not nest calls of [content],
    nor iterate any of its loops, more than [2 * n + 1] times: with any
    larger bound the parser gives the result of ParseSerializedObject, value
    for value and error for error. *)
Theorem fuel_is_enough (fuel : nat) (b : list byte) :
  (2 * length b + 1 <= fuel)%nat ->
  ParseSerializedObjectFuel fuel b = ParseSerializedObject b.
Proof.
  intros Hfuel. unfold ParseSerializedObject, ParseSerializedObjectFuel, runParser.
  set (fuel0 := (2 * length b + 1)%nat) in *.
  assert (Hsafe : Safe (2 * len b) (2 * len b)
                    (magic ;;; version ;;; parseLoop fuel0 fuel0 [])).
  { apply safe_bind with (N1 := 2 * len b); [apply safe_magic |]. intros _.
    apply safe_bind with (N1 := 2 * len b); [apply safe_version |]. intros _.
    apply safe_parseLoop; unfold fuel0, len; lia. }
  specialize (Hsafe (newParser b) (inBounds_newParser b)).
  unfold measure in Hsafe. simpl in Hsafe.
  assert (Hset : Settled (magic ;;; version ;;; parseLoop fuel0 fuel0 [])
                         (magic ;;; version ;;; parseLoop fuel fuel [])).
  { apply settled_bind; [apply settled_refl |]. intros _.
    apply settled_bind; [apply settled_refl |]. intros _.
    apply settled_parseLoop; exact Hfuel. }
  destruct ((magic ;;; version ;;; parseLoop fuel0 fuel0 []) (newParser b))
    as [r s] eqn:Hrun.
  rewrite (Hset (newParser b) r s Hrun); [reflexivity |].
  intros e ->. apply Hsafe. unfold len. simpl. lia.
Qed.

Lemma fuel_is_enough_witness :
  ParseSerializedObjectFuel 100 (unhex "aced000574000161")
  = ParseSerializedObject (unhex "aced000574000161").
Proof.
  apply (fuel_is_enough 100 (unhex "aced000574000161")). vm_compute. lia.
Defined.
